(** * Intent routing and thread caching of the Simple Foundry orchestrator

    A shallow embedding of [src/api/app/simple_foundry_orchestrator.py]:
    the keyword classifier [_determine_target_agent], the [ThreadCache]
    (a [cachetools.TTLCache] with two overridden methods), the [respond]
    coroutine of [SimpleFoundryOrchestrator], its start-up [create] with
    the two agent builders, and [get_simple_foundry_orchestrator].

    Conventions.
    - A Python [str] is a list of Unicode code points ([pystr]).  The parts
      of the Unicode database the code consults ([str.lower], [str.isalnum]
      behind the regex [\b], [str.isspace] behind [str.strip], [repr]) are a record
      [unicode]; every statement is universal in it, and [ascii_db] is the
      instance used to run the code on ASCII text.
    - A reading of the monotonic clock is a rational; the sum of two
      floats is the exact sum rounded to binary64, to nearest with ties
      to even ([Float.add]).  Sums beyond the largest finite float are
      outside the model: the clock counts seconds since start-up.
    - Code that mutates [self] and may raise is written in a small monad
      [M S A]: state [S], an event trace, and an outcome that is a return
      value or a raised exception.  State changes made before a raise
      persist, as they do in Python.  An exception that is not an
      instance of [Exception] ([CancelledError] and the like) passes
      through every handler of the file, all of which name [Exception]. *)

From Stdlib Require Import List String Ascii NArith ZArith QArith Lia Lqa Bool.
From Stdlib Require Import Permutation Sorted Qround Qpower.
Import ListNotations.

Set Implicit Arguments.

(* ===================================================================== *)
(** ** Python strings *)
(* ===================================================================== *)

Module Py.

Definition pystr := list N.

(** Code points of an ASCII literal of the source. *)
Definition cps (s : string) : pystr :=
  map N_of_ascii (list_ascii_of_string s).

Definition pystr_eq_dec : forall a b : pystr, {a = b} + {a <> b} :=
  list_eq_dec N.eq_dec.

Definition pystr_eqb (a b : pystr) : bool :=
  if pystr_eq_dec a b then true else false.

(** The Unicode tables the interpreter supplies. *)
Record unicode := {
  str_lower : pystr -> pystr;   (* str.lower() *)
  isalnum : N -> bool;          (* str.isalnum() of one character *)
  isspace : N -> bool;          (* str.isspace() of one character *)
  repr : pystr -> pystr         (* repr() of a str *)
}.

Definition ascii_lower_char (c : N) : N :=
  if (65 <=? c)%N && (c <=? 90)%N then (c + 32)%N else c.

Definition ascii_isalnum (c : N) : bool :=
  ((48 <=? c)%N && (c <=? 57)%N) ||
  ((65 <=? c)%N && (c <=? 90)%N) ||
  ((97 <=? c)%N && (c <=? 122)%N).

Definition ascii_isspace (c : N) : bool :=
  ((9 <=? c)%N && (c <=? 13)%N) || ((28 <=? c)%N && (c <=? 32)%N).

(** The tables restricted to ASCII; exact on text below U+0080 ([repr] on
    printable text without quotes or backslashes). *)
Definition ascii_db : unicode := {|
  str_lower := map ascii_lower_char;
  isalnum := ascii_isalnum;
  isspace := ascii_isspace;
  repr := fun s => 39%N :: s ++ [39%N]
|}.

(** [s.startswith(p)] *)
Fixpoint startswith (s p : pystr) : bool :=
  match p, s with
  | [], _ => true
  | _ :: _, [] => false
  | a :: p', b :: s' => (a =? b)%N && startswith s' p'
  end.

(** [sub in s] *)
Fixpoint contains (s sub : pystr) : bool :=
  startswith s sub ||
  match s with
  | [] => false
  | _ :: s' => contains s' sub
  end.

(** [s.endswith(p)] *)
Definition endswith (s p : pystr) : bool :=
  startswith (rev s) (rev p).

Fixpoint lstrip (U : unicode) (s : pystr) : pystr :=
  match s with
  | c :: s' => if isspace U c then lstrip U s' else s
  | [] => []
  end.

(** [s.strip()] *)
Definition strip (U : unicode) (s : pystr) : pystr :=
  rev (lstrip U (rev (lstrip U s))).

(** Truth value of a [str]: non-empty. *)
Definition truthy (s : pystr) : bool :=
  match s with [] => false | _ :: _ => true end.

End Py.
Import Py.

(* ===================================================================== *)
(** ** The fragment of [re] used by the classifier *)
(* ===================================================================== *)

Module Re.

(** Pattern syntax: literal text, [.*], [\b], alternation, sequence and
    a parenthesised group. *)
Inductive regex :=
| Str (w : pystr)
| AnyStar
| WordB
| Alt (a b : regex)
| Seq (a b : regex)
| Group (r : regex).

(** The pattern text a [regex] stands for. *)
Fixpoint show (r : regex) : pystr :=
  match r with
  | Str w => w
  | AnyStar => cps ".*"
  | WordB => cps "\b"
  | Alt a b => show a ++ cps "|" ++ show b
  | Seq a b => show a ++ show b
  | Group r => cps "(" ++ show r ++ cps ")"
  end.

Section Matching.
Variable U : unicode.

(** [\w]: alphanumeric or underscore. *)
Definition is_word (c : N) : bool := isalnum U c || (c =? 95)%N.

Definition is_word_opt (c : option N) : bool :=
  match c with Some c => is_word c | None => false end.

(** [\b] holds between [prev] and the next character when exactly one of
    them is a word character; the ends of the string count as non-word. *)
Definition at_boundary (prev : option N) (s : pystr) : bool :=
  xorb (is_word_opt prev) (is_word_opt (hd_error s)).

(** Literal text at the head of [s]; the continuation receives the last
    character consumed and the rest. *)
Fixpoint lit (w : pystr) (prev : option N) (s : pystr)
    (k : option N -> pystr -> bool) : bool :=
  match w with
  | [] => k prev s
  | a :: w' =>
      match s with
      | b :: s' => (a =? b)%N && lit w' (Some b) s' k
      | [] => false
      end
  end.

(** [.*]: any run of characters other than the newline U+000A. *)
Fixpoint any_star (prev : option N) (s : pystr)
    (k : option N -> pystr -> bool) : bool :=
  k prev s ||
  match s with
  | c :: s' => if (c =? 10)%N then false else any_star (Some c) s' k
  | [] => false
  end.

(** Backtracking match of [r] at the head of [s], then [k]. *)
Fixpoint rmatch (r : regex) (prev : option N) (s : pystr)
    (k : option N -> pystr -> bool) : bool :=
  match r with
  | Str w => lit w prev s k
  | AnyStar => any_star prev s k
  | WordB => at_boundary prev s && k prev s
  | Alt a b => rmatch a prev s k || rmatch b prev s k
  | Seq a b => rmatch a prev s (fun p s' => rmatch b p s' k)
  | Group r => rmatch r prev s k
  end.

Fixpoint search_from (r : regex) (prev : option N) (s : pystr) : bool :=
  rmatch r prev s (fun _ _ => true) ||
  match s with
  | c :: s' => search_from r (Some c) s'
  | [] => false
  end.

(** [bool(re.search(pattern, s))] *)
Definition search (r : regex) (s : pystr) : bool := search_from r None s.

End Matching.

(** [w1|w2|...|wn] *)
Fixpoint words (w : pystr) (ws : list pystr) : regex :=
  match ws with
  | [] => Str w
  | w' :: ws' => Alt (Str w) (words w' ws')
  end.

(** [\b(a1|...|an)\b] *)
Definition bounded (alts : regex) : regex :=
  Seq WordB (Seq (Group alts) WordB).

(** [x.*y] *)
Definition gap (x y : string) : regex :=
  Seq (Str (cps x)) (Seq AnyStar (Str (cps y))).

End Re.
Import Re.

(* ===================================================================== *)
(** ** Exceptions, log and effects *)
(* ===================================================================== *)

(** Instances of [Exception], the class every handler of the module names.
    [KeyError] and [ValueError] are the two the cache library raises;
    [Exception] stands for any other one, with its [str()]. *)
Inductive exn :=
| KeyError (arg : pystr)
| ValueError (msg : pystr)
| Exception (msg : pystr).

(** Instances of [BaseException] that are not instances of [Exception]:
    [except Exception] does not catch them.  [CancelledError] is what an
    [await] raises when the task is cancelled. *)
Inductive base_exn :=
| CancelledError
| KeyboardInterrupt
| SystemExit
| GeneratorExit.

(** What a call out of the module may raise. *)
Inductive raised :=
| Exc (e : exn)
| Base (b : base_exn).

(** [AzureAIAgent]: the registered name and the Foundry agent id. *)
Record AzureAIAgent := {
  agent_name : pystr;
  agent_id : pystr
}.

(** The lines the module logs, one constructor per call of [logger]. *)
Inductive log_line :=
| LogNotConfigured
| LogRouteGeneralProduct
| LogRoutePolicy
| LogRouteProductScore (product_score : nat)
| LogRoutePolicyScore (policy_score : nat)
| LogRouteDefault
| LogAgentUnavailable (name : pystr)
| LogUsing (name query : pystr)
| LogReusing (thread_id : pystr)
| LogResponseLength (name : pystr) (chars : nat)
| LogNoResponse (name : pystr)
| LogFailure (e : exn)
| LogExpired (thread_id : pystr)
| LogExpireError (thread_id : pystr) (e : exn)
| LogEvicted (thread_id : pystr)
| LogEvictError (thread_id : pystr) (e : exn).

(** Observable events of a call, in program order.  [CacheGet] and
    [CacheSet] mark the two places where [respond] touches the cache. *)
Inductive event :=
| Info (l : log_line)
| Error (l : log_line)
| Invoke (agent : AzureAIAgent) (messages : pystr) (thread : option pystr)
| CacheGet (key : pystr)
| CacheSet (key value : pystr).

(** How a call ends: it returns, it raises an instance of [Exception],
    an exception that is not one passes through it, or, in the model only,
    a loop is cut short by its fuel (shown not to happen). *)
Inductive outcome (A : Type) :=
| Returns (a : A)
| Raises (e : exn)
| Escapes (b : base_exn)
| OutOfFuel.
Arguments Raises {A} e.
Arguments Escapes {A} b.
Arguments OutOfFuel {A}.

Module Eff.

Definition M (S A : Type) : Type := S -> S * list event * outcome A.

Definition ret {S A} (a : A) : M S A := fun s => (s, [], Returns a).

Definition bind {S A B} (m : M S A) (f : A -> M S B) : M S B :=
  fun s =>
    match m s with
    | (s1, tr1, Returns a) =>
        match f a s1 with
        | (s2, tr2, r) => (s2, tr1 ++ tr2, r)
        end
    | (s1, tr1, Raises e) => (s1, tr1, Raises e)
    | (s1, tr1, Escapes b) => (s1, tr1, Escapes b)
    | (s1, tr1, OutOfFuel) => (s1, tr1, OutOfFuel)
    end.

Definition raise {S A} (e : exn) : M S A := fun s => (s, [], Raises e).

Definition escape {S A} (b : base_exn) : M S A :=
  fun s => (s, [], Escapes b).

Definition emit {S} (ev : event) : M S unit := fun s => (s, [ev], Returns tt).

Definition get {S} : M S S := fun s => (s, [], Returns s).

Definition modify {S} (f : S -> S) : M S unit := fun s => (f s, [], Returns tt).

(** [try: m  except Exception as e: h e]; an exception that is not an
    instance of [Exception] passes through. *)
Definition try_except {S A} (m : M S A) (h : exn -> M S A) : M S A :=
  fun s =>
    match m s with
    | (s1, tr1, Raises e) =>
        match h e s1 with
        | (s2, tr2, r) => (s2, tr1 ++ tr2, r)
        end
    | other => other
    end.

(** Run a computation on a component [T] of the state. *)
Definition zoom {S T A} (proj : S -> T) (upd : T -> S -> S) (m : M T A)
    : M S A :=
  fun s =>
    match m (proj s) with
    | (t, tr, r) => (upd t s, tr, r)
    end.

Definition out_fuel {S A} : M S A := fun s => (s, [], OutOfFuel).

End Eff.
Import Eff.

Declare Scope eff_scope.
Delimit Scope eff_scope with eff.
Notation "x <- m ;; k" := (bind m (fun x => k))
  (at level 61, m at next level, right associativity) : eff_scope.
Notation "m ;;; k" := (bind m (fun _ => k))
  (at level 61, right associativity) : eff_scope.
Local Open Scope eff_scope.

(* ===================================================================== *)
(** ** Python floats *)
(* ===================================================================== *)

(** A finite [float] is the rational it denotes.  Comparisons of floats
    are exact; an addition rounds the exact sum to the nearest binary64
    value, a multiple of [2^(e-52)] for the exponent [e] of the sum, and
    of [2^-1074] below the normal range. *)

Module Float.

Local Open Scope Q_scope.

(** The integer nearest to [q], the even one of two equally near. *)
Definition round_half_even (q : Q) : Z :=
  let f := Qfloor q in
  match Qcompare (q - inject_Z f) (1 # 2) with
  | Lt => f
  | Gt => (f + 1)%Z
  | Eq => if Z.even f then f else (f + 1)%Z
  end.

(** For [0 < x]: the [e] with [2^e <= x < 2^(e+1)]. *)
Definition ilog2 (x : Q) : Z :=
  let e := (Z.log2 (Qnum x) - Z.log2 (Zpos (Qden x)))%Z in
  if Qle_bool (2 ^ e) x then e else (e - 1)%Z.

(** The exponent of the binade [x] is rounded in. *)
Definition expo (x : Q) : Z := Z.max (ilog2 x) (-1022).

Definition round_pos (x : Q) : Q :=
  Qred (inject_Z (round_half_even (x * 2 ^ (52 - expo x)))
        * 2 ^ (expo x - 52)).

(** The binary64 value nearest to [x]. *)
Definition fl (x : Q) : Q :=
  match Qnum x with
  | Z0 => 0
  | Zpos _ => round_pos x
  | Zneg _ => - round_pos (- x)
  end.

(** [x + y] on floats *)
Definition add (x y : Q) : Q := fl (x + y).

End Float.

(* ===================================================================== *)
(** ** [cachetools.TTLCache] and its subclass [ThreadCache] *)
(* ===================================================================== *)

(** [ThreadCache] subclasses the library class [cachetools.TTLCache] and
    overrides [expire] and [popitem].  The overriding methods are those of
    the source file.  The inherited ones follow the library (release 5.3
    or later, in which [expire] returns the removed pairs that
    [ThreadCache.expire] iterates over): [Cache] keeps the items and the
    size, [_TimedCache] freezes the timer for the length of a call, and
    [TTLCache] keeps a link with an expiry time for each key, in an
    ordered dict for the recency order and in a ring for the expiry
    order.  Calls of [self.expire] and [self.popitem] inside the library
    reach the overriding methods. *)

Module Cache.

(** Association lists keyed by [str]. *)
Fixpoint assoc {V} (k : pystr) (l : list (pystr * V)) : option V :=
  match l with
  | [] => None
  | (k', v) :: l' => if pystr_eq_dec k k' then Some v else assoc k l'
  end.

Fixpoint remove_key {V} (k : pystr) (l : list (pystr * V)) : list (pystr * V) :=
  match l with
  | [] => []
  | (k', v) :: l' =>
      if pystr_eq_dec k k' then remove_key k l' else (k', v) :: remove_key k l'
  end.

(** [d[k] = v] on a dict: in place when [k] is present, appended otherwise. *)
Fixpoint set_assoc {V} (k : pystr) (v : V) (l : list (pystr * V))
    : list (pystr * V) :=
  match l with
  | [] => [(k, v)]
  | (k', v') :: l' =>
      if pystr_eq_dec k k' then (k, v) :: l' else (k', v') :: set_assoc k v l'
  end.

(** [OrderedDict.move_to_end(k)] *)
Definition move_to_end {V} (k : pystr) (l : list (pystr * V))
    : list (pystr * V) :=
  match assoc k l with
  | Some v => remove_key k l ++ [(k, v)]
  | None => l
  end.

Definition Qltb (a b : Q) : bool := negb (Qle_bool b a).

(** State of a [TTLCache] whose [getsizeof] is the default (every item has
    size 1, so [currsize] is the number of items).
    - [data] is the item dict, kept in the key order of the library's
      [__links] ordered dict: least recently used first;
    - [ring] is the library's linked list of links from [root.next]:
      keys with their expiry time (a float), oldest write first. *)
Record TTLCache := {
  maxsize : nat;
  ttl : Q;
  data : list (pystr * pystr);
  ring : list (pystr * Q)
}.

Definition currsize (c : TTLCache) : nat := List.length (data c).

Definition set_data (f : list (pystr * pystr) -> list (pystr * pystr))
    (c : TTLCache) : TTLCache :=
  {| maxsize := maxsize c; ttl := ttl c; data := f (data c); ring := ring c |}.

Definition set_ring (f : list (pystr * Q) -> list (pystr * Q))
    (c : TTLCache) : TTLCache :=
  {| maxsize := maxsize c; ttl := ttl c; data := data c; ring := f (ring c) |}.

(** [TTLCache(maxsize, ttl)] *)
Definition TTLCache_init (maxsize : nat) (ttl : Q) : TTLCache :=
  {| maxsize := maxsize; ttl := ttl; data := []; ring := [] |}.

Section Methods.

(** The body of each [try] block of [ThreadCache] is the release hook of
    the removed thread; [hook_raises tid] is the exception it raises for
    the handle [tid], if any. *)
Variable hook_raises : pystr -> option exn.

(** Every method runs with the cache timer frozen at [time]. *)
Variable time : Q.

(** [Cache.__getitem__]; a miss goes to [__missing__], which raises. *)
Definition Cache_getitem (key : pystr) : M TTLCache pystr :=
  c <- get ;;
  match assoc key (data c) with
  | Some v => ret v
  | None => raise (KeyError key)
  end.

(** [Cache.__delitem__] *)
Definition Cache_delitem (key : pystr) : M TTLCache unit :=
  c <- get ;;
  match assoc key (data c) with
  | Some _ => modify (set_data (remove_key key))
  | None => raise (KeyError key)
  end.

(** [TTLCache.__contains__]: present and not expired; no reordering. *)
Definition TTLCache_contains (key : pystr) : M TTLCache bool :=
  c <- get ;;
  match assoc key (ring c) with
  | Some expires => ret (Qltb time expires)
  | None => ret false
  end.

(** [TTLCache.__getitem__]: the link is moved to the recent end, then the
    expiry is checked. *)
Definition TTLCache_getitem (key : pystr) : M TTLCache pystr :=
  c <- get ;;
  match assoc key (ring c) with
  | Some expires =>
      modify (set_data (move_to_end key)) ;;;
      if Qltb time expires then Cache_getitem key else raise (KeyError key)
  | None => Cache_getitem key
  end.

(** [TTLCache.get]: [Cache.get] under the frozen timer.  It does not call
    [expire]. *)
Definition TTLCache_get (key : pystr) : M TTLCache (option pystr) :=
  present <- TTLCache_contains key ;;
  if present then v <- TTLCache_getitem key ;; ret (Some v) else ret None.

(** [TTLCache.__delitem__] *)
Definition TTLCache_delitem (key : pystr) : M TTLCache unit :=
  Cache_delitem key ;;;
  c <- get ;;
  match assoc key (ring c) with
  | Some expires =>
      modify (set_ring (remove_key key)) ;;;
      if Qltb time expires then ret tt else raise (KeyError key)
  | None => raise (KeyError key)
  end.

(** [Cache.pop(key)] without a default. *)
Definition Cache_pop (key : pystr) : M TTLCache pystr :=
  present <- TTLCache_contains key ;;
  if present then
    v <- TTLCache_getitem key ;;
    TTLCache_delitem key ;;;
    ret v
  else raise (KeyError key).

(** The loop of [TTLCache.expire] from the link [r] on: it stops at the
    first link that has not expired. *)
Fixpoint expire_links (r : list (pystr * Q))
    : M TTLCache (list (pystr * pystr)) :=
  match r with
  | [] => ret []
  | (key, expires) :: r' =>
      if Qltb time expires then ret []
      else
        v <- Cache_getitem key ;;
        Cache_delitem key ;;;
        modify (set_ring (fun _ => r')) ;;;
        rest <- expire_links r' ;;
        ret ((key, v) :: rest)
  end.

(** [TTLCache.expire(time)]: removes the expired items and returns them. *)
Definition TTLCache_expire : M TTLCache (list (pystr * pystr)) :=
  c <- get ;;
  expire_links (ring c).

(** The [for] loop of [ThreadCache.expire]. *)
Fixpoint log_expired (items : list (pystr * pystr)) : M TTLCache unit :=
  match items with
  | [] => ret tt
  | (_, thread_id) :: items' =>
      try_except
        (match hook_raises thread_id with
         | None => emit (Info (LogExpired thread_id))
         | Some e => raise e
         end)
        (fun e => emit (Error (LogExpireError thread_id e))) ;;;
      log_expired items'
  end.

(** [ThreadCache.expire] *)
Definition ThreadCache_expire : M TTLCache (list (pystr * pystr)) :=
  items <- TTLCache_expire ;;
  log_expired items ;;;
  ret items.

(** [TTLCache.popitem]; [self.expire] is [ThreadCache.expire]. *)
Definition TTLCache_popitem : M TTLCache (pystr * pystr) :=
  ThreadCache_expire ;;;
  c <- get ;;
  match data c with
  | [] => raise (KeyError (cps "ThreadCache is empty"))
  | (key, _) :: _ =>
      v <- Cache_pop key ;;
      ret (key, v)
  end.

(** [ThreadCache.popitem] *)
Definition ThreadCache_popitem : M TTLCache (pystr * pystr) :=
  kv <- TTLCache_popitem ;;
  try_except
    (match hook_raises (snd kv) with
     | None => emit (Info (LogEvicted (snd kv)))
     | Some e => raise e
     end)
    (fun e => emit (Error (LogEvictError (snd kv) e))) ;;;
  ret kv.

(** [while self.__currsize + size > maxsize: self.popitem()] with
    [size = 1]; [self.popitem] is [ThreadCache.popitem].  [fuel] bounds
    the number of iterations: every [popitem] that returns removes an
    item, so the current size is enough ([make_room_quiet]). *)
Fixpoint make_room (fuel : nat) : M TTLCache unit :=
  c <- get ;;
  if (maxsize c <? currsize c + 1)%nat then
    match fuel with
    | O => out_fuel
    | S fuel' => ThreadCache_popitem ;;; make_room fuel'
    end
  else ret tt.

(** [Cache.__setitem__] *)
Definition Cache_setitem (key value : pystr) : M TTLCache unit :=
  c <- get ;;
  if (maxsize c <? 1)%nat then raise (ValueError (cps "value too large"))
  else
    (match assoc key (data c) with
     | None => make_room (currsize c)
     | Some _ => ret tt
     end) ;;;
    modify (set_data (set_assoc key value)).

(** [TTLCache.__setitem__]; [self.expire] is [ThreadCache.expire]. *)
Definition TTLCache_setitem (key value : pystr) : M TTLCache unit :=
  ThreadCache_expire ;;;
  Cache_setitem key value ;;;
  c <- get ;;
  modify (set_data (move_to_end key)) ;;;
  modify (set_ring
            (fun r => remove_key key r ++ [(key, Float.add time (ttl c))])).

End Methods.

(** [ThreadCache(maxsize=1000, ttl=3600.0)] *)
Definition ThreadCache_init : TTLCache := TTLCache_init 1000 3600.

End Cache.
Import Cache.

(* ===================================================================== *)
(** ** [SimpleFoundryOrchestrator] *)
(* ===================================================================== *)

Module Orchestrator.

Definition ProductLookupAgent : pystr := cps "ProductLookupAgent".
Definition OrderStatusAgent : pystr := cps "OrderStatusAgent".
Definition KnowledgeAgent : pystr := cps "KnowledgeAgent".

Definition product_patterns : list regex := [
  bounded (words (cps "paint") (map cps
    ["color"; "blue"; "red"; "green"; "white"; "black"; "shade"; "tone";
     "finish"]%string));
  bounded (words (cps "product") (map cps
    ["item"; "buy"; "purchase"; "price"; "cost"]%string));
  bounded (Alt (gap "what" "offer")
          (Alt (gap "show" "product") (gap "find" "paint")));
  bounded (Alt (gap "match" "color")
          (Alt (gap "color" "match") (Str (cps "sample"))));
  bounded (Alt (Str (cps "recommend"))
          (Alt (Str (cps "suggest")) (gap "help" "choose")));
  bounded (words (cps "interior") (map cps
    ["exterior"; "primer"; "coating"]%string))
].

Definition policy_patterns : list regex := [
  bounded (words (cps "return") (map cps
    ["refund"; "exchange"; "policy"; "warranty"]%string));
  bounded (words (cps "problem") (map cps
    ["issue"; "complaint"; "damaged"; "leaking"]%string));
  bounded (words (cps "ship") (map cps
    ["delivery"; "shipping"; "track"]%string));
  bounded (words (cps "help") (map cps
    ["support"; "contact"; "customer service"]%string));
  bounded (words (cps "guarantee") (map cps
    ["coverage"; "defect"]%string));
  bounded (Alt (Str (cps "cancel"))
          (Alt (gap "order" "status") (Str (cps "tracking"))))
].

Definition product_phrases : list pystr :=
  map cps ["what products"; "what do you offer"; "show me products"]%string.

Definition policy_phrases : list pystr :=
  map cps ["return policy"; "warranty"; "refund"; "damaged"]%string.

(** [sum(1 for pattern in patterns if re.search(pattern, query_lower))] *)
Definition score (U : unicode) (patterns : list regex) (query_lower : pystr)
    : nat :=
  List.length (filter (fun pattern => search U pattern query_lower) patterns).

(** [any(phrase in query_lower for phrase in phrases)] *)
Definition any_phrase (phrases : list pystr) (query_lower : pystr) : bool :=
  existsb (fun phrase => contains query_lower phrase) phrases.

(** [_determine_target_agent]: the line it logs and the name it returns. *)
Definition _determine_target_agent (U : unicode) (user_text : pystr)
    : log_line * pystr :=
  let query_lower := str_lower U user_text in
  let product_score := score U product_patterns query_lower in
  let policy_score := score U policy_patterns query_lower in
  if any_phrase product_phrases query_lower then
    (LogRouteGeneralProduct, ProductLookupAgent)
  else if any_phrase policy_phrases query_lower then
    (LogRoutePolicy, KnowledgeAgent)
  else if (policy_score <? product_score)%nat then
    (LogRouteProductScore product_score, ProductLookupAgent)
  else if (0 <? policy_score)%nat then
    (LogRoutePolicyScore policy_score, KnowledgeAgent)
  else
    (LogRouteDefault, ProductLookupAgent).

(** Values stored in the dict [respond] returns. *)
Inductive pyval :=
| VStr (s : pystr)
| VBool (b : bool)
| VList (l : list pystr).

(** A [Dict[str, Any]] with literal keys, in insertion order. *)
Definition pydict := list (string * pyval).

Fixpoint dict_get (k : string) (d : pydict) : option pyval :=
  match d with
  | [] => None
  | (k', v) :: d' => if String.eqb k k' then Some v else dict_get k d'
  end.

Record SimpleFoundryOrchestrator := {
  agents : list (pystr * AzureAIAgent);
  is_configured : bool;
  thread_cache : TTLCache
}.

Definition set_thread_cache (c : TTLCache) (self : SimpleFoundryOrchestrator)
    : SimpleFoundryOrchestrator :=
  {| agents := agents self; is_configured := is_configured self;
     thread_cache := c |}.

(** [SimpleFoundryOrchestrator.__init__], given [has_foundry_config()]. *)
Definition init (has_foundry_config : bool) : SimpleFoundryOrchestrator :=
  {| agents := []; is_configured := has_foundry_config;
     thread_cache := ThreadCache_init |}.

(** One item yielded by [agent.invoke]: its [content] and [thread.id] when
    the attribute is present and true, and the reading of the cache timer
    at the moment the item is handled. *)
Record message := {
  content : option pystr;
  thread : option pystr;
  arrival : Q
}.

(** What the iteration over the async generator does: the items it
    yields, then what the next [await] raises, if the generator does not
    simply stop: an exception of the agent, or the cancellation of the
    task. *)
Definition stream : Type := list message * option raised.

(** [str(e)] *)
Definition exn_str (U : unicode) (e : exn) : pystr :=
  match e with
  | KeyError arg => repr U arg
  | ValueError msg => msg
  | Exception msg => msg
  end.

Section Respond.

Variable U : unicode.
Variable hook_raises : pystr -> option exn.

(** [agent.invoke(messages=user_text, thread=thread)] *)
Variable invoke : AzureAIAgent -> pystr -> option pystr -> stream.

(** Reading of the cache timer at the lookup. *)
Variable now : Q.

Definition on_cache {A} (m : M TTLCache A)
    : M SimpleFoundryOrchestrator A :=
  zoom thread_cache set_thread_cache m.

(** [f"{conversation_id}_{target_agent_name}"] *)
Definition cache_key (conversation_id target_agent_name : pystr) : pystr :=
  conversation_id ++ cps "_" ++ target_agent_name.

(** Truth value of [conversation_id: Optional[str]]. *)
Definition conv_true (conversation_id : option pystr) : option pystr :=
  match conversation_id with
  | Some cid => if truthy cid then Some cid else None
  | None => None
  end.

(** Lines 230-236: the cached thread to resume, if any. *)
Definition lookup_thread (conversation_id : option pystr)
    (target_agent_name : pystr)
    : M SimpleFoundryOrchestrator (option pystr) :=
  match conv_true conversation_id with
  | Some cid =>
      emit (CacheGet (cache_key cid target_agent_name)) ;;;
      thread_id <- on_cache (TTLCache_get now (cache_key cid target_agent_name)) ;;
      match thread_id with
      | Some tid =>
          if truthy tid then emit (Info (LogReusing tid)) ;;; ret (Some tid)
          else ret None
      | None => ret None
      end
  | None => ret None
  end.

(** The body of the [async for] loop over the yielded items. *)
Fixpoint drain (conversation_id : option pystr) (target_agent_name : pystr)
    (items : list message) (response_content : pystr)
    : M SimpleFoundryOrchestrator pystr :=
  match items with
  | [] => ret response_content
  | m :: items' =>
      let response_content' :=
        match content m with
        | Some c => if truthy c then response_content ++ c else response_content
        | None => response_content
        end in
      (match conv_true conversation_id, thread m with
       | Some cid, Some tid =>
           emit (CacheSet (cache_key cid target_agent_name) tid) ;;;
           on_cache (TTLCache_setitem hook_raises (arrival m)
                       (cache_key cid target_agent_name) tid)
       | _, _ => ret tt
       end) ;;;
      drain conversation_id target_agent_name items' response_content'
  end.

Definition error_response (error text : pystr) : pydict :=
  [("error"%string, VStr error); ("text"%string, VStr text)].

(** [respond(user_text, conversation_id)] *)
Definition respond (user_text : pystr) (conversation_id : option pystr)
    : M SimpleFoundryOrchestrator pydict :=
  self <- get ;;
  if negb (is_configured self) then
    emit (Error LogNotConfigured) ;;;
    ret (error_response
           (cps "Simple Foundry orchestrator not configured")
           (cps "I'm sorry, the AI service is not properly configured."))
  else
    try_except
      (let (line, target_agent_name) := _determine_target_agent U user_text in
       emit (Info line) ;;;
       match assoc target_agent_name (agents self) with
       | None =>
           emit (Error (LogAgentUnavailable target_agent_name)) ;;;
           ret (error_response
                  (cps "Agent " ++ target_agent_name ++ cps " not available")
                  (cps "I'm sorry, the " ++ target_agent_name
                     ++ cps " is not currently available."))
       | Some agent =>
           emit (Info (LogUsing target_agent_name (firstn 50 user_text))) ;;;
           thread <- lookup_thread conversation_id target_agent_name ;;
           emit (Invoke agent user_text thread) ;;;
           response_content <-
             drain conversation_id target_agent_name
               (fst (invoke agent user_text thread)) [] ;;
           match snd (invoke agent user_text thread) with
           | Some (Exc e) => raise e
           | Some (Base b) => escape b
           | None =>
               if truthy response_content then
                 emit (Info (LogResponseLength target_agent_name
                               (List.length response_content))) ;;;
                 ret [("messages"%string, VList [response_content]);
                      ("awaiting_user"%string,
                       VBool (endswith (strip U response_content) (cps "?")));
                      ("text"%string, VStr response_content)]
               else
                 emit (Error (LogNoResponse target_agent_name)) ;;;
                 ret (error_response
                        (cps "No response from agent")
                        (cps "I'm sorry, I couldn't get a response from the agent."))
           end
       end)
      (fun e =>
         emit (Error (LogFailure e)) ;;;
         ret (error_response
                (cps "Failed to generate response: " ++ exn_str U e)
                (cps "I'm sorry, I encountered an error trying to process your request.")))
  .

End Respond.

End Orchestrator.
Import Orchestrator.

(* ===================================================================== *)
(** ** [SimpleFoundryOrchestrator.create] and the module-level instance *)
(* ===================================================================== *)

Module Startup.

(** The fields of [settings] that [create] reads. *)
Record Settings := {
  azure_foundry_endpoint : option pystr;
  foundry_product_agent_id : option pystr;
  foundry_order_agent_id : option pystr;
  foundry_knowledge_agent_id : option pystr
}.

(** What the functions imported from [config] and [foundry_client] and the
    Foundry service do during one start-up: the value of
    [has_foundry_config()], and what is raised, if anything, by
    [init_foundry_client()], by [get_foundry_client()] (the same at each
    of its calls) and by [client.agents.get_agent(agent_id)]: an
    exception, or the cancellation of the task at the [await].
    [has_foundry_config()] and the constructors of the cache, of the
    plugins and of [AzureAIAgent] are taken to return. *)
Record Foundry := {
  has_foundry_config : bool;
  init_foundry_client_raises : option raised;
  get_foundry_client_raises : option raised;
  get_agent_raises : pystr -> option raised
}.

(** The lines [__init__], [create] and the two builders log, one
    constructor per call of [logger]. *)
Inductive startup_line :=
| LineNotConfigured
| LineWillNotInitialize
| LineInitializing
| LineEndpoint (endpoint : option pystr)
| LineProductId (agent_id : option pystr)
| LineOrderId (agent_id : option pystr)
| LineKnowledgeId (agent_id : option pystr)
| LineInitClient
| LineClientReady
| LineBuilding (name : pystr)
| LineBuilt (name : pystr) (plugins : nat)
| LineAdded (name : pystr)
| LineNoId (name : pystr)
| LineNoAgents
| LineReady (agents : nat)
| LineFailed (e : exn)
| LineResolveError (agent_id : pystr) (e : exn).

(** Events of a start-up, in program order: log lines and the three
    kinds of call out of the module. *)
Inductive startup_event :=
| StartInfo (l : startup_line)
| StartWarning (l : startup_line)
| StartError (l : startup_line)
| InitClient
| GetClient
| GetAgent (agent_id : pystr).

(** State, trace and outcome, as [Eff.M] with the start-up events. *)
Definition K (S A : Type) : Type := S -> S * list startup_event * outcome A.

Definition kret {S A} (a : A) : K S A := fun s => (s, [], Returns a).

Definition kbind {S A B} (m : K S A) (f : A -> K S B) : K S B :=
  fun s =>
    match m s with
    | (s1, tr1, Returns a) =>
        match f a s1 with
        | (s2, tr2, r) => (s2, tr1 ++ tr2, r)
        end
    | (s1, tr1, Raises e) => (s1, tr1, Raises e)
    | (s1, tr1, Escapes b) => (s1, tr1, Escapes b)
    | (s1, tr1, OutOfFuel) => (s1, tr1, OutOfFuel)
    end.

Definition kraise {S A} (e : exn) : K S A := fun s => (s, [], Raises e).

Definition kescape {S A} (b : base_exn) : K S A :=
  fun s => (s, [], Escapes b).

Definition kemit {S} (ev : startup_event) : K S unit :=
  fun s => (s, [ev], Returns tt).

Definition kget {S} : K S S := fun s => (s, [], Returns s).

Definition kmodify {S} (f : S -> S) : K S unit :=
  fun s => (f s, [], Returns tt).

(** [try: m  except Exception as e: h e]; an exception that is not an
    instance of [Exception] passes through. *)
Definition ktry {S A} (m : K S A) (h : exn -> K S A) : K S A :=
  fun s =>
    match m s with
    | (s1, tr1, Raises e) =>
        match h e s1 with
        | (s2, tr2, r) => (s2, tr1 ++ tr2, r)
        end
    | other => other
    end.

(** A call out of the module, which raises or returns. *)
Definition call {S} (ev : startup_event) (raises : option raised)
    : K S unit :=
  kbind (kemit ev)
    (fun _ => match raises with
              | Some (Exc e) => kraise e
              | Some (Base b) => kescape b
              | None => kret tt
              end).

Declare Scope startup_scope.
Delimit Scope startup_scope with startup.
Notation "x <- m ;; k" := (kbind m (fun x => k))
  (at level 61, m at next level, right associativity) : startup_scope.
Notation "m ;;; k" := (kbind m (fun _ => k))
  (at level 61, right associativity) : startup_scope.
Local Open Scope startup_scope.

Definition set_agents
    (f : list (pystr * AzureAIAgent) -> list (pystr * AzureAIAgent))
    (self : SimpleFoundryOrchestrator) : SimpleFoundryOrchestrator :=
  {| agents := f (agents self); is_configured := is_configured self;
     thread_cache := thread_cache self |}.

Definition set_is_configured (b : bool) (self : SimpleFoundryOrchestrator)
    : SimpleFoundryOrchestrator :=
  {| agents := agents self; is_configured := b;
     thread_cache := thread_cache self |}.

Section Create.
Variable settings : Settings.
Variable F : Foundry.

(** [_resolve_foundry_agent_definition]: the client is fetched outside the
    [try]; a failure of [get_agent] is logged and raised again. *)
Definition _resolve_foundry_agent_definition {S} (agent_id : pystr)
    : K S unit :=
  call GetClient (get_foundry_client_raises F) ;;;
  ktry (call (GetAgent agent_id) (get_agent_raises F agent_id))
       (fun e => kemit (StartError (LineResolveError agent_id e)) ;;;
                 kraise e).

(** [_build_foundry_agent]; the agent is known by its name and the id its
    definition was resolved from. *)
Definition _build_foundry_agent {S} (agent_id name : pystr) (plugins : nat)
    : K S AzureAIAgent :=
  _resolve_foundry_agent_definition agent_id ;;;
  call GetClient (get_foundry_client_raises F) ;;;
  kemit (StartInfo (LineBuilt name plugins)) ;;;
  kret {| agent_name := name; agent_id := agent_id |}.

(** One of the three [if settings.foundry_..._agent_id:] blocks; the test
    is the truth value of an [Optional[str]], as for a conversation id. *)
Definition add_agent (agent_id : option pystr) (name : pystr)
    : K SimpleFoundryOrchestrator unit :=
  match conv_true agent_id with
  | Some id =>
      kemit (StartInfo (LineBuilding name)) ;;;
      agent <- _build_foundry_agent id name 1 ;;
      kmodify (set_agents (set_assoc name agent)) ;;;
      kemit (StartInfo (LineAdded name))
  | None => kemit (StartWarning (LineNoId name))
  end.

(** The body of [create] after [self = cls()]. *)
Definition create_steps : K SimpleFoundryOrchestrator unit :=
  self <- kget ;;
  if negb (is_configured self) then
    kemit (StartWarning LineWillNotInitialize)
  else
    ktry
      (kemit (StartInfo LineInitializing) ;;;
       kemit (StartInfo (LineEndpoint (azure_foundry_endpoint settings))) ;;;
       kemit (StartInfo (LineProductId (foundry_product_agent_id settings))) ;;;
       kemit (StartInfo (LineOrderId (foundry_order_agent_id settings))) ;;;
       kemit (StartInfo
                (LineKnowledgeId (foundry_knowledge_agent_id settings))) ;;;
       kemit (StartInfo LineInitClient) ;;;
       call InitClient (init_foundry_client_raises F) ;;;
       kemit (StartInfo LineClientReady) ;;;
       add_agent (foundry_product_agent_id settings) ProductLookupAgent ;;;
       add_agent (foundry_order_agent_id settings) OrderStatusAgent ;;;
       add_agent (foundry_knowledge_agent_id settings) KnowledgeAgent ;;;
       self' <- kget ;;
       match agents self' with
       | [] =>
           kemit (StartError LineNoAgents) ;;;
           kmodify (set_is_configured false)
       | _ :: _ =>
           kemit (StartInfo (LineReady (List.length (agents self'))))
       end)
      (fun e =>
         kemit (StartError (LineFailed e)) ;;;
         kmodify (set_is_configured false)).

(** [SimpleFoundryOrchestrator.__init__]: the line it logs and the new
    object. *)
Definition __init__ : list startup_event * SimpleFoundryOrchestrator :=
  (if negb (has_foundry_config F) then [StartWarning LineNotConfigured]
   else [],
   init (has_foundry_config F)).

(** [SimpleFoundryOrchestrator.create()]: the events of the start-up and
    the orchestrator returned, which is the object [cls()] made, as the
    steps left it. *)
Definition create : list startup_event * outcome SimpleFoundryOrchestrator :=
  match create_steps (snd __init__) with
  | (self, tr, Returns _) => (fst __init__ ++ tr, Returns self)
  | (_, tr, Raises e) => (fst __init__ ++ tr, Raises e)
  | (_, tr, Escapes b) => (fst __init__ ++ tr, Escapes b)
  | (_, tr, OutOfFuel) => (fst __init__ ++ tr, OutOfFuel)
  end.

(** [await SimpleFoundryOrchestrator.create()] inside a function whose
    state is the module variable: the variable is not touched. *)
Definition await_create
    : K (option SimpleFoundryOrchestrator) SimpleFoundryOrchestrator :=
  fun s => (s, fst create, snd create).

(** [get_simple_foundry_orchestrator()] from the moment [create] has
    returned [self]: the assignment to the module variable and the
    [return] of what the variable holds. *)
Definition assign_instance (self : SimpleFoundryOrchestrator)
    : K (option SimpleFoundryOrchestrator) SimpleFoundryOrchestrator :=
  kmodify (fun _ => Some self) ;;;
  kret self.

(** [get_simple_foundry_orchestrator()] when no other call of it runs
    between its test of the module variable
    [_simple_foundry_orchestrator_instance] and its assignment. *)
Definition get_simple_foundry_orchestrator
    : K (option SimpleFoundryOrchestrator) SimpleFoundryOrchestrator :=
  instance <- kget ;;
  match instance with
  | Some self => kret self
  | None => self <- await_create ;; assign_instance self
  end.

End Create.

(** Two calls of [get_simple_foundry_orchestrator()] that overlap: the
    first is suspended in [create], at the [await] of
    [init_foundry_client], when the second tests the module variable; the
    first then runs to its end, and after it the second.  The settings and
    the service may differ between the two start-ups.  The result is what
    the two calls return. *)
Definition overlapping_calls (S1 : Settings) (F1 : Foundry)
    (S2 : Settings) (F2 : Foundry)
    : K (option SimpleFoundryOrchestrator)
        (SimpleFoundryOrchestrator * SimpleFoundryOrchestrator) :=
  instance1 <- kget ;;
  instance2 <- kget ;;
  self1 <- (match instance1 with
            | Some self => kret self
            | None => self <- await_create S1 F1 ;; assign_instance self
            end) ;;
  self2 <- (match instance2 with
            | Some self => kret self
            | None => self <- await_create S2 F2 ;; assign_instance self
            end) ;;
  kret (self1, self2).

End Startup.
Import Startup.

(* ===================================================================== *)
(** ** Invariants and specifications used in the statements *)
(* ===================================================================== *)

(** [sub] occurs in [s]. *)
Definition substring (sub s : pystr) : Prop :=
  exists pre post, s = pre ++ sub ++ post.

(** The name [_determine_target_agent] returns for [user_text]. *)
Definition routed (U : unicode) (user_text : pystr) : pystr :=
  snd (_determine_target_agent U user_text).

Definition keys {V} (l : list (pystr * V)) : list pystr := map fst l.

(** The link [ke] has not expired at [time]. *)
Definition is_live (time : Q) (ke : pystr * Q) : bool := Qltb time (snd ke).

(** [key] has a link in [r] that has not expired at [time]. *)
Definition live_key (time : Q) (r : list (pystr * Q)) (key : pystr) : bool :=
  match assoc key r with
  | Some expires => Qltb time expires
  | None => false
  end.

(** The items of [d] whose keys are listed in [r], in the order of [r]. *)
Definition items_of (d : list (pystr * pystr)) (r : list (pystr * Q))
    : list (pystr * pystr) :=
  flat_map (fun ke => match assoc (fst ke) d with
                      | Some v => [(fst ke, v)]
                      | None => []
                      end) r.

(** The items a cache operation at [time] finds expired, oldest first. *)
Definition expired_items (time : Q) (c : TTLCache) : list (pystr * pystr) :=
  items_of (data c) (filter (fun ke => negb (is_live time ke)) (ring c)).

(** The cache once the items expired at [time] are gone. *)
Definition purged (time : Q) (c : TTLCache) : TTLCache :=
  {| maxsize := maxsize c; ttl := ttl c;
     data := filter (fun kv => live_key time (ring c) (fst kv)) (data c);
     ring := filter (is_live time) (ring c) |}.

(** Representation invariant of the cache: the item dict and the links
    have the same keys, each once; links are in order of expiry; the size
    bound holds. *)
Record wf (c : TTLCache) : Prop := {
  wf_data : NoDup (keys (data c));
  wf_ring : NoDup (keys (ring c));
  wf_keys : forall k, In k (keys (data c)) <-> In k (keys (ring c));
  wf_sorted : StronglySorted Qle (map snd (ring c));
  wf_size : (currsize c <= maxsize c)%nat;
  wf_maxsize : (1 <= maxsize c)%nat
}.

(** Every link was written at or before [time]: the clock is monotonic. *)
Definition written_by (time : Q) (c : TTLCache) : Prop :=
  Forall (fun ke => snd ke <= Float.add time (ttl c)) (ring c).

(** The cache after [cache.get(key)] at [time]: a hit moves the item to
    the recent end. *)
Definition get_state (time : Q) (key : pystr) (c : TTLCache) : TTLCache :=
  if live_key time (ring c) key then set_data (move_to_end key) c else c.

(** The item a write of the new key [key] evicts from the purged cache
    [c]: the first one, when the cache is full. *)
Definition evicted (key : pystr) (c : TTLCache) : list (pystr * pystr) :=
  match assoc key (data c) with
  | Some _ => []
  | None => if (maxsize c <? currsize c + 1)%nat then firstn 1 (data c) else []
  end.

Definition without (gone : list (pystr * pystr)) (c : TTLCache) : TTLCache :=
  match gone with
  | [] => c
  | (k, _) :: _ =>
      {| maxsize := maxsize c; ttl := ttl c;
         data := remove_key k (data c); ring := remove_key k (ring c) |}
  end.

(** The cache after [cache[key] = value] at [time]. *)
Definition put_result (time : Q) (key value : pystr) (c : TTLCache)
    : TTLCache :=
  let c' := without (evicted key (purged time c)) (purged time c) in
  {| maxsize := maxsize c; ttl := ttl c;
     data := remove_key key (data c') ++ [(key, value)];
     ring := remove_key key (ring c') ++ [(key, Float.add time (ttl c))] |}.

(** The states of the orchestrator's cache at clock reading [time]:
    well-formed, written in the past, with the parameters of
    [ThreadCache(maxsize=1000, ttl=3600.0)]. *)
Definition ThreadCache_inv (time : Q) (c : TTLCache) : Prop :=
  wf c /\ written_by time c /\ maxsize c = 1000%nat /\ ttl c = 3600.

(** What the release hook leaves in the log for the handle [thread_id]:
    its own line, or the error line of the handler when it raised. *)
Definition expire_event (hook_raises : pystr -> option exn)
    (thread_id : pystr) : event :=
  match hook_raises thread_id with
  | None => Info (LogExpired thread_id)
  | Some e => Error (LogExpireError thread_id e)
  end.

Definition evict_event (hook_raises : pystr -> option exn)
    (thread_id : pystr) : event :=
  match hook_raises thread_id with
  | None => Info (LogEvicted thread_id)
  | Some e => Error (LogEvictError thread_id e)
  end.

(** The character before the position reached after reading [s], which
    starts after [prev]. *)
Definition last_char (prev : option N) (s : pystr) : option N :=
  fold_left (fun _ c => Some c) s prev.




(** [n] writes under distinct one-character keys, all at [time]; the
    handle of a key is the key. *)
Fixpoint fill (hook_raises : pystr -> option exn) (time : Q) (n : nat)
    : M TTLCache unit :=
  match n with
  | O => ret tt
  | S n' =>
      fill hook_raises time n' ;;;
      TTLCache_setitem hook_raises time [N.of_nat n'] [N.of_nat n']
  end.

(** Log lines, as opposed to calls out of the module. *)
Definition is_log (ev : event) : bool :=
  match ev with
  | Info _ | Error _ => true
  | _ => false
  end.

Definition is_invoke (ev : event) : bool :=
  match ev with
  | Invoke _ _ _ => true
  | _ => false
  end.

(** The agent invocations of a trace. *)
Definition invocations (tr : list event) : list event := filter is_invoke tr.

Definition is_cache_access (ev : event) : bool :=
  match ev with
  | CacheGet _ | CacheSet _ _ => true
  | _ => false
  end.

Definition is_routing_log (ev : event) : bool :=
  match ev with
  | Info LogRouteGeneralProduct | Info LogRoutePolicy
  | Info (LogRouteProductScore _) | Info (LogRoutePolicyScore _)
  | Info LogRouteDefault => true
  | _ => false
  end.

(** The text one yielded item contributes. *)
Definition fragment (m : message) : pystr :=
  match content m with
  | Some c => c
  | None => []
  end.

(** The fragments of a stream, concatenated in arrival order. *)
Definition response_text (items : list message) : pystr :=
  List.concat (map fragment items).

(** The cache after the thread handles of [items] are written under
    [key]. *)
Fixpoint drained_cache (key : pystr) (items : list message) (c : TTLCache)
    : TTLCache :=
  match items with
  | [] => c
  | m :: items' =>
      drained_cache key items'
        (match thread m with
         | Some tid => put_result (arrival m) key tid c
         | None => c
         end)
  end.

(** The cache after the loop of [respond] over [items]. *)
Definition after_drain (conversation_id : option pystr) (target : pystr)
    (items : list message) (c : TTLCache) : TTLCache :=
  match conv_true conversation_id with
  | Some cid => drained_cache (cache_key cid target) items c
  | None => c
  end.

(** The thread [respond] resumes: the live, non-empty handle cached for
    the conversation and the agent. *)
Definition cached_thread (now : Q) (conversation_id : option pystr)
    (target_agent_name : pystr) (c : TTLCache) : option pystr :=
  match conv_true conversation_id with
  | Some cid =>
      if live_key now (ring c) (cache_key cid target_agent_name) then
        match assoc (cache_key cid target_agent_name) (data c) with
        | Some tid => if truthy tid then Some tid else None
        | None => None
        end
      else None
  | None => None
  end.

(** The cache after the lookup of [respond]. *)
Definition looked_up (now : Q) (conversation_id : option pystr)
    (target_agent_name : pystr) (c : TTLCache) : TTLCache :=
  match conv_true conversation_id with
  | Some cid => get_state now (cache_key cid target_agent_name) c
  | None => c
  end.

(** The cache timer never runs backwards during a call. *)
Definition clock_ok (now : Q) (items : list message) : Prop :=
  StronglySorted Qle (now :: map arrival items).

(** The two kinds of dict [respond] builds. *)
Definition success_response (U : unicode) (text : pystr) : pydict :=
  [("messages"%string, VList [text]);
   ("awaiting_user"%string, VBool (endswith (strip U text) (cps "?")));
   ("text"%string, VStr text)].

(** How a call that reached the agent ends, from what the stream did. *)
Definition answer (U : unicode) (st : stream) : outcome pydict :=
  match snd st with
  | Some (Exc e) =>
      Returns
        (error_response
           (cps "Failed to generate response: " ++ exn_str U e)
           (cps "I'm sorry, I encountered an error trying to process your request."))
  | Some (Base b) => Escapes b
  | None =>
      Returns
        (if truthy (response_text (fst st))
         then success_response U (response_text (fst st))
         else error_response (cps "No response from agent")
                (cps "I'm sorry, I couldn't get a response from the agent."))
  end.

Definition is_success (U : unicode) (d : pydict) : Prop :=
  exists text, text <> [] /\ d = success_response U text.

Definition is_error (d : pydict) : Prop :=
  exists error text, error <> [] /\ text <> []
    /\ d = error_response error text.

(** The [Response] shape as the specification words it: a string [text],
    a sequence [messages], a boolean [awaiting_user] and an optional
    string [error]. *)
Definition spec_Response_shape (d : pydict) : Prop :=
  (exists s, dict_get "text" d = Some (VStr s))
  /\ (exists l, dict_get "messages" d = Some (VList l))
  /\ (exists b, dict_get "awaiting_user" d = Some (VBool b))
  /\ (dict_get "error" d = None \/ exists e, dict_get "error" d = Some (VStr e)).

(** The call returns or raises an instance of [Exception]. *)
Definition finishes {A} (o : outcome A) : Prop :=
  match o with
  | Returns _ | Raises _ => True
  | Escapes _ | OutOfFuel => False
  end.

(** A cache method that never grows the cache, only logs and terminates. *)
Definition quiet {A} (m : M TTLCache A) : Prop :=
  forall c,
    maxsize (fst (fst (m c))) = maxsize c
    /\ (currsize (fst (fst (m c))) <= currsize c)%nat
    /\ forallb is_log (snd (fst (m c))) = true
    /\ finishes (snd (m c)).

(** A cache method that removes an item whenever it returns. *)
Definition strict {A} (m : M TTLCache A) : Prop :=
  forall c a, snd (m c) = Returns a ->
    (currsize (fst (fst (m c))) < currsize c)%nat.

(** What a step of [respond] may do before the final [return]: no
    invocation, no change of the registry, and it terminates. *)
Definition tame {A} (s : SimpleFoundryOrchestrator)
    (r : SimpleFoundryOrchestrator * list event * outcome A) : Prop :=
  forallb (fun ev => negb (is_invoke ev)) (snd (fst r)) = true
  /\ finishes (snd r)
  /\ agents (fst (fst r)) = agents s
  /\ is_configured (fst (fst r)) = is_configured s.

(** The three agents of [create], in the order it builds them, each with
    the setting that holds its id. *)
Definition agent_settings (S : Settings) : list (pystr * option pystr) :=
  [(ProductLookupAgent, foundry_product_agent_id S);
   (OrderStatusAgent, foundry_order_agent_id S);
   (KnowledgeAgent, foundry_knowledge_agent_id S)].

(** The names and ids of the agents whose id is set. *)
Definition wanted (S : Settings) : list (pystr * pystr) :=
  flat_map (fun ni => match conv_true (snd ni) with
                      | Some id => [(fst ni, id)]
                      | None => []
                      end) (agent_settings S).

(** [_build_foundry_agent] returns for [agent_id]. *)
Definition builds (F : Foundry) (agent_id : pystr) : bool :=
  match get_foundry_client_raises F, get_agent_raises F agent_id with
  | None, None => true
  | _, _ => false
  end.

(** The agents built before the first build that fails. *)
Fixpoint built_until_failure (F : Foundry) (l : list (pystr * pystr))
    : list (pystr * pystr) :=
  match l with
  | [] => []
  | ni :: l' =>
      if builds F (snd ni) then ni :: built_until_failure F l' else []
  end.

(** The configuration is present and the client was initialised. *)
Definition client_ready (F : Foundry) : bool :=
  has_foundry_config F
  && match init_foundry_client_raises F with
     | None => true
     | Some _ => false
     end.

Definition agent_of (ni : pystr * pystr) : pystr * AzureAIAgent :=
  (fst ni, {| agent_name := fst ni; agent_id := snd ni |}).

(** The registry [create] leaves. *)
Definition registered (S : Settings) (F : Foundry)
    : list (pystr * AzureAIAgent) :=
  if client_ready F then map agent_of (built_until_failure F (wanted S))
  else [].

(** The start-up succeeds: the client is ready, some agent id is set and
    every agent whose id is set is built. *)
Definition starts (S : Settings) (F : Foundry) : bool :=
  client_ready F
  && forallb (fun ni => builds F (snd ni)) (wanted S)
  && match wanted S with
     | [] => false
     | _ :: _ => true
     end.

(** The orchestrator [create] returns. *)
Definition created (S : Settings) (F : Foundry) : SimpleFoundryOrchestrator :=
  {| agents := registered S F; is_configured := starts S F;
     thread_cache := ThreadCache_init |}.

(** What ends the builds of [ids] before the last of them, if anything
    does: what the first call that raises raises. *)
Fixpoint build_raises (F : Foundry) (ids : list pystr) : option raised :=
  match ids with
  | [] => None
  | id :: ids' =>
      match get_foundry_client_raises F with
      | Some r => Some r
      | None =>
          match get_agent_raises F id with
          | Some r => Some r
          | None => build_raises F ids'
          end
      end
  end.

(** What the first call of a start-up that raises raises. *)
Definition startup_raises (S : Settings) (F : Foundry) : option raised :=
  if has_foundry_config F then
    match init_foundry_client_raises F with
    | Some r => Some r
    | None => build_raises F (map snd (wanted S))
    end
  else None.

(** How [create] ends: an exception that is not an instance of
    [Exception] passes through it; otherwise it returns. *)
Definition create_outcome (S : Settings) (F : Foundry)
    : outcome SimpleFoundryOrchestrator :=
  match startup_raises S F with
  | Some (Base b) => Escapes b
  | _ => Returns (created S F)
  end.

(** Calls out of the module, as opposed to log lines. *)
Definition is_call (ev : startup_event) : bool :=
  match ev with
  | InitClient | GetClient | GetAgent _ => true
  | _ => false
  end.

(** The calls of the builds of [ids], which stop at the first exception. *)
Fixpoint build_calls (F : Foundry) (ids : list pystr) : list startup_event :=
  match ids with
  | [] => []
  | id :: ids' =>
      match get_foundry_client_raises F with
      | Some _ => [GetClient]
      | None =>
          GetClient :: GetAgent id ::
          match get_agent_raises F id with
          | Some _ => []
          | None => GetClient :: build_calls F ids'
          end
      end
  end.

(** The calls of a start-up. *)
Definition startup_calls (S : Settings) (F : Foundry) : list startup_event :=
  if has_foundry_config F then
    InitClient ::
    match init_foundry_client_raises F with
    | Some _ => []
    | None => build_calls F (map snd (wanted S))
    end
  else [].

(** Calls of [get_simple_foundry_orchestrator()] one after the other,
    none overlapping another, each with the settings and the service of
    its time: the events of all of them and how each call ended. *)
Fixpoint get_instances (worlds : list (Settings * Foundry))
    (instance : option SimpleFoundryOrchestrator)
    : option SimpleFoundryOrchestrator * list startup_event
      * list (outcome SimpleFoundryOrchestrator) :=
  match worlds with
  | [] => (instance, [], [])
  | (settings, F) :: worlds' =>
      match get_simple_foundry_orchestrator settings F instance with
      | (instance', tr, o) =>
          match get_instances worlds' instance' with
          | (instance'', tr', os) => (instance'', tr ++ tr', o :: os)
          end
      end
  end.

(** The dict [respond] returns when the agent it picked is not
    registered. *)
Definition unavailable_response (target_agent_name : pystr) : pydict :=
  error_response
    (cps "Agent " ++ target_agent_name ++ cps " not available")
    (cps "I'm sorry, the " ++ target_agent_name
       ++ cps " is not currently available.").

(** The names [create] registers agents under. *)
Definition agent_names : list pystr :=
  [ProductLookupAgent; OrderStatusAgent; KnowledgeAgent].

(** What [c'] holds under [k] is what [c] held, or nothing. *)
Definition kept_or_dropped (k : pystr) (c c' : TTLCache) : Prop :=
  (assoc k (ring c') = assoc k (ring c) \/ assoc k (ring c') = None)
  /\ (assoc k (data c') = assoc k (data c) \/ assoc k (data c') = None).

(** The thread handles a stream yields, in order. *)
Definition yielded_threads (items : list message) : list pystr :=
  flat_map (fun m => match thread m with
                     | Some tid => [tid]
                     | None => []
                     end) items.

(** One request to the orchestrator: the arguments of [respond], the
    behaviour of the agent during the call, and the readings of the cache
    timer when the call starts and when it returns. *)
Record request := {
  req_text : pystr;
  req_conversation : option pystr;
  req_invoke : AzureAIAgent -> pystr -> option pystr -> stream;
  req_now : Q;
  req_end : Q
}.

(** Calls of [respond] on one orchestrator, one after the other, none
    overlapping another: the final state and how each call ended.  A call
    that raises leaves the orchestrator to the next call as it was at
    that point. *)
Fixpoint serve (U : unicode) (hook_raises : pystr -> option exn)
    (reqs : list request) (s : SimpleFoundryOrchestrator)
    : SimpleFoundryOrchestrator * list (outcome pydict) :=
  match reqs with
  | [] => (s, [])
  | r :: reqs' =>
      match respond U hook_raises (req_invoke r) (req_now r) (req_text r)
              (req_conversation r) s with
      | (s', _, o) =>
          (fst (serve U hook_raises reqs' s'),
           o :: snd (serve U hook_raises reqs' s'))
      end
  end.

(** The timer never runs backwards over the calls of [reqs], the first of
    which starts at or after [t0]. *)
Fixpoint timeline_ok (t0 : Q) (reqs : list request) : Prop :=
  match reqs with
  | [] => True
  | r :: reqs' =>
      (t0 <= req_now r)%Q
      /\ (req_now r <= req_end r)%Q
      /\ (forall agent th,
            clock_ok (req_now r) (fst (req_invoke r agent (req_text r) th))
            /\ forall m, In m (fst (req_invoke r agent (req_text r) th)) ->
                         (arrival m <= req_end r)%Q)
      /\ timeline_ok (req_end r) reqs'
  end.

(* ===================================================================== *)
(** * Properties *)
(* ===================================================================== *)

(* ===================================================================== *)
(** ** Float rounding is monotonic *)
(* ===================================================================== *)

Module FloatFacts.
Import Float.
Local Open Scope Q_scope.

Ltac compare_facts :=
  repeat match goal with
         | H : Qcompare _ _ = Eq |- _ => apply Qeq_alt in H
         | H : Qcompare _ _ = Lt |- _ => apply Qlt_alt in H
         | H : Qcompare _ _ = Gt |- _ => apply Qgt_alt in H
         end.

Lemma rhe_floor (q : Q) :
  (Qfloor q <= round_half_even q <= Qfloor q + 1)%Z.
Proof.
  unfold round_half_even.
  destruct (Qcompare (q - inject_Z (Qfloor q)) (1 # 2)); [destruct (Z.even _)| |]; lia.
Qed.

Lemma floor_frac (q : Q) :
  0 <= q - inject_Z (Qfloor q) /\ q - inject_Z (Qfloor q) < 1.
Proof.
  pose proof (Qfloor_le q) as H1. pose proof (Qlt_floor q) as H2.
  rewrite inject_Z_plus in H2.
  generalize dependent (inject_Z (Qfloor q)). intros f H1 H2.
  change (inject_Z 1) with 1 in H2. lra.
Qed.

Lemma rhe_mono (q q' : Q) : q <= q' -> (round_half_even q <= round_half_even q')%Z.
Proof.
  intros H. pose proof (Qfloor_resp_le _ _ H) as Hf.
  destruct (Z.eq_dec (Qfloor q) (Qfloor q')) as [E|E].
  - unfold round_half_even. rewrite <- E.
    destruct (Qcompare (q - inject_Z (Qfloor q)) (1 # 2)) eqn:C1;
      destruct (Qcompare (q' - inject_Z (Qfloor q)) (1 # 2)) eqn:C2;
      try (destruct (Z.even (Qfloor q))); try lia;
      exfalso; compare_facts; lra.
  - pose proof (rhe_floor q). pose proof (rhe_floor q'). lia.
Qed.

Lemma rhe_ge_int (n : Z) (q : Q) : inject_Z n <= q -> (n <= round_half_even q)%Z.
Proof.
  intros H. apply Qfloor_resp_le in H. rewrite Qfloor_Z in H.
  pose proof (rhe_floor q). lia.
Qed.

Lemma rhe_le_int (n : Z) (q : Q) : q <= inject_Z n -> (round_half_even q <= n)%Z.
Proof.
  intros H. destruct (Qlt_le_dec q (inject_Z n)) as [Hlt|Hge].
  - assert (Qfloor q < n)%Z.
    { pose proof (Qfloor_le q).
      assert (inject_Z (Qfloor q) < inject_Z n)
        by (eapply Qle_lt_trans; eassumption).
      rewrite <- Zlt_Qlt in H1. exact H1. }
    pose proof (rhe_floor q). lia.
  - assert (E : q == inject_Z n) by lra.
    unfold round_half_even.
    assert (Ef : Qfloor q = n).
    { rewrite (Qfloor_comp _ _ E). apply Qfloor_Z. }
    rewrite Ef.
    assert (C : Qcompare (q - inject_Z n) (1 # 2) = Lt).
    { apply Qlt_alt. rewrite E. unfold Qminus. rewrite Qplus_opp_r. reflexivity. }
    rewrite C. lia.
Qed.

Lemma two_pos (e : Z) : 0 < 2 ^ e.
Proof. apply Qpower_0_lt. reflexivity. Qed.

Lemma two_plus (a b : Z) : 2 ^ (a + b) == 2 ^ a * 2 ^ b.
Proof. apply Qpower_plus. discriminate. Qed.

Lemma two_le (a b : Z) : (a <= b)%Z -> 2 ^ a <= 2 ^ b.
Proof. intros H. apply Qpower_le_compat_l; [exact H|]. discriminate. Qed.

Lemma two_lt (a b : Z) : (a < b)%Z -> 2 ^ a < 2 ^ b.
Proof. intros H. apply Qpower_lt_compat_l; [exact H|]. reflexivity. Qed.

Lemma two_lt_inv (a b : Z) : 2 ^ a < 2 ^ b -> (a < b)%Z.
Proof. intros H. eapply Qpower_lt_compat_l_inv; [exact H|]. reflexivity. Qed.

Lemma two_inject (n : Z) : (0 <= n)%Z -> inject_Z (2 ^ n) == 2 ^ n.
Proof. intros H. apply (Zpower_Qpower 2 n H). Qed.

Lemma pos_num (x : Q) : 0 < x <-> (0 < Qnum x)%Z.
Proof. unfold Qlt. simpl. rewrite Z.mul_1_r. reflexivity. Qed.

(** [x = a / b] with [2^la <= a < 2^(la+1)] and [2^lb <= b < 2^(lb+1)]. *)
Lemma ilog2_spec (x : Q) :
  0 < x -> 2 ^ ilog2 x <= x /\ x < 2 ^ (ilog2 x + 1).
Proof.
  intros Hx. unfold ilog2.
  set (a := Qnum x) in *. set (b := Z.pos (Qden x)) in *.
  assert (Ha : (0 < a)%Z) by (apply pos_num; exact Hx).
  assert (Hb : (0 < b)%Z) by reflexivity.
  destruct (Z.log2_spec a Ha) as [Ha1 Ha2].
  destruct (Z.log2_spec b Hb) as [Hb1 Hb2].
  set (la := Z.log2 a) in *. set (lb := Z.log2 b) in *.
  assert (Hla : (0 <= la)%Z) by apply Z.log2_nonneg.
  assert (Hlb : (0 <= lb)%Z) by apply Z.log2_nonneg.
  assert (Ex : x == inject_Z a / inject_Z b).
  { unfold a, b. rewrite <- Qmake_Qdiv. destruct x; reflexivity. }
  assert (Hbq : 0 < inject_Z b).
  { change 0 with (inject_Z 0). rewrite <- Zlt_Qlt. exact Hb. }
  assert (Ea : x * inject_Z b == inject_Z a).
  { rewrite Ex. field. lra. }
  (* bounds in Q *)
  assert (Qa1 : 2 ^ la <= inject_Z a).
  { rewrite <- two_inject by exact Hla. rewrite <- Zle_Qle. exact Ha1. }
  assert (Qa2 : inject_Z a < 2 ^ (la + 1)).
  { rewrite <- two_inject by lia. rewrite <- Zlt_Qlt.
    replace (la + 1)%Z with (Z.succ la) by lia. exact Ha2. }
  assert (Qb1 : 2 ^ lb <= inject_Z b).
  { rewrite <- two_inject by exact Hlb. rewrite <- Zle_Qle. exact Hb1. }
  assert (Qb2 : inject_Z b < 2 ^ (lb + 1)).
  { rewrite <- two_inject by lia. rewrite <- Zlt_Qlt.
    replace (lb + 1)%Z with (Z.succ lb) by lia. exact Hb2. }
  (* x < 2^(la - lb + 1) and 2^(la - lb - 1) < x *)
  assert (Hup : x < 2 ^ (la - lb + 1)).
  { apply Qmult_lt_r with (z := 2 ^ lb); [apply two_pos|].
    rewrite <- two_plus. replace (la - lb + 1 + lb)%Z with (la + 1)%Z by lia.
    apply Qle_lt_trans with (y := x * inject_Z b); [|rewrite Ea; exact Qa2].
    apply Qmult_le_l; [exact Hx|exact Qb1]. }
  assert (Hlow : 2 ^ (la - lb - 1) < x).
  { apply Qmult_lt_r with (z := 2 ^ (lb + 1)); [apply two_pos|].
    rewrite <- two_plus.
    replace (la - lb - 1 + (lb + 1))%Z with la by lia.
    apply Qle_lt_trans with (y := x * inject_Z b); [rewrite Ea; exact Qa1|].
    apply Qmult_lt_l; [exact Hx|exact Qb2]. }
  destruct (Qle_bool (2 ^ (la - lb)) x) eqn:C.
  - apply Qle_bool_iff in C. split; [exact C|exact Hup].
  - assert (Hlt : x < 2 ^ (la - lb)).
    { apply Qnot_le_lt. intros H. apply Qle_bool_iff in H. congruence. }
    split; [apply Qlt_le_weak; exact Hlow|].
    replace (la - lb - 1 + 1)%Z with (la - lb)%Z by lia. exact Hlt.
Qed.

Lemma ilog2_mono (x y : Q) : 0 < x -> x <= y -> (ilog2 x <= ilog2 y)%Z.
Proof.
  intros Hx Hxy.
  assert (Hy : 0 < y) by lra.
  destruct (ilog2_spec Hx) as [H1 _]. destruct (ilog2_spec Hy) as [_ H2].
  assert (H : 2 ^ ilog2 x < 2 ^ (ilog2 y + 1)) by lra.
  apply two_lt_inv in H. lia.
Qed.

Lemma round_pos_eq (x : Q) :
  round_pos x
  == inject_Z (round_half_even (x * 2 ^ (52 - expo x))) * 2 ^ (expo x - 52).
Proof. unfold round_pos. apply Qred_correct. Qed.

Lemma round_pos_upper (x : Q) : 0 < x -> round_pos x <= 2 ^ (expo x + 1).
Proof.
  intros Hx. rewrite round_pos_eq.
  destruct (ilog2_spec Hx) as [_ H2].
  assert (He : (ilog2 x <= expo x)%Z) by (unfold expo; lia).
  assert (Hx2 : x < 2 ^ (expo x + 1)).
  { eapply Qlt_le_trans; [exact H2|]. apply two_le. lia. }
  assert (Hs : x * 2 ^ (52 - expo x) <= inject_Z (2 ^ 53)).
  { rewrite (@two_inject 53%Z) by lia.
    replace 53%Z with (expo x + 1 + (52 - expo x))%Z at 1 by lia.
    rewrite two_plus. apply Qmult_le_compat_r; [lra|].
    apply Qlt_le_weak, two_pos. }
  apply rhe_le_int in Hs.
  replace (expo x + 1)%Z with (53 + (expo x - 52))%Z by lia.
  rewrite two_plus. apply Qmult_le_compat_r; [|apply Qlt_le_weak, two_pos].
  rewrite <- (@two_inject 53%Z) by lia. rewrite <- Zle_Qle. exact Hs.
Qed.

Lemma round_pos_lower (x : Q) :
  0 < x -> (-1022 <= ilog2 x)%Z -> 2 ^ expo x <= round_pos x.
Proof.
  intros Hx Hn. rewrite round_pos_eq.
  destruct (ilog2_spec Hx) as [H1 _].
  assert (He : expo x = ilog2 x) by (unfold expo; lia).
  rewrite He.
  assert (Hs : inject_Z (2 ^ 52) <= x * 2 ^ (52 - ilog2 x)).
  { rewrite (@two_inject 52%Z) by lia.
    replace 52%Z with (ilog2 x + (52 - ilog2 x))%Z at 1 by lia.
    rewrite two_plus. apply Qmult_le_compat_r; [exact H1|].
    apply Qlt_le_weak, two_pos. }
  apply rhe_ge_int in Hs.
  replace (ilog2 x)%Z with (52 + (ilog2 x - 52))%Z at 1 by lia.
  rewrite two_plus. apply Qmult_le_compat_r; [|apply Qlt_le_weak, two_pos].
  rewrite <- (@two_inject 52%Z) by lia. rewrite <- Zle_Qle. exact Hs.
Qed.

Lemma round_pos_nonneg (x : Q) : 0 < x -> 0 <= round_pos x.
Proof.
  intros Hx. rewrite round_pos_eq.
  apply Qmult_le_0_compat; [|apply Qlt_le_weak, two_pos].
  change 0 with (inject_Z 0). rewrite <- Zle_Qle.
  apply rhe_ge_int. simpl.
  apply Qmult_le_0_compat; [lra|apply Qlt_le_weak, two_pos].
Qed.

Lemma round_pos_mono (x y : Q) :
  0 < x -> x <= y -> round_pos x <= round_pos y.
Proof.
  intros Hx Hxy. assert (Hy : 0 < y) by lra.
  pose proof (ilog2_mono Hx Hxy) as Hl.
  destruct (Z.eq_dec (expo x) (expo y)) as [E|E].
  - rewrite !round_pos_eq, E.
    apply Qmult_le_compat_r; [|apply Qlt_le_weak, two_pos].
    rewrite <- Zle_Qle. apply rhe_mono.
    apply Qmult_le_compat_r; [exact Hxy|apply Qlt_le_weak, two_pos].
  - assert (Hlt : (expo x < expo y)%Z) by (unfold expo in *; lia).
    assert (Hn : (-1022 <= ilog2 y)%Z) by (unfold expo in *; lia).
    eapply Qle_trans; [apply round_pos_upper; exact Hx|].
    eapply Qle_trans; [|apply round_pos_lower; assumption].
    apply two_le. lia.
Qed.

Lemma fl_pos (x : Q) : 0 < x -> fl x = round_pos x.
Proof.
  intros Hx. apply pos_num in Hx. unfold fl.
  destruct (Qnum x); [lia|reflexivity|lia].
Qed.

Lemma fl_neg (x : Q) : x < 0 -> fl x = - round_pos (- x).
Proof.
  intros Hx. unfold fl.
  assert (Qnum x < 0)%Z.
  { unfold Qlt in Hx. simpl in Hx. lia. }
  destruct (Qnum x); [lia|lia|reflexivity].
Qed.

Lemma fl_zero (x : Q) : x == 0 -> fl x = 0.
Proof.
  intros Hx. unfold fl.
  assert (Qnum x = 0)%Z.
  { unfold Qeq in Hx. simpl in Hx. lia. }
  rewrite H. reflexivity.
Qed.

(** Rounding is monotonic. *)
Lemma fl_monotone (x y : Q) : x <= y -> fl x <= fl y.
Proof.
  intros Hxy.
  destruct (Q_dec x 0) as [[Hx|Hx]|Hx]; destruct (Q_dec y 0) as [[Hy|Hy]|Hy];
    rewrite ?(fl_neg Hx), ?(fl_pos Hx), ?(fl_zero Hx),
      ?(fl_neg Hy), ?(fl_pos Hy), ?(fl_zero Hy);
    try (exfalso; lra);
    try (assert (Hmx : 0 < - x) by lra; pose proof (round_pos_nonneg Hmx));
    try (assert (Hmy : 0 < - y) by lra; pose proof (round_pos_nonneg Hmy));
    try pose proof (round_pos_nonneg Hx);
    try pose proof (round_pos_nonneg Hy).
  all: try (assert (Hm : round_pos (- y) <= round_pos (- x))
             by (apply round_pos_mono; lra)).
  all: try (assert (Hp : round_pos x <= round_pos y)
             by (apply round_pos_mono; assumption)).
  all: repeat match goal with
         | |- context [round_pos ?a] => generalize dependent (round_pos a); intros
         end; lra.
Qed.

Lemma add_monotone (x y z : Q) : x <= y -> add x z <= add y z.
Proof. intros H. apply fl_monotone. lra. Qed.

End FloatFacts.

Local Open Scope nat_scope.

(** ** Strings *)

Lemma startswith_iff (p s : pystr) :
  startswith s p = true <-> exists post, s = p ++ post.
Proof.
  revert s; induction p as [|a p IH]; intros s; simpl.
  - split; [exists s; reflexivity | destruct s; reflexivity].
  - destruct s as [|b s]; simpl.
    + split; [discriminate | intros [post H]; discriminate].
    + rewrite andb_true_iff, N.eqb_eq, IH. split.
      * intros [-> [post ->]]. exists post. reflexivity.
      * intros [post H]. injection H as -> ->. split; eauto.
Qed.

Lemma contains_iff (sub s : pystr) :
  contains s sub = true <-> substring sub s.
Proof.
  unfold substring. induction s as [|c s IH].
  - cbn [contains]. rewrite orb_false_r, startswith_iff. split.
    + intros [post H]. exists [], post. exact H.
    + intros [pre [post H]]. destruct pre; [|discriminate].
      exists post. exact H.
  - cbn [contains]. rewrite orb_true_iff, startswith_iff, IH. split.
    + intros [[post H] | [pre [post H]]].
      * exists [], post. exact H.
      * exists (c :: pre), post. rewrite H. reflexivity.
    + intros [pre [post H]]. destruct pre as [|c' pre].
      * left. exists post. exact H.
      * right. injection H as -> ->. eauto.
Qed.

Lemma any_phrase_true (phrases : list pystr) (q : pystr) :
  any_phrase phrases q = true <->
  exists phrase, In phrase phrases /\ substring phrase q.
Proof.
  unfold any_phrase. rewrite existsb_exists.
  split; intros [p [Hin H]]; exists p; split; auto; now apply contains_iff.
Qed.

Lemma any_phrase_false (phrases : list pystr) (q : pystr) :
  any_phrase phrases q = false <->
  forall phrase, In phrase phrases -> ~ substring phrase q.
Proof.
  rewrite <- not_true_iff_false, any_phrase_true. split.
  - intros H p Hin Hs. apply H. eauto.
  - intros H [p [Hin Hs]]. exact (H p Hin Hs).
Qed.

(** ** The intent classifier *)

(** The patterns of the model print back to the pattern strings of the
    source. *)
Example product_patterns_text :
  map show product_patterns = map cps
    ["\b(paint|color|blue|red|green|white|black|shade|tone|finish)\b";
     "\b(product|item|buy|purchase|price|cost)\b";
     "\b(what.*offer|show.*product|find.*paint)\b";
     "\b(match.*color|color.*match|sample)\b";
     "\b(recommend|suggest|help.*choose)\b";
     "\b(interior|exterior|primer|coating)\b"]%string.
Proof. reflexivity. Qed.

Example policy_patterns_text :
  map show policy_patterns = map cps
    ["\b(return|refund|exchange|policy|warranty)\b";
     "\b(problem|issue|complaint|damaged|leaking)\b";
     "\b(ship|delivery|shipping|track)\b";
     "\b(help|support|contact|customer service)\b";
     "\b(guarantee|coverage|defect)\b";
     "\b(cancel|order.*status|tracking)\b"]%string.
Proof. reflexivity. Qed.

Example routed_hello :
  _determine_target_agent ascii_db (cps "hello there")
  = (LogRouteDefault, ProductLookupAgent).
Proof. vm_compute. reflexivity. Qed.

Example routed_blue_paint :
  _determine_target_agent ascii_db (cps "Show me blue paint")
  = (LogRouteProductScore 1, ProductLookupAgent).
Proof. vm_compute. reflexivity. Qed.

(** A tie goes to the policy side: [help.*choose] and [help] both match. *)
Example routed_help_me_choose :
  _determine_target_agent ascii_db (cps "help me choose")
  = (LogRoutePolicyScore 1, KnowledgeAgent).
Proof. vm_compute. reflexivity. Qed.

(** [.] does not cross a newline and [\b] needs a whole word. *)
Example routed_painted :
  score ascii_db product_patterns (cps "painted") = 0%nat.
Proof. vm_compute. reflexivity. Qed.

Lemma routed_cases (U : unicode) (s : pystr) :
  routed U s = ProductLookupAgent \/ routed U s = KnowledgeAgent.
Proof.
  unfold routed, _determine_target_agent.
  repeat match goal with |- context [if ?b then _ else _] => destruct b end;
    simpl; auto.
Qed.

(** C1: a text whose lower-cased form contains "what products", "what do
    you offer" or "show me products" is routed to ProductLookupAgent,
    whatever the pattern scores are and whatever else the text contains
    (policy keywords and policy override phrases included). *)
Theorem product_override_wins (U : unicode) (user_text phrase : pystr) :
  In phrase (map cps
    ["what products"; "what do you offer"; "show me products"]%string) ->
  substring phrase (str_lower U user_text) ->
  _determine_target_agent U user_text
  = (LogRouteGeneralProduct, ProductLookupAgent).
Proof.
  intros Hin Hsub. unfold _determine_target_agent.
  assert (H : any_phrase product_phrases (str_lower U user_text) = true).
  { apply any_phrase_true. exists phrase. split; assumption. }
  rewrite H. reflexivity.
Qed.

Lemma product_override_wins_witness :
  substring (cps "what products")
    (str_lower ascii_db (cps "What Products have a refund or warranty?"))
  /\ routed ascii_db (cps "What Products have a refund or warranty?")
     = ProductLookupAgent.
Proof.
  assert (Hs : substring (cps "what products")
    (str_lower ascii_db (cps "What Products have a refund or warranty?"))).
  { exists [], (cps " have a refund or warranty?"). reflexivity. }
  split; [exact Hs|].
  unfold routed.
  rewrite (@product_override_wins ascii_db
             (cps "What Products have a refund or warranty?")
             (cps "what products") (or_introl eq_refl) Hs).
  reflexivity.
Defined.

(** C2: a text whose lower-cased form contains "return policy", "warranty",
    "refund" or "damaged" is routed to KnowledgeAgent when it contains no
    product override phrase, and to ProductLookupAgent when it contains
    one: the product phrases are tested first. *)
Theorem policy_override_after_product (U : unicode)
    (user_text phrase : pystr) :
  In phrase (map cps
    ["return policy"; "warranty"; "refund"; "damaged"]%string) ->
  substring phrase (str_lower U user_text) ->
  ((forall p, In p product_phrases -> ~ substring p (str_lower U user_text)) ->
   _determine_target_agent U user_text = (LogRoutePolicy, KnowledgeAgent))
  /\
  ((exists p, In p product_phrases /\ substring p (str_lower U user_text)) ->
   _determine_target_agent U user_text
   = (LogRouteGeneralProduct, ProductLookupAgent)).
Proof.
  intros Hin Hsub. unfold _determine_target_agent. split.
  - intros Hno. apply any_phrase_false in Hno. rewrite Hno.
    assert (H : any_phrase policy_phrases (str_lower U user_text) = true).
    { apply any_phrase_true. exists phrase. split; assumption. }
    rewrite H. reflexivity.
  - intros Hyes. apply any_phrase_true in Hyes. rewrite Hyes. reflexivity.
Qed.

Lemma policy_override_after_product_witness :
  routed ascii_db (cps "My paint arrived DAMAGED") = KnowledgeAgent
  /\ routed ascii_db (cps "show me products with a warranty")
     = ProductLookupAgent.
Proof.
  split.
  - assert (Hs : substring (cps "damaged")
        (str_lower ascii_db (cps "My paint arrived DAMAGED"))).
    { exists (cps "my paint arrived "), []. reflexivity. }
    assert (Hin : In (cps "damaged") (map cps
        ["return policy"; "warranty"; "refund"; "damaged"]%string)).
    { simpl. auto. }
    unfold routed.
    rewrite (proj1 (@policy_override_after_product ascii_db
                      (cps "My paint arrived DAMAGED") (cps "damaged")
                      Hin Hs)).
    + reflexivity.
    + apply any_phrase_false. vm_compute. reflexivity.
  - assert (Hs : substring (cps "warranty")
        (str_lower ascii_db (cps "show me products with a warranty"))).
    { exists (cps "show me products with a "), []. reflexivity. }
    assert (Hin : In (cps "warranty") (map cps
        ["return policy"; "warranty"; "refund"; "damaged"]%string)).
    { simpl. auto. }
    unfold routed.
    rewrite (proj2 (@policy_override_after_product ascii_db
                      (cps "show me products with a warranty")
                      (cps "warranty") Hin Hs)).
    + reflexivity.
    + apply any_phrase_true. vm_compute. reflexivity.
Defined.

(** C3: when the lower-cased text contains no override phrase, the
    classifier returns ProductLookupAgent if more product patterns than
    policy patterns match, KnowledgeAgent if not and some policy pattern
    matches, and ProductLookupAgent if no pattern matches at all; it is a
    total function and its result is one of these two names. *)
Theorem scores_decide (U : unicode) (user_text : pystr) :
  (forall p, In p (product_phrases ++ policy_phrases) ->
             ~ substring p (str_lower U user_text)) ->
  let product_score := score U product_patterns (str_lower U user_text) in
  let policy_score := score U policy_patterns (str_lower U user_text) in
  (policy_score < product_score ->
   _determine_target_agent U user_text
   = (LogRouteProductScore product_score, ProductLookupAgent))
  /\ (product_score <= policy_score -> 0 < policy_score ->
      _determine_target_agent U user_text
      = (LogRoutePolicyScore policy_score, KnowledgeAgent))
  /\ (product_score = 0 -> policy_score = 0 ->
      _determine_target_agent U user_text
      = (LogRouteDefault, ProductLookupAgent))
  /\ (routed U user_text = ProductLookupAgent
      \/ routed U user_text = KnowledgeAgent).
Proof.
  intros Hno product_score policy_score.
  assert (H1 : any_phrase product_phrases (str_lower U user_text) = false).
  { apply any_phrase_false. intros p Hp. apply Hno, in_or_app. auto. }
  assert (H2 : any_phrase policy_phrases (str_lower U user_text) = false).
  { apply any_phrase_false. intros p Hp. apply Hno, in_or_app. auto. }
  unfold _determine_target_agent. rewrite H1, H2.
  fold product_score policy_score.
  repeat split.
  - intros Hlt. apply Nat.ltb_lt in Hlt. rewrite Hlt. reflexivity.
  - intros Hle Hpos.
    apply Nat.ltb_ge in Hle. apply Nat.ltb_lt in Hpos.
    rewrite Hle, Hpos. reflexivity.
  - intros -> ->. reflexivity.
  - apply routed_cases.
Qed.

Lemma scores_decide_witness :
  routed ascii_db (cps "Show me blue paint") = ProductLookupAgent
  /\ routed ascii_db (cps "Track my order") = KnowledgeAgent
  /\ routed ascii_db (cps "hello there") = ProductLookupAgent.
Proof.
  assert (Hno : forall s,
    any_phrase (product_phrases ++ policy_phrases) (str_lower ascii_db s)
    = false ->
    forall p, In p (product_phrases ++ policy_phrases) ->
              ~ substring p (str_lower ascii_db s)).
  { intros s H. apply any_phrase_false. exact H. }
  unfold routed. split; [|split].
  - rewrite (proj1 (@scores_decide ascii_db (cps "Show me blue paint")
                      (Hno (cps "Show me blue paint") eq_refl))).
    + reflexivity.
    + vm_compute. lia.
  - rewrite (proj1 (proj2 (@scores_decide ascii_db (cps "Track my order")
                             (Hno (cps "Track my order") eq_refl)))).
    + reflexivity.
    + vm_compute. lia.
    + vm_compute. lia.
  - rewrite (proj1 (proj2 (proj2 (@scores_decide ascii_db (cps "hello there")
                                    (Hno (cps "hello there") eq_refl))))).
    + reflexivity.
    + reflexivity.
    + reflexivity.
Defined.

(** ** Association lists *)

Section AssocFacts.
Context {V : Type}.
Implicit Types (l : list (pystr * V)) (k : pystr).

Lemma remove_key_filter k l :
  remove_key k l = filter (fun kv => negb (pystr_eqb k (fst kv))) l.
Proof.
  induction l as [|[k' v] l IH]; simpl; [reflexivity|].
  unfold pystr_eqb. destruct (pystr_eq_dec k k'); simpl; now rewrite IH.
Qed.

Lemma assoc_some_in k l v : assoc k l = Some v -> In (k, v) l.
Proof.
  induction l as [|[k' v'] l IH]; simpl; [discriminate|].
  destruct (pystr_eq_dec k k') as [->|]; intros H.
  - injection H as ->. now left.
  - right. auto.
Qed.

Lemma assoc_none_iff k l : assoc k l = None <-> ~ In k (keys l).
Proof.
  induction l as [|[k' v'] l IH]; simpl; [tauto|].
  destruct (pystr_eq_dec k k') as [->|Hne].
  - split; [discriminate | intros H; exfalso; apply H; now left].
  - rewrite IH. split; intros H; [intros [E|?]; [congruence|tauto] | tauto].
Qed.

Lemma assoc_in_keys k l : In k (keys l) -> exists v, assoc k l = Some v.
Proof.
  intros H. destruct (assoc k l) as [v|] eqn:E; [eauto|].
  apply assoc_none_iff in E. contradiction.
Qed.

Lemma assoc_keys k l v : assoc k l = Some v -> In k (keys l).
Proof.
  intros H. apply assoc_some_in in H.
  apply (in_map fst) in H. exact H.
Qed.

Lemma in_assoc_nodup k v l : NoDup (keys l) -> In (k, v) l -> assoc k l = Some v.
Proof.
  induction l as [|[k' v'] l IH]; simpl; [tauto|].
  intros Hnd [E|Hin].
  - injection E as -> ->. destruct (pystr_eq_dec k k); congruence.
  - inversion Hnd as [|? ? Hni Hnd']; subst.
    destruct (pystr_eq_dec k k') as [->|]; [|auto].
    exfalso. apply Hni. apply (in_map fst) in Hin. exact Hin.
Qed.

Lemma keys_filter_in (f : pystr * V -> bool) k l :
  In k (keys (filter f l)) -> In k (keys l).
Proof.
  unfold keys. rewrite !in_map_iff.
  intros [x [E H]]. apply filter_In in H. exists x. tauto.
Qed.

Lemma nodup_keys_filter (f : pystr * V -> bool) l :
  NoDup (keys l) -> NoDup (keys (filter f l)).
Proof.
  induction l as [|[k v] l IH]; simpl; [auto|].
  intros H. inversion H as [|? ? Hni Hnd]; subst.
  destruct (f (k, v)); simpl; [|auto].
  constructor; [|auto]. intros Hin. apply Hni.
  eapply keys_filter_in. exact Hin.
Qed.

Lemma assoc_filter (f : pystr * V -> bool) k l :
  NoDup (keys l) ->
  assoc k (filter f l) =
  match assoc k l with
  | Some v => if f (k, v) then Some v else None
  | None => None
  end.
Proof.
  induction l as [|[k' v'] l IH]; simpl; [reflexivity|].
  intros H. inversion H as [|? ? Hni Hnd]; subst.
  destruct (pystr_eq_dec k k') as [->|Hne].
  - destruct (f (k', v')) eqn:Ef; simpl.
    + destruct (pystr_eq_dec k' k'); congruence.
    + apply assoc_none_iff. intros Hin. apply Hni.
      eapply keys_filter_in. exact Hin.
  - destruct (f (k', v')); simpl; [|auto].
    destruct (pystr_eq_dec k k'); [congruence|auto].
Qed.

Lemma assoc_remove_key_same k l : assoc k (remove_key k l) = None.
Proof.
  induction l as [|[k' v'] l IH]; simpl; [reflexivity|].
  destruct (pystr_eq_dec k k'); simpl; [exact IH|].
  destruct (pystr_eq_dec k k'); [contradiction|exact IH].
Qed.

Lemma assoc_remove_key_other k k' l :
  k <> k' -> assoc k' (remove_key k l) = assoc k' l.
Proof.
  intros Hne. induction l as [|[k2 v2] l IH]; simpl; [reflexivity|].
  destruct (pystr_eq_dec k k2) as [->|]; simpl.
  - destruct (pystr_eq_dec k' k2); [congruence|exact IH].
  - destruct (pystr_eq_dec k' k2); [reflexivity|exact IH].
Qed.

Lemma keys_remove_key k k' l :
  In k' (keys (remove_key k l)) <-> In k' (keys l) /\ k' <> k.
Proof.
  induction l as [|[k2 v2] l IH]; simpl; [tauto|].
  destruct (pystr_eq_dec k k2) as [->|Hne]; simpl.
  - rewrite IH. split; [tauto|]. intros [[E|H] Hn]; [congruence|tauto].
  - rewrite IH. split; [|tauto].
    intros [E|[H Hn]]; [subst; split; auto | tauto].
Qed.

Lemma nodup_remove_key k l : NoDup (keys l) -> NoDup (keys (remove_key k l)).
Proof. rewrite remove_key_filter. apply nodup_keys_filter. Qed.

Lemma remove_key_absent k l : ~ In k (keys l) -> remove_key k l = l.
Proof.
  induction l as [|[k' v'] l IH]; simpl; [reflexivity|].
  intros H. destruct (pystr_eq_dec k k') as [->|]; [tauto|].
  f_equal. apply IH. tauto.
Qed.

Lemma remove_key_length k l :
  In k (keys l) -> (List.length (remove_key k l) < List.length l)%nat.
Proof.
  induction l as [|[k' v'] l IH]; simpl; [tauto|].
  intros H. destruct (pystr_eq_dec k k') as [->|Hne].
  - assert (Hle : (List.length (remove_key k' l) <= List.length l)%nat).
    { rewrite remove_key_filter. apply filter_length_le. }
    lia.
  - simpl. destruct H as [E|H]; [congruence|]. apply IH in H. lia.
Qed.

Lemma assoc_app k l1 l2 :
  assoc k (l1 ++ l2) =
  match assoc k l1 with Some v => Some v | None => assoc k l2 end.
Proof.
  induction l1 as [|[k' v'] l1 IH]; simpl; [reflexivity|].
  destruct (pystr_eq_dec k k'); [reflexivity|exact IH].
Qed.

Lemma keys_app l1 l2 : keys (l1 ++ l2) = keys l1 ++ keys l2.
Proof. apply map_app. Qed.

Lemma move_to_end_keys k k' l :
  In k' (keys (move_to_end k l)) <-> In k' (keys l).
Proof.
  unfold move_to_end. destruct (assoc k l) as [v|] eqn:E; [|tauto].
  rewrite keys_app, in_app_iff, keys_remove_key. simpl.
  apply assoc_keys in E.
  destruct (pystr_eq_dec k' k) as [->|Hne]; [tauto|].
  split; [intros [[H _]|[H|[]]]; [auto|congruence] | tauto].
Qed.

Lemma move_to_end_nodup k l :
  NoDup (keys l) -> NoDup (keys (move_to_end k l)).
Proof.
  intros H. unfold move_to_end. destruct (assoc k l) as [v|] eqn:E; [|auto].
  rewrite keys_app. simpl.
  apply NoDup_app_remove_l with (l := []). simpl.
  apply Permutation_NoDup with (l := k :: keys (remove_key k l)).
  - apply Permutation_cons_append.
  - constructor; [|now apply nodup_remove_key].
    rewrite keys_remove_key. tauto.
Qed.

Lemma move_to_end_assoc k k' l :
  NoDup (keys l) -> assoc k' (move_to_end k l) = assoc k' l.
Proof.
  intros Hnd. unfold move_to_end.
  destruct (assoc k l) as [v|] eqn:E; [|reflexivity].
  rewrite assoc_app. destruct (pystr_eq_dec k k') as [->|Hne].
  - rewrite assoc_remove_key_same. simpl.
    destruct (pystr_eq_dec k' k'); congruence.
  - rewrite (assoc_remove_key_other _ Hne). simpl.
    destruct (pystr_eq_dec k' k); [congruence|].
    destruct (assoc k' l); reflexivity.
Qed.

Lemma remove_key_length_nodup k l :
  NoDup (keys l) -> In k (keys l) ->
  S (List.length (remove_key k l)) = List.length l.
Proof.
  induction l as [|[k' v'] l IH]; simpl; [tauto|].
  intros Hnd H. inversion Hnd as [|? ? Hni Hnd']; subst.
  destruct (pystr_eq_dec k k') as [->|Hne].
  - now rewrite remove_key_absent.
  - simpl. destruct H as [E|H]; [congruence|]. now rewrite IH.
Qed.

Lemma move_to_end_length k l :
  NoDup (keys l) -> List.length (move_to_end k l) = List.length l.
Proof.
  intros Hnd. unfold move_to_end.
  destruct (assoc k l) as [v|] eqn:E; [|reflexivity].
  rewrite length_app. simpl. apply assoc_keys in E.
  pose proof (@remove_key_length_nodup k l Hnd E). lia.
Qed.

End AssocFacts.

(** ** The cache library on well-formed states *)

Lemma Qltb_lt (a b : Q) : Qltb a b = true <-> (a < b)%Q.
Proof.
  unfold Qltb. rewrite negb_true_iff, <- not_true_iff_false, Qle_bool_iff.
  split; [apply Qnot_le_lt | apply Qlt_not_le].
Qed.

Lemma Qltb_ge (a b : Q) : Qltb a b = false <-> (b <= a)%Q.
Proof.
  unfold Qltb. rewrite negb_false_iff. apply Qle_bool_iff.
Qed.

Lemma live_key_in (t : Q) (r : list (pystr * Q)) (k : pystr) :
  NoDup (keys r) ->
  In k (keys (filter (is_live t) r)) <-> live_key t r k = true.
Proof.
  intros Hnd. unfold live_key. split.
  - intros H. apply assoc_in_keys in H. destruct H as [e He].
    rewrite assoc_filter in He by assumption.
    destruct (assoc k r) as [e'|]; [|discriminate].
    unfold is_live in He. simpl in He.
    destruct (Qltb t e'); [reflexivity|discriminate].
  - intros H. destruct (assoc k r) as [e|] eqn:E; [|discriminate].
    apply assoc_keys with (v := e).
    rewrite assoc_filter by assumption. rewrite E.
    unfold is_live. simpl. now rewrite H.
Qed.

Lemma live_data_in (t : Q) (r : list (pystr * Q)) (d : list (pystr * pystr))
    (k : pystr) :
  In k (keys (filter (fun kv => live_key t r (fst kv)) d)) <->
  In k (keys d) /\ live_key t r k = true.
Proof.
  unfold keys. rewrite !in_map_iff. split.
  - intros [[k' v] [E H]]. simpl in E. subst k'.
    apply filter_In in H. destruct H as [Hin Hl]. split; [|exact Hl].
    exists (k, v). auto.
  - intros [[[k' v] [E Hin]] Hl]. simpl in E. subst k'.
    exists (k, v). split; [reflexivity|]. apply filter_In. auto.
Qed.

Lemma sorted_filter (f : pystr * Q -> bool) (r : list (pystr * Q)) :
  StronglySorted Qle (map snd r) ->
  StronglySorted Qle (map snd (filter f r)).
Proof.
  induction r as [|[k e] r IH]; simpl; [auto|].
  intros H. inversion H as [|? ? Hs Hall]; subst.
  destruct (f (k, e)); simpl; [|auto].
  constructor; [auto|].
  rewrite Forall_forall in *. intros x Hx. apply Hall.
  rewrite in_map_iff in *. destruct Hx as [y [E Hy]].
  apply filter_In in Hy. exists y. tauto.
Qed.

Lemma purged_wf (t : Q) (c : TTLCache) : wf c -> wf (purged t c).
Proof.
  intros [Hd Hr Hk Hs Hsz Hm]. constructor; simpl.
  - now apply nodup_keys_filter.
  - now apply nodup_keys_filter.
  - intros k. rewrite live_data_in, live_key_in by assumption.
    split; [tauto|]. intros H. split; [|exact H].
    apply Hk. unfold live_key in H.
    destruct (assoc k (ring c)) eqn:E; [|discriminate].
    eapply assoc_keys; eauto.
  - now apply sorted_filter.
  - unfold currsize in *. simpl.
    pose proof (filter_length_le (fun kv => live_key t (ring c) (fst kv)) (data c)).
    lia.
  - exact Hm.
Qed.

Lemma purged_live (t : Q) (c : TTLCache) :
  Forall (fun ke => is_live t ke = true) (ring (purged t c)).
Proof.
  simpl. apply Forall_forall. intros x Hx. apply filter_In in Hx. tauto.
Qed.

Lemma filter_all {A} (f : A -> bool) (l : list A) :
  Forall (fun x => f x = true) l -> filter f l = l.
Proof.
  induction 1 as [|x l Hx Hl IH]; simpl; [reflexivity|].
  now rewrite Hx, IH.
Qed.

Lemma filter_none {A} (f : A -> bool) (l : list A) :
  Forall (fun x => f x = true) l -> filter (fun x => negb (f x)) l = [].
Proof.
  induction 1 as [|x l Hx Hl IH]; simpl; [reflexivity|].
  now rewrite Hx, IH.
Qed.

Lemma all_live_keys (t : Q) (c : TTLCache) :
  wf c -> Forall (fun ke => is_live t ke = true) (ring c) ->
  Forall (fun kv => live_key t (ring c) (fst kv) = true) (data c).
Proof.
  intros Hwf Hlive. apply Forall_forall. intros [k v] Hin. simpl.
  assert (Hk : In k (keys (ring c))).
  { apply (wf_keys Hwf). apply (in_map fst) in Hin. exact Hin. }
  apply live_key_in; [apply (wf_ring Hwf)|].
  now rewrite filter_all.
Qed.

(** Purging a cache without expired links changes nothing. *)
Lemma purged_id (t : Q) (c : TTLCache) :
  wf c -> Forall (fun ke => is_live t ke = true) (ring c) ->
  purged t c = c /\ expired_items t c = [].
Proof.
  intros Hwf Hlive. split.
  - unfold purged. rewrite (filter_all _ Hlive).
    rewrite (filter_all _ (all_live_keys t Hwf Hlive)).
    destruct c; reflexivity.
  - unfold expired_items. now rewrite filter_none.
Qed.

(** In a sorted ring a live head means that every link is live. *)
Lemma sorted_head_live (t : Q) (k : pystr) (e : Q) (r : list (pystr * Q)) :
  StronglySorted Qle (map snd ((k, e) :: r)) ->
  Qltb t e = true ->
  Forall (fun ke => is_live t ke = true) ((k, e) :: r).
Proof.
  intros Hs Hl. simpl in Hs. inversion Hs as [|? ? _ Hall]; subst.
  constructor; [exact Hl|].
  apply Forall_forall. intros [k' e'] Hin. unfold is_live. simpl.
  apply Qltb_lt. apply Qltb_lt in Hl.
  rewrite Forall_forall in Hall.
  specialize (Hall e' (in_map snd _ _ Hin)). simpl in Hall.
  eapply Qlt_le_trans; eauto.
Qed.

Lemma items_of_ext (d d' : list (pystr * pystr)) (r : list (pystr * Q)) :
  (forall ke, In ke r -> assoc (fst ke) d = assoc (fst ke) d') ->
  items_of d r = items_of d' r.
Proof.
  intros H. unfold items_of. induction r as [|ke r IH]; simpl; [reflexivity|].
  rewrite (H ke (or_introl eq_refl)). f_equal.
  apply IH. intros x Hx. apply H. now right.
Qed.

Lemma live_key_remove (t : Q) (k : pystr) (e : Q) (r : list (pystr * Q))
    (d : list (pystr * pystr)) :
  Qltb t e = false ->
  filter (fun kv => live_key t r (fst kv)) (remove_key k d)
  = filter (fun kv => live_key t ((k, e) :: r) (fst kv)) d.
Proof.
  intros Hdead. induction d as [|[k' v'] d IH]; simpl; [reflexivity|].
  unfold live_key at 2. simpl.
  destruct (pystr_eq_dec k k') as [->|Hne].
  - destruct (pystr_eq_dec k' k'); [|congruence]. rewrite Hdead. exact IH.
  - destruct (pystr_eq_dec k' k); [congruence|]. simpl.
    fold (live_key t r k'). rewrite IH. reflexivity.
Qed.

Section CacheRuns.
Variable hook_raises : pystr -> option exn.
Variable t : Q.

Lemma Cache_getitem_run (k v : pystr) (c : TTLCache) :
  assoc k (data c) = Some v -> Cache_getitem k c = (c, [], Returns v).
Proof. intros H. unfold Cache_getitem, bind, get. now rewrite H. Qed.

Lemma Cache_delitem_run (k v : pystr) (c : TTLCache) :
  assoc k (data c) = Some v ->
  Cache_delitem k c = (set_data (remove_key k) c, [], Returns tt).
Proof. intros H. unfold Cache_delitem, bind, get. now rewrite H. Qed.

(** The expiry loop removes exactly the expired items of a sorted ring. *)
Lemma expire_links_run (r : list (pystr * Q)) :
  forall c, ring c = r -> wf c ->
  expire_links t r c = (purged t c, [], Returns (expired_items t c)).
Proof.
  induction r as [|[k e] r IH]; intros c Hr Hwf.
  - assert (Hd : data c = []).
    { pose proof (wf_keys Hwf) as Hk. rewrite Hr in Hk.
      destruct (data c) as [|[k v] d]; [reflexivity|].
      exfalso. apply (Hk k). now left. }
    simpl. unfold ret, purged, expired_items. rewrite Hr, Hd.
    destruct c. simpl in *. subst. reflexivity.
  - simpl. destruct (Qltb t e) eqn:El.
    + assert (Hl : Forall (fun ke => is_live t ke = true) (ring c)).
      { rewrite Hr. apply sorted_head_live; [|exact El].
        rewrite <- Hr. apply (wf_sorted Hwf). }
      destruct (purged_id t Hwf Hl) as [-> ->]. reflexivity.
    + assert (Hin : In k (keys (data c))).
      { apply (wf_keys Hwf). rewrite Hr. now left. }
      destruct (assoc_in_keys _ _ Hin) as [v Hv].
      pose proof (wf_ring Hwf) as Hnr. rewrite Hr in Hnr.
      simpl in Hnr. inversion Hnr as [|? ? Hni Hnr']; subst.
      set (c2 := set_ring (fun _ => r) (set_data (remove_key k) c)).
      assert (Hwf2 : wf c2).
      { destruct Hwf as [Hd Hrr Hk Hs Hsz Hm].
        constructor; unfold c2, currsize in *; simpl.
        - now apply nodup_remove_key.
        - exact Hnr'.
        - intros k'. rewrite keys_remove_key, Hk, Hr. simpl.
          split; [intros [[E|H] Hn]; [congruence|exact H]|].
          intros H. split; [now right|]. intros ->. contradiction.
        - rewrite Hr in Hs. simpl in Hs. now inversion Hs.
        - pose proof (remove_key_length k (data c) Hin). lia.
        - exact Hm. }
      unfold bind at 1. rewrite (Cache_getitem_run _ _ Hv).
      unfold bind at 1. rewrite (Cache_delitem_run _ _ Hv).
      unfold bind at 1, modify at 1. fold c2.
      unfold bind at 1. rewrite (IH c2 eq_refl Hwf2).
      unfold ret. simpl. f_equal; [f_equal|f_equal].
      * unfold purged, c2. simpl. rewrite Hr. simpl.
        unfold is_live at 2. simpl. rewrite El.
        f_equal. apply live_key_remove. exact El.
      * unfold expired_items, c2. simpl. rewrite Hr. simpl.
        unfold is_live at 2. simpl. rewrite El. simpl.
        rewrite Hv. simpl. f_equal.
        apply items_of_ext. intros [k' e'] Hx. simpl.
        apply assoc_remove_key_other. intros ->. apply Hni.
        apply filter_In in Hx. destruct Hx as [Hx _].
        apply (in_map fst) in Hx. exact Hx.
Qed.

Lemma log_expired_run (items : list (pystr * pystr)) (c : TTLCache) :
  log_expired hook_raises items c
  = (c, map (expire_event hook_raises) (map snd items), Returns tt).
Proof.
  induction items as [|[k v] items IH]; simpl; [reflexivity|].
  unfold expire_event at 1.
  destruct (hook_raises v); unfold bind, try_except, raise, emit;
    simpl; rewrite IH; reflexivity.
Qed.

(** [ThreadCache.expire] returns the expired items, removes them and calls
    the hook once for each, whether or not the hook raises. *)
Lemma ThreadCache_expire_run (c : TTLCache) :
  wf c ->
  ThreadCache_expire hook_raises t c
  = (purged t c,
     map (expire_event hook_raises) (map snd (expired_items t c)),
     Returns (expired_items t c)).
Proof.
  intros Hwf. unfold ThreadCache_expire, TTLCache_expire.
  unfold bind at 1. unfold bind at 1, get at 1.
  rewrite (expire_links_run eq_refl Hwf). simpl.
  unfold bind. rewrite log_expired_run. unfold ret. simpl.
  now rewrite app_nil_r.
Qed.

End CacheRuns.

Lemma remove_key_app {V} (k : pystr) (l1 l2 : list (pystr * V)) :
  remove_key k (l1 ++ l2) = remove_key k l1 ++ remove_key k l2.
Proof. rewrite !remove_key_filter. apply filter_app. Qed.

Lemma remove_key_idem {V} (k : pystr) (l : list (pystr * V)) :
  remove_key k (remove_key k l) = remove_key k l.
Proof.
  apply remove_key_absent. rewrite keys_remove_key. tauto.
Qed.

Lemma remove_key_last {V} (k : pystr) (v : V) (l : list (pystr * V)) :
  remove_key k (l ++ [(k, v)]) = remove_key k l.
Proof.
  rewrite remove_key_app. simpl.
  destruct (pystr_eq_dec k k); [|congruence]. apply app_nil_r.
Qed.

Lemma remove_key_set_assoc {V} (k : pystr) (v : V) (l : list (pystr * V)) :
  remove_key k (set_assoc k v l) = remove_key k l.
Proof.
  induction l as [|[k' v'] l IH]; simpl.
  - destruct (pystr_eq_dec k k); [reflexivity|congruence].
  - destruct (pystr_eq_dec k k') as [->|Hne]; simpl.
    + destruct (pystr_eq_dec k' k'); [reflexivity|congruence].
    + destruct (pystr_eq_dec k k'); [congruence|]. now rewrite IH.
Qed.

Lemma assoc_set_assoc {V} (k : pystr) (v : V) (l : list (pystr * V)) :
  assoc k (set_assoc k v l) = Some v.
Proof.
  induction l as [|[k' v'] l IH]; simpl.
  - destruct (pystr_eq_dec k k); [reflexivity|congruence].
  - destruct (pystr_eq_dec k k') as [->|Hne]; simpl.
    + destruct (pystr_eq_dec k' k'); [reflexivity|congruence].
    + destruct (pystr_eq_dec k k'); [congruence|exact IH].
Qed.

(** Writing an item and moving it to the recent end. *)
Lemma move_to_end_set_assoc {V} (k : pystr) (v : V) (l : list (pystr * V)) :
  move_to_end k (set_assoc k v l) = remove_key k l ++ [(k, v)].
Proof.
  unfold move_to_end. now rewrite assoc_set_assoc, remove_key_set_assoc.
Qed.

Lemma without_wf (k : pystr) (v : pystr) (c : TTLCache) :
  wf c -> wf (without [(k, v)] c).
Proof.
  intros [Hd Hr Hk Hs Hsz Hm]. constructor; unfold currsize in *; simpl.
  - now apply nodup_remove_key.
  - now apply nodup_remove_key.
  - intros k'. rewrite !keys_remove_key, Hk. tauto.
  - rewrite remove_key_filter. now apply sorted_filter.
  - pose proof (filter_length_le
      (fun kv => negb (pystr_eqb k (fst kv))) (data c)) as H.
    rewrite remove_key_filter. lia.
  - exact Hm.
Qed.

Lemma without_live (t : Q) (gone : list (pystr * pystr)) (c : TTLCache) :
  Forall (fun ke => is_live t ke = true) (ring c) ->
  Forall (fun ke => is_live t ke = true) (ring (without gone c)).
Proof.
  intros H. destruct gone as [|[k v] gone]; simpl; [exact H|].
  rewrite remove_key_filter. rewrite Forall_forall in *.
  intros x Hx. apply filter_In in Hx. apply H. tauto.
Qed.

Section CacheRuns2.
Variable hook_raises : pystr -> option exn.
Variable t : Q.

Lemma TTLCache_get_run (k : pystr) (c : TTLCache) :
  wf c ->
  TTLCache_get t k c
  = (get_state t k c, [],
     Returns (if live_key t (ring c) k then assoc k (data c) else None)).
Proof.
  intros Hwf. unfold TTLCache_get, TTLCache_contains, get_state, live_key.
  unfold bind at 1. unfold bind at 1, get at 1.
  destruct (assoc k (ring c)) as [e|] eqn:Er; [|reflexivity].
  unfold ret at 1. destruct (Qltb t e) eqn:El; [|reflexivity].
  assert (Hin : In k (keys (data c))).
  { apply (wf_keys Hwf). eapply assoc_keys; eauto. }
  destruct (assoc_in_keys _ _ Hin) as [v Hv].
  unfold TTLCache_getitem.
  unfold bind at 1. unfold bind at 1, get at 1. rewrite Er.
  unfold bind at 1, modify at 1. rewrite El.
  assert (Hv' : assoc k (data (set_data (move_to_end k) c)) = Some v).
  { simpl. rewrite move_to_end_assoc; [exact Hv|apply (wf_data Hwf)]. }
  rewrite (Cache_getitem_run _ _ Hv'). unfold ret. simpl. now rewrite Hv.
Qed.

Lemma get_state_wf (k : pystr) (c : TTLCache) : wf c -> wf (get_state t k c).
Proof.
  intros Hwf. unfold get_state.
  destruct (live_key t (ring c) k); [|exact Hwf].
  destruct Hwf as [Hd Hr Hk Hs Hsz Hm].
  constructor; unfold currsize in *; simpl; auto.
  - now apply move_to_end_nodup.
  - intros k'. rewrite move_to_end_keys. apply Hk.
  - now rewrite move_to_end_length.
Qed.

Lemma get_state_ring (k : pystr) (c : TTLCache) :
  ring (get_state t k c) = ring c /\ ttl (get_state t k c) = ttl c
  /\ maxsize (get_state t k c) = maxsize c.
Proof. unfold get_state. destruct (live_key t (ring c) k); auto. Qed.

Lemma get_state_assoc (k k' : pystr) (c : TTLCache) :
  wf c -> assoc k' (data (get_state t k c)) = assoc k' (data c).
Proof.
  intros Hwf. unfold get_state.
  destruct (live_key t (ring c) k); [|reflexivity].
  simpl. apply move_to_end_assoc. apply (wf_data Hwf).
Qed.

(** [popitem] on a purged, non-empty cache removes the first item and
    calls the hook for it. *)
Lemma ThreadCache_popitem_run (k0 v0 : pystr) (rest : list (pystr * pystr))
    (c : TTLCache) :
  wf c -> Forall (fun ke => is_live t ke = true) (ring c) ->
  data c = (k0, v0) :: rest ->
  ThreadCache_popitem hook_raises t c
  = (without [(k0, v0)] c, [evict_event hook_raises v0], Returns (k0, v0)).
Proof.
  intros Hwf Hlive Hd.
  destruct (purged_id t Hwf Hlive) as [Hp Hx].
  assert (Hv : assoc k0 (data c) = Some v0).
  { rewrite Hd. simpl. destruct (pystr_eq_dec k0 k0); congruence. }
  assert (Hl : live_key t (ring c) k0 = true).
  { pose proof (all_live_keys t Hwf Hlive) as H. rewrite Hd in H.
    inversion H; subst. assumption. }
  assert (Hpop : TTLCache_popitem hook_raises t c
                 = (without [(k0, v0)] c, [], Returns (k0, v0))).
  { unfold TTLCache_popitem, bind.
    rewrite (ThreadCache_expire_run hook_raises t Hwf), Hp, Hx.
    unfold get. rewrite Hd.
    unfold live_key in Hl.
    destruct (assoc k0 (ring c)) as [e|] eqn:Er; [|discriminate].
    assert (Hv' : assoc k0 (data (set_data (move_to_end k0) c)) = Some v0).
    { simpl. rewrite move_to_end_assoc; [exact Hv|apply (wf_data Hwf)]. }
    unfold Cache_pop, TTLCache_contains, TTLCache_getitem, TTLCache_delitem.
    repeat (progress
      (unfold bind, get, modify, ret, raise; cbn beta iota;
       rewrite ?Er, ?Hl, ?(Cache_getitem_run _ _ Hv'),
         ?(Cache_delitem_run _ _ Hv');
       cbn [ring data set_data set_ring])).
    unfold set_ring, set_data, move_to_end. simpl. rewrite Hv.
    rewrite remove_key_last, remove_key_idem. reflexivity. }
  unfold ThreadCache_popitem. unfold bind at 1. rewrite Hpop.
  unfold evict_event. simpl.
  destruct (hook_raises v0); reflexivity.
Qed.

Lemma make_room_done (fuel : nat) (c : TTLCache) :
  (currsize c + 1 <= maxsize c)%nat ->
  make_room hook_raises t fuel c = (c, [], Returns tt).
Proof.
  intros H. apply Nat.ltb_ge in H.
  destruct fuel; simpl; unfold bind, get; now rewrite H.
Qed.

(** The eviction loop of a write of a new key: one [popitem] when the
    purged cache is full, none otherwise. *)
Lemma make_room_run (key : pystr) (c : TTLCache) :
  wf c -> Forall (fun ke => is_live t ke = true) (ring c) ->
  assoc key (data c) = None ->
  make_room hook_raises t (currsize c) c
  = (without (evicted key c) c,
     map (evict_event hook_raises) (map snd (evicted key c)), Returns tt).
Proof.
  intros Hwf Hlive Hk. unfold evicted. rewrite Hk.
  destruct (maxsize c <? currsize c + 1)%nat eqn:Efull.
  - apply Nat.ltb_lt in Efull.
    pose proof (wf_size Hwf) as Hsz. pose proof (wf_maxsize Hwf) as Hm.
    unfold currsize in *.
    destruct (data c) as [|[k0 v0] rest] eqn:Hd; simpl in *; [lia|].
    unfold bind at 1, get at 1.
    assert (E : (maxsize c <? currsize c + 1)%nat = true).
    { apply Nat.ltb_lt. unfold currsize. rewrite Hd. simpl. lia. }
    rewrite E. unfold bind at 1.
    rewrite (ThreadCache_popitem_run Hwf Hlive Hd).
    rewrite make_room_done; [reflexivity|].
    unfold currsize. simpl.
    pose proof (wf_data Hwf) as Hnd. rewrite Hd in Hnd.
    pose proof (@remove_key_length_nodup _ k0 (data c)) as Hlen.
    rewrite Hd in Hlen. specialize (Hlen Hnd (or_introl eq_refl)).
    simpl in Hlen. rewrite Hd. simpl.
    destruct (pystr_eq_dec k0 k0); [|congruence]. simpl in Hlen.
    destruct (pystr_eq_dec k0 k0); [|congruence]. lia.
  - apply Nat.ltb_ge in Efull. simpl. now apply make_room_done.
Qed.

(** [cache[key] = value] at [t] on a well-formed cache. *)
Lemma TTLCache_setitem_run (key value : pystr) (c : TTLCache) :
  wf c ->
  TTLCache_setitem hook_raises t key value c
  = (put_result t key value c,
     map (expire_event hook_raises) (map snd (expired_items t c))
     ++ map (evict_event hook_raises)
            (map snd (evicted key (purged t c))),
     Returns tt).
Proof.
  intros Hwf.
  pose proof (purged_wf t Hwf) as Hwf1.
  pose proof (purged_live t c) as Hlive1.
  unfold TTLCache_setitem. unfold bind at 1.
  rewrite (ThreadCache_expire_run hook_raises t Hwf).
  set (c1 := purged t c) in *.
  assert (Hroom :
    (match assoc key (data c1) with
     | None => make_room hook_raises t (currsize c1)
     | Some _ => ret tt
     end) c1
    = (without (evicted key c1) c1,
       map (evict_event hook_raises) (map snd (evicted key c1)),
       Returns tt)).
  { destruct (assoc key (data c1)) eqn:Ek.
    - unfold evicted. rewrite Ek. reflexivity.
    - now apply make_room_run. }
  unfold Cache_setitem. unfold bind at 1. unfold bind at 1, get at 1.
  assert (Em : (maxsize c1 <? 1)%nat = false).
  { apply Nat.ltb_ge. apply (wf_maxsize Hwf1). }
  rewrite Em. unfold bind at 1. rewrite Hroom.
  unfold modify, bind, get. simpl.
  rewrite !app_nil_r. f_equal. f_equal.
  unfold put_result. fold c1.
  unfold set_ring, set_data. simpl.
  rewrite move_to_end_set_assoc.
  destruct (evicted key c1) as [|[k0 v0] ?]; reflexivity.
Qed.

End CacheRuns2.

Lemma sorted_snoc (l : list Q) (x : Q) :
  StronglySorted Qle l -> Forall (fun y => (y <= x)%Q) l ->
  StronglySorted Qle (l ++ [x]).
Proof.
  induction 1 as [|y l Hs IH Hall]; intros Hx; simpl.
  - constructor; constructor.
  - inversion Hx; subst. constructor; [auto|].
    apply Forall_app. split; [exact Hall|]. constructor; auto.
Qed.

Lemma nodup_snoc (k : pystr) (l : list pystr) :
  NoDup l -> ~ In k l -> NoDup (l ++ [k]).
Proof.
  intros Hnd Hni. apply Permutation_NoDup with (l := k :: l).
  - apply Permutation_cons_append.
  - now constructor.
Qed.

Lemma without_fields (gone : list (pystr * pystr)) (c : TTLCache) :
  maxsize (without gone c) = maxsize c /\ ttl (without gone c) = ttl c.
Proof. destruct gone as [|[k v] ?]; auto. Qed.

Lemma without_evicted_wf (key : pystr) (c : TTLCache) :
  wf c -> wf (without (evicted key c) c).
Proof.
  intros Hwf. unfold evicted.
  destruct (assoc key (data c)); [exact Hwf|].
  destruct (maxsize c <? currsize c + 1); [|exact Hwf].
  destruct (data c) as [|[k0 v0] rest]; [exact Hwf|].
  simpl firstn. now apply without_wf.
Qed.

Lemma without_ring_incl (gone : list (pystr * pystr)) (c : TTLCache) :
  incl (ring (without gone c)) (ring c).
Proof.
  destruct gone as [|[k v] ?]; simpl; [apply incl_refl|].
  rewrite remove_key_filter. intros x Hx. apply filter_In in Hx. tauto.
Qed.

(** After an eviction for a new key there is room for one more item. *)
Lemma without_evicted_room (key : pystr) (c : TTLCache) :
  wf c -> assoc key (data (without (evicted key c) c)) = None ->
  currsize (without (evicted key c) c) + 1 <= maxsize c.
Proof.
  intros Hwf. unfold evicted.
  destruct (assoc key (data c)) eqn:Ek; [simpl; congruence|].
  destruct (maxsize c <? currsize c + 1) eqn:Ef.
  - intros _. pose proof (wf_size Hwf) as Hsz. unfold currsize in *.
    destruct (data c) as [|[k0 v0] rest] eqn:Hd.
    + pose proof (wf_maxsize Hwf). simpl. rewrite Hd. simpl. lia.
    + simpl firstn. simpl. rewrite Hd.
      pose proof (wf_data Hwf) as Hnd. rewrite Hd in Hnd.
      pose proof (@remove_key_length_nodup _ k0 ((k0, v0) :: rest) Hnd
                    (or_introl eq_refl)) as Hlen.
      simpl in Hlen, Hsz |- *.
      destruct (pystr_eq_dec k0 k0); [|congruence]. lia.
  - intros _. apply Nat.ltb_ge in Ef. simpl. exact Ef.
Qed.

Lemma put_result_wf (t : Q) (key value : pystr) (c : TTLCache) :
  wf c -> written_by t c ->
  wf (put_result t key value c) /\ written_by t (put_result t key value c).
Proof.
  intros Hwf Hw.
  pose proof (purged_wf t Hwf) as Hwf1.
  pose proof (without_evicted_wf key Hwf1) as Hwf2.
  pose proof (without_evicted_room key Hwf1) as Hroom.
  assert (Hold : Forall (fun ke => (snd ke <= Float.add t (ttl c))%Q)
            (remove_key key
               (ring (without (evicted key (purged t c)) (purged t c))))).
  { unfold written_by in Hw. rewrite Forall_forall in *.
    intros x Hx. apply Hw. rewrite remove_key_filter in Hx.
    apply filter_In in Hx. destruct Hx as [Hx _].
    apply without_ring_incl in Hx. simpl in Hx.
    apply filter_In in Hx. tauto. }
  unfold put_result.
  set (c' := without (evicted key (purged t c)) (purged t c)) in *.
  destruct Hwf2 as [Hd Hr Hk Hs Hsz Hm].
  split.
  - constructor; unfold currsize in *; simpl.
    + rewrite keys_app. simpl. apply nodup_snoc.
      * now apply nodup_remove_key.
      * rewrite keys_remove_key. tauto.
    + rewrite keys_app. simpl. apply nodup_snoc.
      * now apply nodup_remove_key.
      * rewrite keys_remove_key. tauto.
    + intros k. rewrite !keys_app, !in_app_iff, !keys_remove_key, Hk.
      tauto.
    + rewrite map_app. simpl. apply sorted_snoc.
      * rewrite remove_key_filter. now apply sorted_filter.
      * apply Forall_map. exact Hold.
    + rewrite length_app. simpl.
      destruct (assoc key (data c')) as [v|] eqn:Ek.
      * apply assoc_keys in Ek.
        pose proof (@remove_key_length_nodup _ key (data c') Hd Ek).
        destruct (without_fields (evicted key (purged t c)) (purged t c))
          as [Em _].
        fold c' in Em. simpl in Em. lia.
      * specialize (Hroom eq_refl). simpl in Hroom.
        rewrite remove_key_absent by (now apply assoc_none_iff). exact Hroom.
    + apply (wf_maxsize Hwf).
  - unfold written_by. simpl. apply Forall_app. split; [exact Hold|].
    constructor; [simpl; apply Qle_refl|constructor].
Qed.

Lemma written_by_later (t t' : Q) (c : TTLCache) :
  written_by t c -> (t <= t')%Q -> written_by t' c.
Proof.
  unfold written_by. intros H Hle. rewrite Forall_forall in *.
  intros x Hx. specialize (H x Hx).
  eapply Qle_trans; [exact H|]. now apply FloatFacts.add_monotone.
Qed.

Lemma ThreadCache_init_wf (t : Q) :
  wf ThreadCache_init /\ written_by t ThreadCache_init.
Proof.
  split.
  - constructor; unfold currsize; simpl; try constructor; try tauto; lia.
  - constructor.
Qed.

Lemma purged_assoc (t : Q) (k : pystr) (c : TTLCache) :
  wf c ->
  assoc k (data (purged t c))
  = if live_key t (ring c) k then assoc k (data c) else None.
Proof.
  intros Hwf. simpl. rewrite assoc_filter by apply (wf_data Hwf).
  destruct (assoc k (data c)); simpl; [|now destruct (live_key t (ring c) k)].
  reflexivity.
Qed.

Lemma in_items_of (d : list (pystr * pystr)) (r : list (pystr * Q))
    (k v : pystr) :
  In (k, v) (items_of d r) <-> In k (keys r) /\ assoc k d = Some v.
Proof.
  unfold items_of. rewrite in_flat_map. split.
  - intros [[k' e] [Hin H]]. simpl in H.
    destruct (assoc k' d) as [v'|] eqn:E; [|contradiction].
    destruct H as [H|[]]. injection H as -> ->.
    split; [|exact E]. apply (in_map fst) in Hin. exact Hin.
  - intros [Hin E]. unfold keys in Hin. apply in_map_iff in Hin.
    destruct Hin as [[k' e] [Hk Hin]]. simpl in Hk. subst k'.
    exists (k, e). split; [exact Hin|]. simpl. rewrite E. now left.
Qed.

(** The expired items are the items whose link is no longer live. *)
Lemma expired_items_in (t : Q) (k v : pystr) (c : TTLCache) :
  wf c ->
  In (k, v) (expired_items t c)
  <-> assoc k (data c) = Some v /\ live_key t (ring c) k = false.
Proof.
  intros Hwf. unfold expired_items. rewrite in_items_of.
  pose proof (wf_ring Hwf) as Hnr. unfold live_key. split.
  - intros [Hin Hv]. split; [exact Hv|].
    apply assoc_in_keys in Hin. destruct Hin as [e He].
    rewrite assoc_filter in He by assumption.
    destruct (assoc k (ring c)) as [e'|]; [|reflexivity].
    unfold is_live in He. simpl in He.
    destruct (Qltb t e'); [discriminate|reflexivity].
  - intros [Hv Hl]. split; [|exact Hv].
    assert (Hk : In k (keys (ring c))).
    { apply (wf_keys Hwf). eapply assoc_keys; eauto. }
    destruct (assoc_in_keys _ _ Hk) as [e He]. rewrite He in Hl.
    apply assoc_keys with (v := e). rewrite assoc_filter by assumption.
    rewrite He. unfold is_live. simpl. now rewrite Hl.
Qed.

(** A write evicts nothing, or the first item of a full cache. *)
Lemma evicted_cases (key : pystr) (c : TTLCache) :
  wf c ->
  (evicted key c = []
   /\ (assoc key (data c) <> None \/ currsize c < maxsize c))
  \/ (exists k0 v0 rest,
        data c = (k0, v0) :: rest /\ evicted key c = [(k0, v0)]
        /\ assoc key (data c) = None /\ currsize c = maxsize c).
Proof.
  intros Hwf. unfold evicted.
  destruct (assoc key (data c)) eqn:Ek; [left; split; [auto|left; congruence]|].
  destruct (maxsize c <? currsize c + 1) eqn:Ef.
  - right. apply Nat.ltb_lt in Ef.
    pose proof (wf_size Hwf) as Hsz. pose proof (wf_maxsize Hwf) as Hm.
    unfold currsize in *.
    destruct (data c) as [|[k0 v0] rest] eqn:Hd; simpl in *; [lia|].
    exists k0, v0, rest. repeat split; auto. lia.
  - left. apply Nat.ltb_ge in Ef. split; [reflexivity|right; lia].
Qed.

Lemma put_result_assoc_other (t : Q) (key value k : pystr) (c : TTLCache) :
  k <> key ->
  assoc k (data (put_result t key value c))
  = assoc k (data (without (evicted key (purged t c)) (purged t c))).
Proof.
  intros Hne. unfold put_result. cbn [data].
  rewrite assoc_app, assoc_remove_key_other by congruence.
  simpl. destruct (pystr_eq_dec k key); [contradiction|].
  now destruct (assoc k _).
Qed.

Lemma put_result_assoc_key (t : Q) (key value : pystr) (c : TTLCache) :
  assoc key (data (put_result t key value c)) = Some value
  /\ assoc key (ring (put_result t key value c))
     = Some (Float.add t (ttl c)).
Proof.
  unfold put_result. cbn [data ring].
  rewrite !assoc_app, !assoc_remove_key_same. simpl.
  destruct (pystr_eq_dec key key); [auto|congruence].
Qed.

(** C8: on a well-formed cache, [ThreadCache.expire], a write and a read
    always return normally, whatever the release hook does.  The hook is
    called once for each expired item and once for the evicted item, with
    the thread handle of that item; when the hook raises, the handler logs
    the error line instead ([expire_event], [evict_event]).  The items the
    write removes are exactly those the hook is called for. *)
Theorem release_hook_is_contained (hook_raises : pystr -> option exn)
    (t : Q) (key value : pystr) (c : TTLCache) :
  wf c ->
  let expired := expired_items t c in
  let lru := evicted key (purged t c) in
  ThreadCache_expire hook_raises t c
  = (purged t c, map (expire_event hook_raises) (map snd expired),
     Returns expired)
  /\ TTLCache_setitem hook_raises t key value c
     = (put_result t key value c,
        map (expire_event hook_raises) (map snd expired)
        ++ map (evict_event hook_raises) (map snd lru),
        Returns tt)
  /\ (forall k v, assoc k (data c) = Some v -> k <> key ->
        assoc k (data (put_result t key value c)) = None ->
        In (k, v) (expired ++ lru))
  /\ (forall k v, In (k, v) (expired ++ lru) ->
        assoc k (data c) = Some v
        /\ (k <> key -> assoc k (data (put_result t key value c)) = None))
  /\ (forall k, exists r,
        TTLCache_get t k c = (get_state t k c, [], Returns r)
        /\ forall k', assoc k' (data (get_state t k c)) = assoc k' (data c)).
Proof.
  intros Hwf expired lru.
  pose proof (purged_wf t Hwf) as Hwf1.
  split; [now apply ThreadCache_expire_run|].
  split; [now apply TTLCache_setitem_run|].
  split; [|split].
  - intros k v Hv Hne Hgone. apply in_or_app.
    rewrite put_result_assoc_other in Hgone by assumption.
    destruct (live_key t (ring c) k) eqn:El.
    + right. assert (Hv1 : assoc k (data (purged t c)) = Some v).
      { rewrite purged_assoc, El by assumption. exact Hv. }
      unfold lru.
      destruct (evicted_cases key Hwf1)
        as [[E _] | [k0 [v0 [rest [Hd [E _]]]]]]; rewrite E in *.
      * cbn [without] in Hgone. congruence.
      * cbn [without data] in Hgone.
        destruct (pystr_eq_dec k0 k) as [->|Hk].
        -- rewrite Hd in Hv1. simpl in Hv1.
           destruct (pystr_eq_dec k k); [|congruence].
           injection Hv1 as ->. now left.
        -- rewrite assoc_remove_key_other in Hgone by assumption.
           congruence.
    + left. apply expired_items_in; auto.
  - intros k v Hin. apply in_app_or in Hin. destruct Hin as [Hin|Hin].
    + apply expired_items_in in Hin; [|assumption].
      destruct Hin as [Hv Hl]. split; [exact Hv|]. intros Hne.
      rewrite put_result_assoc_other by assumption.
      assert (Hn : assoc k (data (purged t c)) = None).
      { rewrite purged_assoc, Hl by assumption. reflexivity. }
      destruct (evicted key (purged t c)) as [|[k0 v0] ?]; [exact Hn|].
      cbn [without data]. apply assoc_none_iff. rewrite keys_remove_key.
      apply assoc_none_iff in Hn. tauto.
    + unfold lru in Hin.
      destruct (evicted_cases key Hwf1)
        as [[E _] | [k0 [v0 [rest [Hd [E _]]]]]]; rewrite E in *.
      * contradiction.
      * destruct Hin as [Hin|[]]. injection Hin as -> ->.
        assert (Hv1 : assoc k (data (purged t c)) = Some v).
        { rewrite Hd. simpl. destruct (pystr_eq_dec k k); congruence. }
        split.
        -- rewrite purged_assoc in Hv1 by assumption.
           destruct (live_key t (ring c) k); [exact Hv1|discriminate].
        -- intros Hne. rewrite put_result_assoc_other by assumption.
           rewrite E. cbn [without data]. apply assoc_remove_key_same.
  - intros k. eexists. split; [now apply TTLCache_get_run|].
    intros k'. now apply get_state_assoc.
Qed.

Lemma release_hook_is_contained_witness :
  TTLCache_setitem (fun _ => Some (Exception (cps "boom"))) 3600
    (cps "c2_KnowledgeAgent") (cps "thread_2")
    (put_result 0 (cps "c1_KnowledgeAgent") (cps "thread_1") ThreadCache_init)
  = (put_result 3600 (cps "c2_KnowledgeAgent") (cps "thread_2")
       (put_result 0 (cps "c1_KnowledgeAgent") (cps "thread_1")
          ThreadCache_init),
     [Error (LogExpireError (cps "thread_1") (Exception (cps "boom")))],
     Returns tt).
Proof.
  assert (Hwf : wf (put_result 0 (cps "c1_KnowledgeAgent") (cps "thread_1")
                      ThreadCache_init)).
  { apply put_result_wf; apply (ThreadCache_init_wf 0). }
  exact (proj1 (proj2 (@release_hook_is_contained
    (fun _ => Some (Exception (cps "boom"))) 3600
    (cps "c2_KnowledgeAgent") (cps "thread_2") _ Hwf))).
Defined.

Lemma put_result_drops_expired (t : Q) (key value k : pystr) (c : TTLCache) :
  wf c -> live_key t (ring c) k = false -> k <> key ->
  assoc k (data (put_result t key value c)) = None.
Proof.
  intros Hwf Hl Hne. rewrite put_result_assoc_other by assumption.
  assert (Hn : assoc k (data (purged t c)) = None).
  { rewrite purged_assoc, Hl by assumption. reflexivity. }
  destruct (evicted key (purged t c)) as [|[k0 v0] ?]; [exact Hn|].
  cbn [without data]. apply assoc_none_iff. rewrite keys_remove_key.
  apply assoc_none_iff in Hn. tauto.
Qed.

Lemma aged_link_dead (t t0 life : Q) (k : pystr) (r : list (pystr * Q)) :
  NoDup (keys r) -> In (k, (t0 + life)%Q) r -> (life <= t - t0)%Q ->
  live_key t r k = false.
Proof.
  intros Hnd Hin Hage. unfold live_key.
  rewrite (in_assoc_nodup _ _ _ Hnd Hin). apply Qltb_ge. lra.
Qed.

(** The same for the expiry time a write stores, at a float reading of
    the clock. *)
Lemma float_link_dead (t t0 life : Q) (k : pystr) (r : list (pystr * Q)) :
  NoDup (keys r) -> (Float.fl t == t)%Q ->
  In (k, Float.add t0 life) r -> (life <= t - t0)%Q ->
  live_key t r k = false.
Proof.
  intros Hnd Hfl Hin Hage. unfold live_key.
  rewrite (in_assoc_nodup _ _ _ Hnd Hin). apply Qltb_ge.
  rewrite <- Hfl. apply FloatFacts.fl_monotone. lra.
Qed.

(** The expiry time is a rounded sum.  An item written at the float
    nearest to 0.1 expires at the float nearest to 3600.1, which is below
    the exact sum: a read at that reading of the clock misses the item,
    less than 3600 seconds after the write. *)
Example expiry_time_is_rounded :
  Float.fl (3602879701896397 # 36028797018963968)
  = (3602879701896397 # 36028797018963968)%Q
  /\ Float.add (3602879701896397 # 36028797018963968) 3600
     = (7916703622312755 # 2199023255552)%Q
  /\ ((7916703622312755 # 2199023255552)
      - (3602879701896397 # 36028797018963968) < 3600)%Q
  /\ TTLCache_get (7916703622312755 # 2199023255552)
       (cps "c1_KnowledgeAgent")
       (put_result (3602879701896397 # 36028797018963968)
          (cps "c1_KnowledgeAgent") (cps "thread_1") ThreadCache_init)
     = (put_result (3602879701896397 # 36028797018963968)
          (cps "c1_KnowledgeAgent") (cps "thread_1") ThreadCache_init,
        [], Returns None).
Proof.
  split; [vm_compute; reflexivity|]. split; [vm_compute; reflexivity|].
  split; [vm_compute; reflexivity|]. vm_compute. reflexivity.
Qed.

Lemma ThreadCache_inv_init (t : Q) : ThreadCache_inv t ThreadCache_init.
Proof.
  destruct (ThreadCache_init_wf t) as [H1 H2].
  split; [exact H1|]. split; [exact H2|]. split; reflexivity.
Qed.

Lemma ThreadCache_inv_put (t : Q) (key value : pystr) (c : TTLCache) :
  ThreadCache_inv t c -> ThreadCache_inv t (put_result t key value c).
Proof.
  intros (Hwf & Hw & Hm & Ht).
  destruct (put_result_wf key value Hwf Hw) as [H1 H2].
  split; [exact H1|]. split; [exact H2|]. split; assumption.
Qed.

Lemma ThreadCache_inv_get (t : Q) (key : pystr) (c : TTLCache) :
  ThreadCache_inv t c -> ThreadCache_inv t (get_state t key c).
Proof.
  intros (Hwf & Hw & Hm & Ht).
  destruct (get_state_ring t key c) as (Er & Et & Em).
  split; [now apply get_state_wf|]. split; [|split; congruence].
  unfold written_by. now rewrite Er, Et.
Qed.

Lemma ThreadCache_inv_later (t t' : Q) (c : TTLCache) :
  ThreadCache_inv t c -> (t <= t')%Q -> ThreadCache_inv t' c.
Proof.
  intros (Hwf & Hw & Hm & Ht) Hle.
  split; [exact Hwf|]. split; [|split; assumption].
  eapply written_by_later; eauto.
Qed.

(** C7 (amended): the cache is created with capacity 1000 and a TTL of
    3600 seconds.  On every state of it, a write returns normally and
    leaves at most 1000 items (and a state of the same kind); a write of a
    new key into a cache that is still full once the expired items are
    purged evicts exactly the first, least recently used, of the remaining
    items, and any other write evicts nothing; an item whose age has
    reached the TTL is removed by the next write and is not returned by a
    read, wherever it stands in the recency order, while the read itself
    leaves the cache as it is.  The last part is stated twice: for an
    expiry time that is the exact sum of the time of the write and the
    TTL, and for the float sum the write stores, read at a clock reading
    that is a float. *)
Theorem ThreadCache_capacity_lru_ttl (hook_raises : pystr -> option exn)
    (t : Q) (key value : pystr) (c : TTLCache) :
  ThreadCache_inv t c ->
  maxsize ThreadCache_init = 1000 /\ ttl ThreadCache_init = 3600%Q
  /\ exists c' tr,
       TTLCache_setitem hook_raises t key value c = (c', tr, Returns tt)
       /\ ThreadCache_inv t c'
       /\ currsize c' <= 1000
       /\ (assoc key (data (purged t c)) = None ->
           currsize (purged t c) = 1000 ->
           exists k0 v0 rest,
             data (purged t c) = (k0, v0) :: rest
             /\ data c' = rest ++ [(key, value)])
       /\ (assoc key (data (purged t c)) <> None
           \/ currsize (purged t c) < 1000 ->
           data c' = remove_key key (data (purged t c)) ++ [(key, value)])
       /\ (forall k t0, In (k, (t0 + 3600)%Q) (ring c) ->
             (3600 <= t - t0)%Q ->
             (k <> key -> assoc k (data c') = None)
             /\ TTLCache_get t k c = (c, [], Returns None))
       /\ (forall k t0, (Float.fl t == t)%Q ->
             In (k, Float.add t0 3600) (ring c) ->
             (3600 <= t - t0)%Q ->
             (k <> key -> assoc k (data c') = None)
             /\ TTLCache_get t k c = (c, [], Returns None)).
Proof.
  intros Hinv. pose proof Hinv as (Hwf & Hw & Hm & Ht).
  split; [reflexivity|]. split; [reflexivity|].
  exists (put_result t key value c). eexists.
  split; [now apply TTLCache_setitem_run|].
  pose proof (ThreadCache_inv_put key value Hinv) as Hinv'.
  split; [exact Hinv'|].
  pose proof (purged_wf t Hwf) as Hwf1.
  assert (Hm1 : maxsize (purged t c) = 1000) by exact Hm.
  split; [|split; [|split; [|split]]].
  - destruct Hinv' as (Hwf' & _ & Hm' & _).
    pose proof (wf_size Hwf'). lia.
  - intros Hnew Hfull.
    destruct (evicted_cases key Hwf1)
      as [[E [Hc|Hc]] | [k0 [v0 [rest [Hd [E _]]]]]]; [congruence|lia|].
    exists k0, v0, rest. split; [exact Hd|].
    unfold put_result. rewrite E. cbn [without data]. rewrite Hd.
    pose proof (wf_data Hwf1) as Hnd. rewrite Hd in Hnd.
    inversion Hnd as [|? ? Hni _]; subst. simpl.
    destruct (pystr_eq_dec k0 k0); [|congruence].
    rewrite Hd in Hnew. simpl in Hnew.
    destruct (pystr_eq_dec key k0); [discriminate|].
    rewrite (remove_key_absent k0 rest Hni).
    rewrite remove_key_absent; [reflexivity|now apply assoc_none_iff].
  - intros Hc.
    destruct (evicted_cases key Hwf1)
      as [[E _] | [k0 [v0 [rest [Hd [E [Hn Hf]]]]]]].
    + unfold put_result. rewrite E. reflexivity.
    + destruct Hc as [Hc|Hc]; [congruence|lia].
  - intros k t0 Hin Hage.
    assert (Hl : live_key t (ring c) k = false).
    { rewrite <- Ht in Hin, Hage.
      eapply aged_link_dead; eauto. apply (wf_ring Hwf). }
    split.
    + intros Hne. now apply put_result_drops_expired.
    + rewrite (TTLCache_get_run t k Hwf). unfold get_state.
      now rewrite Hl.
  - intros k t0 Hfl Hin Hage.
    assert (Hl : live_key t (ring c) k = false).
    { eapply float_link_dead; eauto. apply (wf_ring Hwf). }
    split.
    + intros Hne. now apply put_result_drops_expired.
    + rewrite (TTLCache_get_run t k Hwf). unfold get_state.
      now rewrite Hl.
Qed.

Lemma ThreadCache_capacity_lru_ttl_witness :
  exists c' tr,
    TTLCache_setitem (fun _ => None) 3600
      (cps "c2_KnowledgeAgent") (cps "thread_2")
      (put_result 0 (cps "c1_KnowledgeAgent") (cps "thread_1")
         ThreadCache_init)
    = (c', tr, Returns tt)
    /\ currsize c' <= 1000
    /\ assoc (cps "c1_KnowledgeAgent") (data c') = None.
Proof.
  assert (Hinv : ThreadCache_inv 3600
    (put_result 0 (cps "c1_KnowledgeAgent") (cps "thread_1")
       ThreadCache_init)).
  { apply ThreadCache_inv_later with (t := 0%Q); [|lra].
    apply ThreadCache_inv_put, ThreadCache_inv_init. }
  destruct (@ThreadCache_capacity_lru_ttl (fun _ => None) 3600
              (cps "c2_KnowledgeAgent") (cps "thread_2") _ Hinv)
    as (_ & _ & c' & tr & Hrun & _ & Hsz & _ & _ & Httl & _).
  exists c', tr. split; [exact Hrun|]. split; [exact Hsz|].
  apply (Httl (cps "c1_KnowledgeAgent") 0%Q).
  - left. reflexivity.
  - lra.
  - discriminate.
Defined.

(** C7, counterexample to "purged on the next cache operation": an item
    written at time 0 and looked up at time 3600 is reported absent, but
    the lookup leaves it in the cache and calls no release hook. *)
Lemma expired_item_survives_get :
  TTLCache_setitem (fun _ => None) 0
    (cps "c1_KnowledgeAgent") (cps "thread_1") ThreadCache_init
  = ({| maxsize := 1000; ttl := 3600;
        data := [(cps "c1_KnowledgeAgent", cps "thread_1")];
        ring := [(cps "c1_KnowledgeAgent", 0 + 3600)%Q] |}, [], Returns tt)
  /\ TTLCache_get 3600 (cps "c1_KnowledgeAgent")
       {| maxsize := 1000; ttl := 3600;
          data := [(cps "c1_KnowledgeAgent", cps "thread_1")];
          ring := [(cps "c1_KnowledgeAgent", 0 + 3600)%Q] |}
     = ({| maxsize := 1000; ttl := 3600;
           data := [(cps "c1_KnowledgeAgent", cps "thread_1")];
           ring := [(cps "c1_KnowledgeAgent", 0 + 3600)%Q] |},
        [], Returns None).
Proof. split; reflexivity. Qed.

(** ** Termination and effects of the cache methods on any state *)

Lemma logs_are_not_invocations (tr : list event) :
  forallb is_log tr = true ->
  forallb (fun ev => negb (is_invoke ev)) tr = true.
Proof.
  rewrite !forallb_forall. intros H ev Hin. specialize (H ev Hin).
  destruct ev; simpl in *; congruence.
Qed.

Section Quiet.
Context {A B : Type}.

Lemma quiet_ret (a : A) : quiet (ret a).
Proof. intros c. simpl. repeat split; auto; discriminate. Qed.

Lemma quiet_raise (e : exn) : quiet (@raise TTLCache A e).
Proof. intros c. simpl. repeat split; auto; discriminate. Qed.

Lemma quiet_bind (m : M TTLCache A) (f : A -> M TTLCache B) :
  quiet m -> (forall a, quiet (f a)) -> quiet (bind m f).
Proof.
  intros Hm Hf c. unfold bind. specialize (Hm c).
  destruct (m c) as [[c1 tr1] o1]. simpl in Hm.
  destruct Hm as (Hmax & Hsz & Hlog & Ho).
  destruct o1 as [a| | |]; simpl;
    [|repeat split; auto|contradiction|contradiction].
  specialize (Hf a c1). destruct (f a c1) as [[c2 tr2] o2]. simpl in *.
  destruct Hf as (Hmax2 & Hsz2 & Hlog2 & Ho2).
  repeat split; [congruence|lia| |exact Ho2].
  rewrite forallb_app, Hlog, Hlog2. reflexivity.
Qed.

Lemma strict_bind_l (m : M TTLCache A) (f : A -> M TTLCache B) :
  strict m -> (forall a, quiet (f a)) -> strict (bind m f).
Proof.
  intros Hm Hf c b. unfold bind. specialize (Hm c).
  destruct (m c) as [[c1 tr1] o1]. simpl in Hm.
  destruct o1 as [a| | |]; simpl; [|discriminate|discriminate|discriminate].
  specialize (Hf a c1). specialize (Hm a eq_refl).
  destruct (f a c1) as [[c2 tr2] o2]. simpl in *.
  intros _. destruct Hf as (_ & Hsz & _). lia.
Qed.

Lemma strict_bind_r (m : M TTLCache A) (f : A -> M TTLCache B) :
  quiet m -> (forall a, strict (f a)) -> strict (bind m f).
Proof.
  intros Hm Hf c b. unfold bind. specialize (Hm c).
  destruct (m c) as [[c1 tr1] o1]. simpl in Hm.
  destruct Hm as (_ & Hsz & _).
  destruct o1 as [a| | |]; simpl; [|discriminate|discriminate|discriminate].
  specialize (Hf a c1 b).
  destruct (f a c1) as [[c2 tr2] o2]. simpl in *.
  intros H. specialize (Hf H). lia.
Qed.

End Quiet.

Lemma quiet_get : quiet (@get TTLCache).
Proof. intros c. simpl. repeat split; auto; discriminate. Qed.

Lemma quiet_modify (f : TTLCache -> TTLCache) :
  (forall c, maxsize (f c) = maxsize c /\ currsize (f c) <= currsize c) ->
  quiet (modify f).
Proof.
  intros H c. simpl. destruct (H c). repeat split; auto; discriminate.
Qed.

Lemma quiet_hook (body : M TTLCache unit) (h : exn -> M TTLCache unit) :
  quiet body -> (forall e, quiet (h e)) -> quiet (try_except body h).
Proof.
  intros Hb Hh c. unfold try_except. specialize (Hb c).
  destruct (body c) as [[c1 tr1] o1]. simpl in Hb.
  destruct Hb as (Hmax & Hsz & Hlog & Ho).
  destruct o1 as [a|e| |]; simpl;
    [repeat split; auto| |contradiction|contradiction].
  specialize (Hh e c1). destruct (h e c1) as [[c2 tr2] o2]. simpl in *.
  destruct Hh as (Hmax2 & Hsz2 & Hlog2 & Ho2).
  repeat split; [congruence|lia| |exact Ho2].
  rewrite forallb_app, Hlog, Hlog2. reflexivity.
Qed.

Lemma quiet_emit (ev : event) : is_log ev = true -> quiet (emit ev).
Proof.
  intros H c. simpl. rewrite H. repeat split; auto; discriminate.
Qed.

Lemma remove_key_shrinks (k : pystr) (c : TTLCache) :
  maxsize (set_data (remove_key k) c) = maxsize c
  /\ currsize (set_data (remove_key k) c) <= currsize c.
Proof.
  split; [reflexivity|]. unfold currsize. simpl.
  rewrite remove_key_filter. apply filter_length_le.
Qed.

Lemma move_to_end_shrinks (k : pystr) (c : TTLCache) :
  maxsize (set_data (move_to_end k) c) = maxsize c
  /\ currsize (set_data (move_to_end k) c) <= currsize c.
Proof.
  split; [reflexivity|]. unfold currsize, move_to_end. simpl.
  destruct (assoc k (data c)) as [v|] eqn:E; [|lia].
  rewrite length_app. simpl.
  pose proof (remove_key_length k (data c) (assoc_keys _ _ E)). lia.
Qed.

Lemma set_ring_shrinks (f : list (pystr * Q) -> list (pystr * Q))
    (c : TTLCache) :
  maxsize (set_ring f c) = maxsize c
  /\ currsize (set_ring f c) <= currsize c.
Proof. split; [reflexivity|]. unfold currsize. simpl. lia. Qed.

Ltac quiet_step :=
  first
    [ apply quiet_ret | apply quiet_raise | apply quiet_get
    | apply quiet_modify; intros;
      first [apply remove_key_shrinks | apply move_to_end_shrinks
            | apply set_ring_shrinks]
    | apply quiet_emit; reflexivity
    | apply quiet_bind; [|intros]
    | apply quiet_hook; [|intros]
    | match goal with
      | |- quiet (match ?x with _ => _ end) => destruct x
      end ].

Section QuietMethods.
Variable hook_raises : pystr -> option exn.
Variable t : Q.

Lemma Cache_getitem_quiet (k : pystr) : quiet (Cache_getitem k).
Proof. unfold Cache_getitem. repeat quiet_step. Qed.

Lemma Cache_delitem_quiet (k : pystr) : quiet (Cache_delitem k).
Proof. unfold Cache_delitem. repeat quiet_step. Qed.

Lemma Cache_delitem_strict (k : pystr) : strict (Cache_delitem k).
Proof.
  intros c a. unfold Cache_delitem, bind, get.
  destruct (assoc k (data c)) as [v|] eqn:E; simpl; [|discriminate].
  intros _. unfold currsize. simpl.
  apply remove_key_length. eapply assoc_keys; eauto.
Qed.

Lemma TTLCache_contains_quiet (k : pystr) : quiet (TTLCache_contains t k).
Proof. unfold TTLCache_contains. repeat quiet_step. Qed.

Lemma TTLCache_getitem_quiet (k : pystr) : quiet (TTLCache_getitem t k).
Proof.
  unfold TTLCache_getitem.
  repeat first [apply Cache_getitem_quiet | quiet_step].
Qed.

Lemma TTLCache_get_quiet (k : pystr) : quiet (TTLCache_get t k).
Proof.
  unfold TTLCache_get.
  repeat first [apply TTLCache_contains_quiet | apply TTLCache_getitem_quiet
               | quiet_step].
Qed.

Lemma TTLCache_delitem_quiet (k : pystr) : quiet (TTLCache_delitem t k).
Proof.
  unfold TTLCache_delitem.
  repeat first [apply Cache_delitem_quiet | quiet_step].
Qed.

Lemma TTLCache_delitem_strict (k : pystr) : strict (TTLCache_delitem t k).
Proof.
  unfold TTLCache_delitem. apply strict_bind_l.
  - apply Cache_delitem_strict.
  - intros _. repeat quiet_step.
Qed.

Lemma Cache_pop_quiet (k : pystr) : quiet (Cache_pop t k).
Proof.
  unfold Cache_pop.
  repeat first [apply TTLCache_contains_quiet | apply TTLCache_getitem_quiet
               | apply TTLCache_delitem_quiet | quiet_step].
Qed.

Lemma Cache_pop_strict (k : pystr) : strict (Cache_pop t k).
Proof.
  unfold Cache_pop. apply strict_bind_r; [apply TTLCache_contains_quiet|].
  intros [|].
  - apply strict_bind_r; [apply TTLCache_getitem_quiet|]. intros v.
    apply strict_bind_l; [apply TTLCache_delitem_strict|].
    intros _. apply quiet_ret.
  - intros c a. simpl. discriminate.
Qed.

Lemma expire_links_quiet (r : list (pystr * Q)) : quiet (expire_links t r).
Proof.
  induction r as [|[k e] r IH]; simpl.
  - apply quiet_ret.
  - destruct (Qltb t e); [apply quiet_ret|].
    repeat first [apply Cache_getitem_quiet | apply Cache_delitem_quiet
                 | apply IH | quiet_step].
Qed.

Lemma log_expired_quiet (items : list (pystr * pystr)) :
  quiet (log_expired hook_raises items).
Proof.
  induction items as [|[k v] items IH]; simpl.
  - apply quiet_ret.
  - repeat first [apply IH | quiet_step].
Qed.

Lemma ThreadCache_expire_quiet : quiet (ThreadCache_expire hook_raises t).
Proof.
  unfold ThreadCache_expire, TTLCache_expire.
  repeat first [apply expire_links_quiet | apply log_expired_quiet
               | quiet_step].
Qed.

Lemma ThreadCache_popitem_quiet : quiet (ThreadCache_popitem hook_raises t).
Proof.
  unfold ThreadCache_popitem, TTLCache_popitem.
  repeat first [apply ThreadCache_expire_quiet | apply Cache_pop_quiet
               | quiet_step].
Qed.

Lemma ThreadCache_popitem_strict : strict (ThreadCache_popitem hook_raises t).
Proof.
  unfold ThreadCache_popitem. apply strict_bind_l.
  - unfold TTLCache_popitem.
    apply strict_bind_r; [apply ThreadCache_expire_quiet|]. intros _.
    apply strict_bind_r; [apply quiet_get|]. intros c.
    destruct (data c) as [|[k v] rest].
    + intros c' a. simpl. discriminate.
    + apply strict_bind_l; [apply Cache_pop_strict|].
      intros v'. apply quiet_ret.
  - intros kv. repeat quiet_step.
Qed.

(** The eviction loop ends before its fuel does. *)
Lemma make_room_quiet (fuel : nat) :
  forall c, currsize c <= fuel -> 1 <= maxsize c ->
  maxsize (fst (fst (make_room hook_raises t fuel c))) = maxsize c
  /\ forallb is_log (snd (fst (make_room hook_raises t fuel c))) = true
  /\ finishes (snd (make_room hook_raises t fuel c)).
Proof.
  induction fuel as [|fuel IH]; intros c Hsz Hmax.
  - simpl. unfold bind, get.
    assert (E : (maxsize c <? currsize c + 1) = false).
    { apply Nat.ltb_ge. lia. }
    rewrite E. simpl. repeat split; auto.
  - assert (Hstep : make_room hook_raises t (S fuel) c
        = if maxsize c <? currsize c + 1
          then bind (ThreadCache_popitem hook_raises t)
                 (fun _ => make_room hook_raises t fuel) c
          else (c, [], Returns tt)).
    { simpl. unfold bind at 1, get at 1.
      destruct (maxsize c <? currsize c + 1); [|reflexivity].
      destruct (bind (ThreadCache_popitem hook_raises t)
                  (fun _ => make_room hook_raises t fuel) c) as [[? ?] ?].
      reflexivity. }
    rewrite Hstep. clear Hstep.
    destruct (maxsize c <? currsize c + 1) eqn:E;
      [|simpl; repeat split; auto].
    unfold bind.
    pose proof (ThreadCache_popitem_quiet c) as Hq.
    pose proof (ThreadCache_popitem_strict c) as Hs.
    destruct (ThreadCache_popitem hook_raises t c) as [[c1 tr1] o1].
    simpl in Hq, Hs. destruct Hq as (Hm1 & Hsz1 & Hlog1 & Ho1).
    destruct o1 as [kv|e| |];
      [|simpl; repeat split; auto|contradiction|contradiction].
    specialize (Hs kv eq_refl).
    assert (H1 : currsize c1 <= fuel) by lia.
    assert (H2 : 1 <= maxsize c1) by lia.
    destruct (IH c1 H1 H2) as (Hm2 & Hlog2 & Ho2).
    destruct (make_room hook_raises t fuel c1) as [[c2 tr2] o2].
    simpl in *. repeat split; [congruence| |exact Ho2].
    rewrite forallb_app, Hlog1, Hlog2. reflexivity.
Qed.

(** A write only logs, and terminates, on every state. *)
Lemma TTLCache_setitem_logs (key value : pystr) (c c' : TTLCache)
    (tr : list event) (o : outcome unit) :
  TTLCache_setitem hook_raises t key value c = (c', tr, o) ->
  forallb is_log tr = true /\ finishes o.
Proof.
  unfold TTLCache_setitem. unfold bind at 1.
  pose proof (ThreadCache_expire_quiet c) as Hq.
  destruct (ThreadCache_expire hook_raises t c) as [[c1 tr1] o1].
  simpl in Hq. destruct Hq as (Hm1 & Hsz1 & Hlog1 & Ho1).
  destruct o1 as [items|e| |]; [| |contradiction|contradiction].
  2: { intros H. injection H as <- <- <-. split; [auto|exact I]. }
  unfold bind at 1. unfold Cache_setitem. unfold bind at 1, get at 1.
  destruct (maxsize c1 <? 1) eqn:Em.
  { simpl. intros H. injection H as <- <- <-.
    rewrite app_nil_r. split; [auto|exact I]. }
  apply Nat.ltb_ge in Em.
  unfold bind at 1.
  assert (Hroom : forall c2 tr2 o2,
    (match assoc key (data c1) with
     | None => make_room hook_raises t (currsize c1)
     | Some _ => ret tt
     end) c1 = (c2, tr2, o2) ->
    forallb is_log tr2 = true /\ finishes o2).
  { intros c2 tr2 o2. destruct (assoc key (data c1)).
    - intros H. injection H as <- <- <-. split; [auto|exact I].
    - destruct (@make_room_quiet (currsize c1) c1 (Nat.le_refl _) Em)
        as (_ & H1 & H2).
      intros H. rewrite H in H1, H2. auto. }
  destruct ((match assoc key (data c1) with
             | None => make_room hook_raises t (currsize c1)
             | Some _ => ret tt
             end) c1) as [[c2 tr2] o2].
  destruct (Hroom _ _ _ eq_refl) as [Hlog2 Ho2].
  destruct o2 as [[]|e| |]; [| |contradiction|contradiction].
  - unfold modify, bind, get. simpl. intros H. injection H as <- <- <-.
    split; [|exact I].
    rewrite !app_nil_r, forallb_app, Hlog1, Hlog2. reflexivity.
  - simpl. intros H. injection H as <- <- <-. split; [|exact I].
    rewrite forallb_app, Hlog1, Hlog2. reflexivity.
Qed.

End QuietMethods.

(** ** [respond] on any state *)

Section RespondAny.
Variable U : unicode.
Variable hook_raises : pystr -> option exn.
Variable invoke : AzureAIAgent -> pystr -> option pystr -> stream.
Variable now : Q.

Lemma cache_write_tame (t : Q) (k v : pystr)
    (s : SimpleFoundryOrchestrator) :
  tame s ((emit (CacheSet k v) ;;;
           on_cache (TTLCache_setitem hook_raises t k v)) s).
Proof.
  unfold tame, bind, emit, on_cache, zoom.
  destruct (TTLCache_setitem hook_raises t k v (thread_cache s))
    as [[c' tr'] o'] eqn:E.
  apply TTLCache_setitem_logs in E. destruct E as [Hlog Ho].
  apply logs_are_not_invocations in Hlog.
  destruct o'; simpl; auto; contradiction.
Qed.

Lemma drain_tame (conversation_id : option pystr) (target : pystr)
    (items : list message) :
  forall acc s, tame s (drain hook_raises conversation_id target items acc s).
Proof.
  induction items as [|m items IH]; intros acc s.
  - unfold tame. simpl. repeat split; auto.
  - simpl. unfold bind at 1.
    assert (Hw : tame s
      ((match conv_true conversation_id, thread m with
        | Some cid, Some tid =>
            emit (CacheSet (cache_key cid target) tid) ;;;
            on_cache (TTLCache_setitem hook_raises (arrival m)
                        (cache_key cid target) tid)
        | _, _ => ret tt
        end) s)).
    { destruct (conv_true conversation_id) as [cid|];
        [destruct (thread m) as [tid|]|];
        try (unfold tame; simpl; repeat split; auto; fail).
      apply cache_write_tame. }
    destruct ((match conv_true conversation_id, thread m with
               | Some cid, Some tid => _
               | _, _ => ret tt
               end) s) as [[s1 tr1] o1].
    unfold tame in Hw. simpl in Hw. destruct Hw as (Hn1 & Ho1 & Ha1 & Hc1).
    destruct o1 as [[]|e| |]; [| |contradiction|contradiction].
    + match goal with |- context [drain _ _ _ _ ?a s1] =>
        specialize (IH a s1) end.
      destruct (drain hook_raises conversation_id target items _ s1)
        as [[s2 tr2] o2].
      unfold tame in *. simpl in *. destruct IH as (Hn2 & Ho2 & Ha2 & Hc2).
      repeat split; [|exact Ho2|congruence|congruence].
      rewrite forallb_app, Hn1, Hn2. reflexivity.
    + unfold tame. simpl. repeat split; auto.
Qed.

Lemma lookup_thread_tame (conversation_id : option pystr) (target : pystr)
    (s : SimpleFoundryOrchestrator) :
  tame s (lookup_thread now conversation_id target s).
Proof.
  unfold lookup_thread.
  destruct (conv_true conversation_id) as [cid|];
    [|unfold tame; simpl; repeat split; auto].
  unfold bind, emit, on_cache, zoom.
  pose proof (TTLCache_get_quiet now (cache_key cid target) (thread_cache s))
    as Hq.
  destruct (TTLCache_get now (cache_key cid target) (thread_cache s))
    as [[c' tr'] o'].
  simpl in Hq. destruct Hq as (_ & _ & Hlog & Ho).
  apply logs_are_not_invocations in Hlog.
  destruct o' as [[tid|]|e| |]; [| | |contradiction|contradiction];
    [destruct (truthy tid)| |];
    unfold tame, ret; simpl;
    rewrite ?app_nil_r, ?forallb_app, ?Hlog; repeat split; auto.
Qed.

End RespondAny.

Lemma cps_app_nonempty (a : string) (rest : pystr) :
  a <> ""%string -> cps a ++ rest <> [].
Proof.
  destruct a as [|ch a]; [congruence|]. intros _. discriminate.
Qed.

Lemma truthy_nonempty (s : pystr) : truthy s = true <-> s <> [].
Proof. destruct s; simpl; split; congruence. Qed.

Ltac returns_error :=
  do 3 eexists; split; [reflexivity|]; left;
  eexists; split; [reflexivity|]; right;
  eexists; eexists; (split; [|split]); [| |reflexivity];
  simpl; discriminate.

(** On every state [respond] returns one of its two kinds of dict, unless
    the stream of the agent it invoked ends in an exception that is not an
    instance of [Exception], which passes through [respond]. *)
Lemma respond_total (U : unicode)
    (hook_raises : pystr -> option exn)
    (invoke : AzureAIAgent -> pystr -> option pystr -> stream)
    (now : Q) (user_text : pystr) (conversation_id : option pystr)
    (self : SimpleFoundryOrchestrator) :
  exists self' tr o,
    respond U hook_raises invoke now user_text conversation_id self
    = (self', tr, o)
    /\ ((exists d, o = Returns d /\ (is_success U d \/ is_error d))
        \/ (exists b agent th,
              o = Escapes b
              /\ In (Invoke agent user_text th) tr
              /\ snd (invoke agent user_text th) = Some (Base b))).
Proof.
  unfold respond. unfold bind at 1, get at 1.
  destruct (is_configured self); cbn [negb].
  2: { unfold bind, emit, ret. simpl. returns_error. }
  destruct (_determine_target_agent U user_text) as [line target].
  unfold try_except. unfold bind at 1, emit at 1.
  destruct (assoc target (agents self)) as [agent|].
  2: { unfold bind, emit, ret. simpl. returns_error. }
  unfold bind at 1, emit at 1. unfold bind at 1.
  pose proof (lookup_thread_tame now conversation_id target self) as Hl.
  destruct (lookup_thread now conversation_id target self)
    as [[s1 tr1] o1].
  destruct Hl as (_ & Ho1 & _). simpl in Ho1.
  destruct o1 as [th|e| |]; [| |contradiction|contradiction].
  2: { unfold bind, emit, ret. simpl. returns_error. }
  unfold bind at 1, emit at 1. unfold bind at 1.
  pose proof (drain_tame hook_raises conversation_id target
                (fst (invoke agent user_text th)) [] s1) as Hd.
  destruct (drain hook_raises conversation_id target
              (fst (invoke agent user_text th)) [] s1) as [[s2 tr2] o2].
  destruct Hd as (_ & Ho2 & _). simpl in Ho2.
  destruct o2 as [text|e| |]; [| |contradiction|contradiction].
  2: { unfold bind, emit, ret. simpl. returns_error. }
  destruct (snd (invoke agent user_text th)) as [[e|b]|] eqn:Efin.
  { unfold raise, bind, emit, ret. simpl. returns_error. }
  { unfold escape. simpl. do 3 eexists. split; [reflexivity|]. right.
    exists b, agent, th. split; [reflexivity|]. split; [|exact Efin].
    right. right. apply in_or_app. right. now left. }
  destruct (truthy text) eqn:Et.
  - unfold bind, emit, ret. simpl.
    do 3 eexists. split; [reflexivity|]. left.
    eexists. split; [reflexivity|]. left.
    exists text. split; [now apply truthy_nonempty|reflexivity].
  - unfold bind, emit, ret. simpl. returns_error.
Qed.

(** C6, counterexample.  First, the dict returned by an unconfigured
    orchestrator has no [messages] and no [awaiting_user] entry, so it is
    not of the shape the specification gives.  Second, when the task is
    cancelled while [respond] awaits the stream of the agent, the
    [CancelledError] is not an instance of [Exception]: the handler does
    not catch it and [respond] propagates it to its caller, after the
    thread handle the stream had yielded was cached. *)
Lemma error_dict_lacks_fields_and_cancellation_propagates :
  (respond ascii_db (fun _ => None) (fun _ _ _ => ([], None)) 0
     (cps "anything") (Some (cps "conv-1")) (init false)
   = (init false, [Error LogNotConfigured],
      Returns
        [("error"%string,
          VStr (cps "Simple Foundry orchestrator not configured"));
         ("text"%string,
          VStr (cps "I'm sorry, the AI service is not properly configured."))])
   /\ ~ spec_Response_shape
        [("error"%string,
          VStr (cps "Simple Foundry orchestrator not configured"));
         ("text"%string,
          VStr (cps "I'm sorry, the AI service is not properly configured."))])
  /\ respond ascii_db (fun _ => None)
       (fun _ _ _ =>
          ([{| content := Some (cps "I found ");
               thread := Some (cps "thread_1"); arrival := 5 |}],
           Some (Base CancelledError)))
       4 (cps "Show me blue paint") (Some (cps "conv-7"))
       {| agents := [(ProductLookupAgent,
                      {| agent_name := ProductLookupAgent;
                         agent_id := cps "asst_1" |})];
          is_configured := true; thread_cache := ThreadCache_init |}
     = ({| agents := [(ProductLookupAgent,
                       {| agent_name := ProductLookupAgent;
                          agent_id := cps "asst_1" |})];
           is_configured := true;
           thread_cache :=
             {| maxsize := 1000; ttl := 3600;
                data := [(cps "conv-7_ProductLookupAgent", cps "thread_1")];
                ring := [(cps "conv-7_ProductLookupAgent", 5 + 3600)%Q] |} |},
        [Info (LogRouteProductScore 1);
         Info (LogUsing ProductLookupAgent (cps "Show me blue paint"));
         CacheGet (cps "conv-7_ProductLookupAgent");
         Invoke {| agent_name := ProductLookupAgent;
                   agent_id := cps "asst_1" |}
           (cps "Show me blue paint") None;
         CacheSet (cps "conv-7_ProductLookupAgent") (cps "thread_1")],
        Escapes CancelledError).
Proof.
  split; [split; [reflexivity|]|].
  - intros (_ & [l Hl] & _). simpl in Hl. discriminate.
  - vm_compute. reflexivity.
Qed.

(** C4: when [is_configured] is false, every call of [respond] returns the
    fixed error dict, with a non-empty [error] and the fallback [text];
    the orchestrator and its cache are unchanged, and the only event of
    the call is the error line of the log: no agent is invoked, nothing is
    classified and the thread cache is neither read nor written. *)
Theorem unconfigured_respond (U : unicode)
    (hook_raises : pystr -> option exn)
    (invoke : AzureAIAgent -> pystr -> option pystr -> stream)
    (now : Q) (user_text : pystr) (conversation_id : option pystr)
    (self : SimpleFoundryOrchestrator) :
  is_configured self = false ->
  exists tr error text,
    respond U hook_raises invoke now user_text conversation_id self
    = (self, tr, Returns [("error"%string, VStr error);
                          ("text"%string, VStr text)])
    /\ error = cps "Simple Foundry orchestrator not configured"
    /\ error <> []
    /\ text = cps "I'm sorry, the AI service is not properly configured."
    /\ tr = [Error LogNotConfigured]
    /\ invocations tr = []
    /\ filter is_routing_log tr = []
    /\ filter is_cache_access tr = [].
Proof.
  intros Hc. unfold respond. unfold bind at 1, get at 1. rewrite Hc.
  do 3 eexists. split; [reflexivity|].
  repeat split. discriminate.
Qed.

Lemma unconfigured_respond_witness :
  exists tr error text,
    respond ascii_db (fun _ => None)
      (fun _ _ _ => ([{| content := Some (cps "never used");
                         thread := Some (cps "thread_9");
                         arrival := 1 |}], None))
      0 (cps "what products do you offer") (Some (cps "conv-1"))
      (init false)
    = (init false, tr, Returns [("error"%string, VStr error);
                                ("text"%string, VStr text)])
    /\ error <> [] /\ invocations tr = []
    /\ filter is_cache_access tr = [].
Proof.
  destruct (@unconfigured_respond ascii_db (fun _ => None)
    (fun _ _ _ => ([{| content := Some (cps "never used");
                       thread := Some (cps "thread_9");
                       arrival := 1 |}], None))
    0 (cps "what products do you offer") (Some (cps "conv-1"))
    (init false) eq_refl)
    as (tr & error & text & H1 & _ & H2 & _ & _ & H3 & _ & H4).
  exists tr, error, text. auto.
Defined.

(** ** [respond] on the states of a running orchestrator *)

Lemma set_thread_cache_same (s : SimpleFoundryOrchestrator) :
  set_thread_cache (thread_cache s) s = s.
Proof. destruct s; reflexivity. Qed.

Lemma drain_fragment (m : message) (acc : pystr) :
  match content m with
  | Some c => if truthy c then acc ++ c else acc
  | None => acc
  end = acc ++ fragment m.
Proof.
  unfold fragment. destruct (content m) as [[|ch c]|]; simpl;
    now rewrite ?app_nil_r.
Qed.

Section RespondRuns.
Variable U : unicode.
Variable hook_raises : pystr -> option exn.
Variable invoke : AzureAIAgent -> pystr -> option pystr -> stream.
Variable now : Q.

Lemma lookup_thread_run (conversation_id : option pystr) (target : pystr)
    (s : SimpleFoundryOrchestrator) :
  wf (thread_cache s) ->
  exists tr,
    lookup_thread now conversation_id target s
    = (set_thread_cache
         (looked_up now conversation_id target (thread_cache s)) s,
       tr,
       Returns (cached_thread now conversation_id target (thread_cache s)))
    /\ invocations tr = [].
Proof.
  intros Hwf. unfold lookup_thread, looked_up, cached_thread.
  destruct (conv_true conversation_id) as [cid|].
  2: { exists []. rewrite set_thread_cache_same. split; reflexivity. }
  unfold bind, emit, on_cache, zoom.
  rewrite (TTLCache_get_run now (cache_key cid target) Hwf).
  destruct (live_key now (ring (thread_cache s)) (cache_key cid target));
    [|eexists; split; reflexivity].
  destruct (assoc (cache_key cid target) (data (thread_cache s)))
    as [tid|]; [|eexists; split; reflexivity].
  destruct (truthy tid); eexists; split; reflexivity.
Qed.

End RespondRuns.

Lemma logs_no_invocations (tr : list event) :
  forallb is_log tr = true -> invocations tr = [].
Proof.
  unfold invocations. induction tr as [|ev tr IH]; simpl; [reflexivity|].
  rewrite andb_true_iff. intros [H1 H2].
  destruct ev; simpl in *; try discriminate; auto.
Qed.

Lemma invocations_app (a b : list event) :
  invocations (a ++ b) = invocations a ++ invocations b.
Proof. apply filter_app. Qed.

Lemma set_thread_cache_twice (c c' : TTLCache)
    (s : SimpleFoundryOrchestrator) :
  set_thread_cache c' (set_thread_cache c s) = set_thread_cache c' s.
Proof. reflexivity. Qed.

Lemma last_cons_default {A} (a d : A) (l : list A) :
  last (a :: l) d = last l a.
Proof.
  revert a d. induction l as [|b l IH]; intros a d; [reflexivity|].
  change (last (a :: b :: l) d) with (last (b :: l) d).
  rewrite !IH. reflexivity.
Qed.

Lemma clock_ok_step (t0 : Q) (m : message) (items : list message) :
  clock_ok t0 (m :: items) ->
  (t0 <= arrival m)%Q /\ clock_ok (arrival m) items.
Proof.
  unfold clock_ok. simpl. intros H.
  inversion H as [|? ? Hs Hall]; subst. split; [|exact Hs].
  inversion Hall; subst. assumption.
Qed.

Section DrainRuns.
Variable hook_raises : pystr -> option exn.
Variable conversation_id : option pystr.
Variable target : pystr.

Lemma drain_run (items : list message) :
  forall acc s t0,
    ThreadCache_inv t0 (thread_cache s) -> clock_ok t0 items ->
    exists tr,
      drain hook_raises conversation_id target items acc s
      = (set_thread_cache
           (after_drain conversation_id target items (thread_cache s)) s,
         tr, Returns (acc ++ response_text items))
      /\ invocations tr = []
      /\ ThreadCache_inv (last (map arrival items) t0)
           (after_drain conversation_id target items (thread_cache s)).
Proof.
  unfold after_drain.
  induction items as [|m items IH]; intros acc s t0 Hinv Hclock.
  - exists []. simpl. unfold ret, response_text. simpl.
    rewrite app_nil_r.
    destruct (conv_true conversation_id);
      rewrite set_thread_cache_same; auto.
  - destruct (clock_ok_step Hclock) as [Hle Hclock'].
    pose proof (ThreadCache_inv_later Hinv Hle) as Hinv1.
    cbn [drain map]. rewrite drain_fragment, last_cons_default.
    assert (Htext : forall a, (a ++ fragment m) ++ response_text items
                              = a ++ response_text (m :: items)).
    { intros a. unfold response_text. simpl. now rewrite app_assoc. }
    destruct (conv_true conversation_id) as [cid|] eqn:Ec.
    + destruct (thread m) as [tid|] eqn:Et.
      * pose proof Hinv1 as (Hwf1 & _).
        unfold bind at 1. unfold bind at 1, emit at 1.
        unfold on_cache, zoom.
        pose proof (TTLCache_setitem_run hook_raises (arrival m)
                      (cache_key cid target) tid Hwf1) as Hrun.
        pose proof (TTLCache_setitem_logs hook_raises (arrival m)
                      (cache_key cid target) tid (thread_cache s)) as Hcalm.
        rewrite Hrun in Hcalm |- *.
        destruct (Hcalm _ _ _ eq_refl) as [Hlog _].
        pose proof (ThreadCache_inv_put (cache_key cid target) tid Hinv1)
          as Hinv2.
        destruct (IH (acc ++ fragment m)
                    (set_thread_cache
                       (put_result (arrival m) (cache_key cid target) tid
                          (thread_cache s)) s)
                    (arrival m) Hinv2 Hclock')
          as (tr & Hd & Hni & Hinv3).
        rewrite Hd. simpl thread_cache in *.
        rewrite set_thread_cache_twice. cbn [drained_cache]. rewrite Et.
        eexists. rewrite Htext.
        split; [reflexivity|]. split; [|exact Hinv3].
        rewrite !invocations_app, Hni, <- invocations_app.
        rewrite (logs_no_invocations _ Hlog). reflexivity.
      * destruct (IH (acc ++ fragment m) s (arrival m) Hinv1 Hclock')
          as (tr & Hd & Hni & Hinv3).
        unfold bind, ret. rewrite Hd. cbn [drained_cache]. rewrite Et.
        exists tr. rewrite Htext. auto.
    + destruct (IH (acc ++ fragment m) s (arrival m) Hinv1 Hclock')
        as (tr & Hd & Hni & Hinv3).
      unfold bind, ret. rewrite Hd.
      exists tr. rewrite Htext. auto.
Qed.

End DrainRuns.

Lemma looked_up_inv (now : Q) (conversation_id : option pystr)
    (target : pystr) (c : TTLCache) :
  ThreadCache_inv now c ->
  ThreadCache_inv now (looked_up now conversation_id target c).
Proof.
  intros H. unfold looked_up.
  destruct (conv_true conversation_id); [|exact H].
  now apply ThreadCache_inv_get.
Qed.

Section RespondReady.
Variable U : unicode.
Variable hook_raises : pystr -> option exn.
Variable invoke : AzureAIAgent -> pystr -> option pystr -> stream.
Variable now : Q.

(** One call of [respond] on a configured orchestrator whose registry has
    the target agent: one invocation with the cached thread, the cache
    updated by the loop, and the dict chosen by the end of the stream. *)
Lemma respond_run (user_text : pystr) (conversation_id : option pystr)
    (s : SimpleFoundryOrchestrator) (agent : AzureAIAgent) :
  is_configured s = true ->
  ThreadCache_inv now (thread_cache s) ->
  assoc (routed U user_text) (agents s) = Some agent ->
  clock_ok now
    (fst (invoke agent user_text
            (cached_thread now conversation_id (routed U user_text)
               (thread_cache s)))) ->
  exists tr,
    respond U hook_raises invoke now user_text conversation_id s
    = (set_thread_cache
         (after_drain conversation_id (routed U user_text)
            (fst (invoke agent user_text
                    (cached_thread now conversation_id (routed U user_text)
                       (thread_cache s))))
            (looked_up now conversation_id (routed U user_text)
               (thread_cache s))) s,
       tr,
       answer U (invoke agent user_text
                   (cached_thread now conversation_id (routed U user_text)
                      (thread_cache s))))
    /\ invocations tr
       = [Invoke agent user_text
            (cached_thread now conversation_id (routed U user_text)
               (thread_cache s))]
    /\ ThreadCache_inv
         (last (map arrival
                  (fst (invoke agent user_text
                          (cached_thread now conversation_id
                             (routed U user_text) (thread_cache s))))) now)
         (after_drain conversation_id (routed U user_text)
            (fst (invoke agent user_text
                    (cached_thread now conversation_id (routed U user_text)
                       (thread_cache s))))
            (looked_up now conversation_id (routed U user_text)
               (thread_cache s))).
Proof.
  intros Hc Hinv Hagent Hclock.
  unfold routed in *.
  destruct (_determine_target_agent U user_text) as [line target] eqn:Ed.
  cbn [snd] in *.
  set (th := cached_thread now conversation_id target (thread_cache s)) in *.
  pose proof Hinv as (Hwf & _).
  destruct (lookup_thread_run now conversation_id target s Hwf)
    as (tr1 & Hl & Hn1).
  fold th in Hl.
  set (s1 := set_thread_cache
               (looked_up now conversation_id target (thread_cache s)) s)
    in *.
  assert (Hinv1 : ThreadCache_inv now (thread_cache s1)).
  { apply looked_up_inv. exact Hinv. }
  destruct (@drain_run hook_raises conversation_id target
              (fst (invoke agent user_text th)) [] s1 now Hinv1 Hclock)
    as (tr2 & Hd & Hn2 & Hinv2).
  simpl thread_cache in Hd, Hinv2.
  unfold s1 in Hd. rewrite set_thread_cache_twice in Hd. fold s1 in Hd.
  unfold respond. unfold bind at 1, get at 1. rewrite Hc. cbn [negb].
  rewrite Ed. unfold try_except.
  unfold bind at 1, emit at 1. rewrite Hagent.
  unfold bind at 1, emit at 1. unfold bind at 1. rewrite Hl.
  unfold bind at 1, emit at 1. unfold bind at 1. rewrite Hd.
  cbn [app]. unfold answer.
  destruct (snd (invoke agent user_text th)) as [[e|b]|].
  - unfold raise, bind, emit, ret. cbn [app].
    eexists. split; [reflexivity|]. split; [|exact Hinv2].
    unfold invocations in *.
    repeat (cbn [filter is_invoke app]; rewrite ?filter_app, ?Hn1, ?Hn2).
    reflexivity.
  - unfold escape. cbn [app].
    eexists. split; [reflexivity|]. split; [|exact Hinv2].
    unfold invocations in *.
    repeat (cbn [filter is_invoke app]; rewrite ?filter_app, ?Hn1, ?Hn2).
    reflexivity.
  - destruct (truthy (response_text (fst (invoke agent user_text th))));
      unfold bind, emit, ret; cbn [app];
      (eexists; split; [reflexivity|]; split; [|exact Hinv2]);
      unfold invocations in *;
      repeat (cbn [filter is_invoke app]; rewrite ?filter_app, ?Hn1, ?Hn2);
      reflexivity.
Qed.

End RespondReady.

(** C6 (amended): on every state, for every text, conversation id and
    behaviour of the agent stream and of the release hook, [respond]
    ends in one of two ways.  Unless the stream of the agent it invoked
    ends in an exception that is not an instance of [Exception], it
    returns a dict and raises nothing; the dict is either the success
    dict, with a non-empty [text], [messages = [text]] and the boolean
    [awaiting_user] and without [error], or the error dict, with a
    non-empty [error] message and a non-empty fallback [text] and without
    [messages] and [awaiting_user].  When the stream raises the instance
    [e] of [Exception], the dict is the error dict made of [str(e)] and
    the fallback sentence.  When the stream ends in an exception that is
    not an instance of [Exception], such as the [CancelledError] of a
    cancelled task, [respond] propagates it. *)
Theorem respond_always_returns (U : unicode)
    (hook_raises : pystr -> option exn)
    (invoke : AzureAIAgent -> pystr -> option pystr -> stream)
    (now : Q) (user_text : pystr) (conversation_id : option pystr)
    (self : SimpleFoundryOrchestrator) :
  exists self' tr o,
    respond U hook_raises invoke now user_text conversation_id self
    = (self', tr, o)
    /\ ((exists d, o = Returns d /\ (is_success U d \/ is_error d))
        \/ (exists b agent th,
              o = Escapes b
              /\ In (Invoke agent user_text th) tr
              /\ snd (invoke agent user_text th) = Some (Base b)))
    /\ ((forall agent th b,
           snd (invoke agent user_text th) <> Some (Base b)) ->
        exists d, o = Returns d /\ (is_success U d \/ is_error d))
    /\ (forall agent,
          is_configured self = true ->
          ThreadCache_inv now (thread_cache self) ->
          assoc (routed U user_text) (agents self) = Some agent ->
          clock_ok now
            (fst (invoke agent user_text
                    (cached_thread now conversation_id (routed U user_text)
                       (thread_cache self)))) ->
          (forall e,
             snd (invoke agent user_text
                    (cached_thread now conversation_id (routed U user_text)
                       (thread_cache self))) = Some (Exc e) ->
             o = Returns
                   [("error"%string,
                     VStr (cps "Failed to generate response: "
                             ++ exn_str U e));
                    ("text"%string,
                     VStr (cps "I'm sorry, I encountered an error trying to process your request."))])
          /\ (forall b,
                snd (invoke agent user_text
                       (cached_thread now conversation_id
                          (routed U user_text) (thread_cache self)))
                = Some (Base b) ->
                o = Escapes b)).
Proof.
  destruct (respond_total U hook_raises invoke now user_text
              conversation_id self) as (self' & tr & o & Hrun & Hshape).
  exists self', tr, o. split; [exact Hrun|]. split; [exact Hshape|]. split.
  - intros Hno. destruct Hshape as [Hd|(b & agent & th & _ & _ & Hb)];
      [exact Hd|].
    exfalso. exact (Hno agent th b Hb).
  - intros agent Hc Hinv Hagent Hclock.
    destruct (@respond_run U hook_raises invoke now user_text
                conversation_id self agent Hc Hinv Hagent Hclock)
      as (tr' & Hrun' & _).
    rewrite Hrun in Hrun'. unfold answer in Hrun'.
    split; [intros e Hfin|intros b Hfin]; rewrite Hfin in Hrun';
      injection Hrun' as _ _ ->; reflexivity.
Qed.

Lemma respond_always_returns_witness :
  exists self' tr,
    respond ascii_db (fun _ => None)
      (fun _ _ _ =>
         ([{| content := Some (cps "I found ");
              thread := Some (cps "thread_1"); arrival := 5 |}],
          Some (Exc (Exception (cps "connection reset")))))
      4 (cps "Show me blue paint") (Some (cps "conv-7"))
      {| agents := [(ProductLookupAgent,
                     {| agent_name := ProductLookupAgent;
                        agent_id := cps "asst_1" |})];
         is_configured := true; thread_cache := ThreadCache_init |}
    = (self', tr,
       Returns
         [("error"%string,
           VStr (cps "Failed to generate response: connection reset"));
          ("text"%string,
           VStr (cps "I'm sorry, I encountered an error trying to process your request."))]).
Proof.
  destruct (@respond_always_returns ascii_db (fun _ => None)
    (fun _ _ _ =>
       ([{| content := Some (cps "I found ");
            thread := Some (cps "thread_1"); arrival := 5 |}],
        Some (Exc (Exception (cps "connection reset")))))
    4 (cps "Show me blue paint") (Some (cps "conv-7"))
    {| agents := [(ProductLookupAgent,
                   {| agent_name := ProductLookupAgent;
                      agent_id := cps "asst_1" |})];
       is_configured := true; thread_cache := ThreadCache_init |})
    as (self' & tr & o & Hrun & _ & _ & Hraise).
  exists self', tr. rewrite Hrun. f_equal.
  apply (proj1 (Hraise {| agent_name := ProductLookupAgent;
                          agent_id := cps "asst_1" |}
                  eq_refl (ThreadCache_inv_init 4) eq_refl
                  ltac:(unfold clock_ok; simpl; repeat constructor;
                        unfold Qle; simpl; lia))
           (Exception (cps "connection reset"))).
  reflexivity.
Defined.

(** ** [endswith] and [strip] *)

Lemma endswith_iff (s p : pystr) :
  endswith s p = true <-> exists pre, s = pre ++ p.
Proof.
  unfold endswith. rewrite startswith_iff. split.
  - intros [post H]. exists (rev post).
    rewrite <- (rev_involutive s), H, rev_app_distr, rev_involutive.
    reflexivity.
  - intros [pre ->]. exists (rev pre). apply rev_app_distr.
Qed.

Lemma lstrip_spec (U : unicode) (s : pystr) :
  exists l, s = l ++ lstrip U s
    /\ Forall (fun c => isspace U c = true) l
    /\ (forall c rest, lstrip U s = c :: rest -> isspace U c = false).
Proof.
  induction s as [|c s (l & Hs & Hl & Hh)]; simpl.
  - exists []. repeat split; [constructor|discriminate].
  - destruct (isspace U c) eqn:Ec.
    + exists (c :: l). repeat split.
      * simpl. now rewrite <- Hs.
      * now constructor.
      * exact Hh.
    + exists []. repeat split; [constructor|].
      intros c' rest H. injection H as <- <-. exact Ec.
Qed.

(** [strip] removes a run of whitespace at each end and leaves a text that
    neither starts nor ends with whitespace. *)
Lemma strip_spec (U : unicode) (s : pystr) :
  exists l r, s = l ++ strip U s ++ r
    /\ Forall (fun c => isspace U c = true) l
    /\ Forall (fun c => isspace U c = true) r
    /\ (forall c pre, strip U s = pre ++ [c] -> isspace U c = false)
    /\ (forall c rest, strip U s = c :: rest -> isspace U c = false).
Proof.
  unfold strip.
  destruct (lstrip_spec U s) as (l & Hs & Hl & Hh).
  destruct (lstrip_spec U (rev (lstrip U s))) as (r & Hr & Hrl & Hrh).
  set (a := lstrip U s) in *. set (b := lstrip U (rev a)) in *.
  assert (Ha : a = rev b ++ rev r).
  { rewrite <- (rev_involutive a), Hr, rev_app_distr. reflexivity. }
  exists l, (rev r). repeat split.
  - rewrite <- Ha. exact Hs.
  - exact Hl.
  - apply Forall_rev. exact Hrl.
  - intros c pre H. apply (Hrh c (rev pre)).
    rewrite <- (rev_involutive b), H, rev_app_distr. reflexivity.
  - intros c rest H. apply (Hh c (rest ++ rev r)).
    rewrite Ha, H. reflexivity.
Qed.

Example awaiting_user_question :
  endswith (strip ascii_db (cps "Would you like interior or exterior? "))
    (cps "?") = true.
Proof. reflexivity. Qed.

Lemma lstrip_whitespace (U : unicode) (l s : pystr) :
  Forall (fun c => isspace U c = true) l -> lstrip U (l ++ s) = lstrip U s.
Proof.
  induction 1 as [|c l Hc Hl IH]; [reflexivity|].
  simpl. rewrite Hc. exact IH.
Qed.

Lemma lstrip_stops (U : unicode) (c : N) (p s : pystr) :
  isspace U c = false -> exists p', lstrip U (p ++ c :: s) = p' ++ c :: s.
Proof.
  intros Hc. induction p as [|a p [p' IH]].
  - exists []. simpl. now rewrite Hc.
  - simpl. destruct (isspace U a).
    + exists p'. exact IH.
    + exists (a :: p). reflexivity.
Qed.

(** The text stripped of the whitespace around it ends with the
    character [c], which is not whitespace, exactly when the text is some
    whitespace, anything, then [c], then some whitespace. *)
Lemma strip_ends_with (U : unicode) (c : N) (t : pystr) :
  isspace U c = false ->
  (endswith (strip U t) [c] = true
   <-> exists l pre r,
         t = l ++ pre ++ [c] ++ r
         /\ Forall (fun x => isspace U x = true) l
         /\ Forall (fun x => isspace U x = true) r).
Proof.
  intros Hc. rewrite endswith_iff. split.
  - intros [pre Hpre].
    destruct (strip_spec U t) as (l & r & Ht & Hl & Hr & _).
    exists l, pre, r. rewrite Hpre in Ht.
    split; [|split; assumption].
    rewrite Ht, <- !app_assoc. reflexivity.
  - intros (l & pre & r & -> & Hl & Hr).
    unfold strip. rewrite (@lstrip_whitespace U l _ Hl). cbn [app].
    destruct (@lstrip_stops U c pre r Hc) as [p' ->].
    rewrite rev_app_distr. cbn [rev]. rewrite <- app_assoc.
    rewrite (@lstrip_whitespace U (rev r) _ (Forall_rev Hr)).
    cbn [app lstrip]. rewrite Hc. cbn [rev]. rewrite rev_involutive.
    exists p'. reflexivity.
Qed.

(** C5: in a call that reaches the agent, whose stream ends without an
    exception, [respond] invokes the agent exactly once; when the
    fragments, concatenated in arrival order, make a non-empty text [t],
    it returns the dict with [messages = [t]], [text = t] and
    [awaiting_user] true exactly when [t] ends with "?" once the
    whitespace around it is removed, that is, when [t] is some whitespace,
    any text, "?", then some whitespace; when the fragments make the empty
    text it returns the error dict "No response from agent".  The
    character "?" is not whitespace. *)
Theorem respond_aggregates_stream (U : unicode)
    (hook_raises : pystr -> option exn)
    (invoke : AzureAIAgent -> pystr -> option pystr -> stream)
    (now : Q) (user_text : pystr) (conversation_id : option pystr)
    (self : SimpleFoundryOrchestrator) (agent : AzureAIAgent)
    (items : list message) :
  isspace U 63 = false ->
  is_configured self = true ->
  ThreadCache_inv now (thread_cache self) ->
  assoc (routed U user_text) (agents self) = Some agent ->
  invoke agent user_text
    (cached_thread now conversation_id (routed U user_text)
       (thread_cache self)) = (items, None) ->
  clock_ok now items ->
  exists self' tr d,
    respond U hook_raises invoke now user_text conversation_id self
    = (self', tr, Returns d)
    /\ invocations tr
       = [Invoke agent user_text
            (cached_thread now conversation_id (routed U user_text)
               (thread_cache self))]
    /\ (response_text items <> [] ->
        exists b,
          d = [("messages"%string, VList [response_text items]);
               ("awaiting_user"%string, VBool b);
               ("text"%string, VStr (response_text items))]
          /\ (b = true <->
              exists l pre r,
                response_text items = l ++ pre ++ cps "?" ++ r
                /\ Forall (fun c => isspace U c = true) l
                /\ Forall (fun c => isspace U c = true) r))
    /\ (response_text items = [] ->
        d = [("error"%string, VStr (cps "No response from agent"));
             ("text"%string,
              VStr (cps "I'm sorry, I couldn't get a response from the agent."))]).
Proof.
  intros Hq Hc Hinv Hagent Hstream Hclock.
  assert (Hclock' : clock_ok now
    (fst (invoke agent user_text
            (cached_thread now conversation_id (routed U user_text)
               (thread_cache self))))).
  { rewrite Hstream. exact Hclock. }
  destruct (@respond_run U hook_raises invoke now user_text conversation_id
              self agent Hc Hinv Hagent Hclock') as (tr & Hrun & Hn & _).
  rewrite Hstream in Hrun. unfold answer in Hrun. cbn [fst snd] in Hrun.
  do 3 eexists. split; [exact Hrun|]. split; [exact Hn|]. split.
  - intros Hne. apply truthy_nonempty in Hne. rewrite Hne.
    eexists. split; [reflexivity|].
    apply (@strip_ends_with U 63%N (response_text items) Hq).
  - intros ->. reflexivity.
Qed.

Lemma respond_aggregates_stream_witness :
  exists self' tr,
    respond ascii_db (fun _ => None)
      (fun _ _ _ =>
         ([{| content := Some (cps " Interior ");
              thread := Some (cps "thread_1"); arrival := 5 |};
           {| content := Some (cps "or exterior?  ");
              thread := Some (cps "thread_1"); arrival := 6 |}], None))
      4 (cps "Show me blue paint") (Some (cps "conv-7"))
      {| agents := [(ProductLookupAgent,
                     {| agent_name := ProductLookupAgent;
                        agent_id := cps "asst_1" |})];
         is_configured := true; thread_cache := ThreadCache_init |}
    = (self', tr,
       Returns [("messages"%string,
                 VList [cps " Interior or exterior?  "]);
                ("awaiting_user"%string, VBool true);
                ("text"%string, VStr (cps " Interior or exterior?  "))]).
Proof.
  destruct (@respond_aggregates_stream ascii_db (fun _ => None)
    (fun _ _ _ =>
       ([{| content := Some (cps " Interior ");
            thread := Some (cps "thread_1"); arrival := 5 |};
         {| content := Some (cps "or exterior?  ");
            thread := Some (cps "thread_1"); arrival := 6 |}], None))
    4 (cps "Show me blue paint") (Some (cps "conv-7"))
    {| agents := [(ProductLookupAgent,
                   {| agent_name := ProductLookupAgent;
                      agent_id := cps "asst_1" |})];
       is_configured := true; thread_cache := ThreadCache_init |}
    {| agent_name := ProductLookupAgent; agent_id := cps "asst_1" |}
    _ eq_refl eq_refl (ThreadCache_inv_init 4) eq_refl eq_refl)
    as (self' & tr & d & Hrun & _ & Hd & _).
  - unfold clock_ok. simpl.
    repeat constructor; unfold Qle; simpl; lia.
  - exists self', tr. rewrite Hrun.
    destruct Hd as (b & -> & Hb); [discriminate|].
    assert (Ht : b = true).
    { apply Hb. exists (cps " "), (cps "Interior or exterior"), (cps "  ").
      split; [reflexivity|]. split; repeat constructor. }
    rewrite Ht. reflexivity.
Defined.

(** ** Two calls on one conversation *)

Lemma tame_no_invocations (tr : list event) :
  forallb (fun ev => negb (is_invoke ev)) tr = true -> invocations tr = [].
Proof.
  unfold invocations. induction tr as [|ev tr IH]; simpl; [reflexivity|].
  rewrite andb_true_iff. intros [H1 H2].
  destruct (is_invoke ev); [discriminate|auto].
Qed.

(** A call that reaches the agent invokes it once, with the cached
    thread, whatever the stream does afterwards; it returns a dict unless
    the stream ends in an exception that is not an instance of
    [Exception]. *)
Lemma respond_invokes (U : unicode) (hook_raises : pystr -> option exn)
    (invoke : AzureAIAgent -> pystr -> option pystr -> stream)
    (now : Q) (user_text : pystr) (conversation_id : option pystr)
    (s : SimpleFoundryOrchestrator) (agent : AzureAIAgent) :
  is_configured s = true ->
  wf (thread_cache s) ->
  assoc (routed U user_text) (agents s) = Some agent ->
  exists s' tr o,
    respond U hook_raises invoke now user_text conversation_id s
    = (s', tr, o)
    /\ invocations tr
       = [Invoke agent user_text
            (cached_thread now conversation_id (routed U user_text)
               (thread_cache s))]
    /\ ((exists d, o = Returns d)
        \/ (exists b,
              o = Escapes b
              /\ snd (invoke agent user_text
                        (cached_thread now conversation_id
                           (routed U user_text) (thread_cache s)))
                 = Some (Base b))).
Proof.
  intros Hc Hwf Hagent. unfold routed in *.
  destruct (_determine_target_agent U user_text) as [line target] eqn:Ed.
  cbn [snd] in *.
  set (th := cached_thread now conversation_id target (thread_cache s)) in *.
  destruct (lookup_thread_run now conversation_id target s Hwf)
    as (tr1 & Hl & Hn1).
  fold th in Hl.
  unfold respond. unfold bind at 1, get at 1. rewrite Hc. cbn [negb].
  rewrite Ed. unfold try_except.
  unfold bind at 1, emit at 1. rewrite Hagent.
  unfold bind at 1, emit at 1. unfold bind at 1. rewrite Hl.
  unfold bind at 1, emit at 1. unfold bind at 1.
  match goal with |- context [drain ?h ?c ?t ?i ?a ?st] =>
    pose proof (drain_tame h c t i a st) as Hd;
    destruct (drain h c t i a st) as [[s2 tr2] o2]
  end.
  destruct Hd as (Hn2 & Ho2 & _). cbn [fst snd] in Hn2, Ho2.
  apply tame_no_invocations in Hn2.
  destruct o2 as [text|e| |]; [| |contradiction|contradiction].
  - destruct (snd (invoke agent user_text th)) as [[e|b]|];
      [| |destruct (truthy text)];
      unfold raise, escape, bind, emit, ret; cbn [app];
      (do 3 eexists; split; [reflexivity|]);
      (split; [|solve [left; eauto | right; eauto]]);
      unfold invocations in *;
      repeat (cbn [filter is_invoke app]; rewrite ?filter_app, ?Hn1, ?Hn2);
      reflexivity.
  - unfold raise, bind, emit, ret; cbn [app].
    do 3 eexists; split; [reflexivity|]. split; [|left; eauto].
    unfold invocations in *.
    repeat (cbn [filter is_invoke app]; rewrite ?filter_app, ?Hn1, ?Hn2).
    reflexivity.
Qed.

Lemma drained_cache_app (key : pystr) (l1 l2 : list message) (c : TTLCache) :
  drained_cache key (l1 ++ l2) c
  = drained_cache key l2 (drained_cache key l1 c).
Proof.
  revert c. induction l1 as [|m l1 IH]; intros c; simpl; [reflexivity|].
  apply IH.
Qed.

Lemma drained_cache_no_thread (key : pystr) (l : list message)
    (c : TTLCache) :
  Forall (fun x => thread x = None) l -> drained_cache key l c = c.
Proof.
  induction 1 as [|m l Hm Hl IH]; simpl; [reflexivity|].
  now rewrite Hm.
Qed.

Lemma drained_cache_ttl (key : pystr) (l : list message) (c : TTLCache) :
  ttl (drained_cache key l c) = ttl c.
Proof.
  revert c. induction l as [|m l IH]; intros c; simpl; [reflexivity|].
  rewrite IH. now destruct (thread m).
Qed.

Lemma looked_up_ttl (now : Q) (conversation_id : option pystr)
    (target : pystr) (c : TTLCache) :
  ttl (looked_up now conversation_id target c) = ttl c.
Proof.
  unfold looked_up. destruct (conv_true conversation_id); [|reflexivity].
  apply get_state_ring.
Qed.

(** C9, counterexample: a stream that yields a thread whose id is the
    empty string.  The handle is written to the cache and the lookup of the
    second call returns it, but [if thread_id:] is false for it and the
    agent is invoked without a thread. *)
Lemma empty_handle_is_not_resumed :
  snd (TTLCache_get 2 (cps "conv-7_ProductLookupAgent")
         (thread_cache (fst (fst
            (respond ascii_db (fun _ => None)
               (fun _ _ _ =>
                  ([{| content := Some (cps "Hello");
                       thread := Some []; arrival := 1 |}], None))
               0 (cps "Show me blue paint") (Some (cps "conv-7"))
               {| agents := [(ProductLookupAgent,
                              {| agent_name := ProductLookupAgent;
                                 agent_id := cps "asst_1" |})];
                  is_configured := true;
                  thread_cache := ThreadCache_init |})))))
  = Returns (Some [])
  /\ invocations (snd (fst
       (respond ascii_db (fun _ => None)
          (fun _ _ _ =>
             ([{| content := Some (cps "Hello");
                  thread := Some []; arrival := 1 |}], None))
          2 (cps "Show me blue paint") (Some (cps "conv-7"))
          (fst (fst
            (respond ascii_db (fun _ => None)
               (fun _ _ _ =>
                  ([{| content := Some (cps "Hello");
                       thread := Some []; arrival := 1 |}], None))
               0 (cps "Show me blue paint") (Some (cps "conv-7"))
               {| agents := [(ProductLookupAgent,
                              {| agent_name := ProductLookupAgent;
                                 agent_id := cps "asst_1" |})];
                  is_configured := true;
                  thread_cache := ThreadCache_init |}))))))
     = [Invoke {| agent_name := ProductLookupAgent;
                  agent_id := cps "asst_1" |}
          (cps "Show me blue paint") None].
Proof. split; vm_compute; reflexivity. Qed.

(** ** The cache invariant along a run of calls *)

Lemma last_default_or_in {A} (l : list A) (d : A) :
  last l d = d \/ In (last l d) l.
Proof.
  revert d. induction l as [|a l IH]; intros d; [now left|].
  right. rewrite last_cons_default.
  destruct (IH a) as [E|H]; [rewrite E; now left|now right].
Qed.

(** The states of the cache reachable from [ThreadCache_init] satisfy
    [ThreadCache_inv]: a call started on such a state, in which the clock
    does not run backwards, ends, by a return or by an exception of the
    stream that is not an instance of [Exception], and leaves such a state
    for every later reading of the clock. *)
Lemma respond_keeps_cache_invariant (U : unicode)
    (hook_raises : pystr -> option exn)
    (invoke : AzureAIAgent -> pystr -> option pystr -> stream)
    (now : Q) (user_text : pystr) (conversation_id : option pystr)
    (s : SimpleFoundryOrchestrator) :
  ThreadCache_inv now (thread_cache s) ->
  (forall agent th, clock_ok now (fst (invoke agent user_text th))) ->
  exists s' tr o,
    respond U hook_raises invoke now user_text conversation_id s
    = (s', tr, o)
    /\ ((exists d, o = Returns d)
        \/ (exists b agent th,
              o = Escapes b
              /\ snd (invoke agent user_text th) = Some (Base b)))
    /\ agents s' = agents s /\ is_configured s' = is_configured s
    /\ forall later,
         (now <= later)%Q ->
         (forall agent th m, In m (fst (invoke agent user_text th)) ->
                             (arrival m <= later)%Q) ->
         ThreadCache_inv later (thread_cache s').
Proof.
  intros Hinv Hclock.
  destruct (is_configured s) eqn:Hc.
  - destruct (assoc (routed U user_text) (agents s)) as [agent|] eqn:Ha.
    + destruct (@respond_run U hook_raises invoke now user_text
                  conversation_id s agent Hc Hinv Ha (Hclock _ _))
        as (tr & Hrun & _ & Hinv').
      do 3 eexists. split; [exact Hrun|]. split.
      { unfold answer.
        destruct (snd (invoke agent user_text
                         (cached_thread now conversation_id
                            (routed U user_text) (thread_cache s))))
          as [[e|b]|] eqn:Efin; [left; eauto| |left; eauto].
        right. exists b, agent. eauto. }
      split; [reflexivity|]. split; [exact Hc|].
      intros later Hle Hitems. cbn [thread_cache set_thread_cache].
      eapply ThreadCache_inv_later; [exact Hinv'|].
      match goal with |- (last ?l now <= later)%Q =>
        destruct (last_default_or_in l now) as [E|Hin] end.
      * rewrite E. exact Hle.
      * apply in_map_iff in Hin. destruct Hin as (m & Em & Hm).
        rewrite <- Em. eapply Hitems. exact Hm.
    + unfold routed in Ha. unfold respond.
      unfold bind at 1, get at 1. rewrite Hc. cbn [negb].
      destruct (_determine_target_agent U user_text) as [line target].
      cbn [snd] in Ha. unfold try_except, bind, emit, ret. rewrite Ha.
      do 3 eexists. split; [reflexivity|]. split; [left; eauto|].
      split; [reflexivity|]. split; [exact Hc|].
      intros later Hle _. eapply ThreadCache_inv_later; eauto.
  - unfold respond. unfold bind, get, emit, ret. rewrite Hc. cbn [negb].
    do 3 eexists. split; [reflexivity|]. split; [left; eauto|].
    split; [reflexivity|]. split; [exact Hc|].
    intros later Hle _. eapply ThreadCache_inv_later; eauto.
Qed.

(** ** Capacity and recency order, by running the code *)

(** 1001 writes under distinct keys within the time to live: one
    eviction, of the first key written, and 1000 items left. *)
Example one_eviction_in_1001_writes :
  currsize (fst (fst (fill (fun _ => None) 0 1001 ThreadCache_init))) = 1000
  /\ snd (fst (fill (fun _ => None) 0 1001 ThreadCache_init))
     = [Info (LogEvicted [0%N])]
  /\ snd (fill (fun _ => None) 0 1001 ThreadCache_init) = Returns tt
  /\ assoc [0%N]
       (data (fst (fst (fill (fun _ => None) 0 1001 ThreadCache_init))))
     = None.
Proof. vm_compute. repeat split. Qed.


(** Capacity 2: [a] and [b] are written, [a] is read, [c] is written.  The
    write evicts [b], the least recently used item, and keeps [a]; the
    hook raises for the evicted handle and the write still returns. *)
Example lru_evicts_least_recently_used :
  (TTLCache_setitem (fun _ => None) 0 (cps "a") (cps "ta") ;;;
   TTLCache_setitem (fun _ => None) 1 (cps "b") (cps "tb") ;;;
   x <- TTLCache_get 2 (cps "a") ;;
   TTLCache_setitem (fun _ => Some (Exception (cps "boom"))) 3
     (cps "c") (cps "tc") ;;;
   ret x) (TTLCache_init 2 10)
  = ({| maxsize := 2; ttl := 10;
        data := [(cps "a", cps "ta"); (cps "c", cps "tc")];
        ring := [(cps "a", 0 + 10)%Q; (cps "c", 3 + 10)%Q] |},
     [Error (LogEvictError (cps "tb") (Exception (cps "boom")))],
     Returns (Some (cps "ta"))).
Proof. reflexivity. Qed.

(** ** Whole words and the patterns that list them *)

Section WordSearch.
Variable U : unicode.

Lemma last_char_cons (prev : option N) (c : N) (s : pystr) :
  last_char prev (c :: s) = last_char (Some c) s.
Proof. reflexivity. Qed.


Lemma last_char_app (prev : option N) (a b : pystr) :
  last_char prev (a ++ b) = last_char (last_char prev a) b.
Proof. apply fold_left_app. Qed.









End WordSearch.






(* ===================================================================== *)
(** ** An order word beside product words *)
(* ===================================================================== *)


(* ===================================================================== *)
(** ** Start-up *)
(* ===================================================================== *)

Ltac start_cases ga :=
  repeat match goal with
         | |- context [ga ?x] => destruct (ga x) as [[?|?]|] eqn:?
         end.

Lemma create_run (S : Settings) (F : Foundry) :
  create S F = (fst (create S F), create_outcome S F)
  /\ filter is_call (fst (create S F)) = startup_calls S F.
Proof.
  destruct S as [ep p o k], F as [hfc ir gc ga].
  cbv beta iota zeta delta
    [create created create_outcome startup_raises build_raises
     registered starts wanted agent_settings client_ready
     startup_calls create_steps __init__ add_agent _build_foundry_agent
     _resolve_foundry_agent_definition call builds
     azure_foundry_endpoint foundry_product_agent_id foundry_order_agent_id
     foundry_knowledge_agent_id has_foundry_config
     init_foundry_client_raises get_foundry_client_raises get_agent_raises
     flat_map fst snd app map].
  destruct (conv_true p) as [pid|], (conv_true o) as [oid|],
    (conv_true k) as [kid|], hfc, ir as [[?|?]|], gc as [[?|?]|];
    cbn; start_cases ga; cbn; start_cases ga; cbn; start_cases ga;
    cbn; try (split; reflexivity).
Qed.

Lemma wanted_names (S : Settings) (name id : pystr) :
  In (name, id) (wanted S) ->
  In (name, Some id) (agent_settings S) /\ truthy id = true.
Proof.
  unfold wanted, agent_settings. cbn [flat_map fst snd].
  rewrite !in_app_iff.
  assert (H : forall n (x : option pystr),
    In (name, id) (match conv_true x with
                   | Some i => [(n, i)]
                   | None => []
                   end) -> (n, x) = (name, Some id) /\ truthy id = true).
  { intros n [x|]; simpl; [|tauto].
    destruct (truthy x) eqn:E; simpl; [|tauto].
    intros [Heq|[]]. injection Heq as -> ->. auto. }
  simpl. intros [Hp|[Ho|[Hk|[]]]]; apply H in Hp || apply H in Ho
    || apply H in Hk; tauto.
Qed.

Lemma wanted_nodup (S : Settings) : NoDup (keys (wanted S)).
Proof.
  unfold wanted, agent_settings. cbn [flat_map fst snd].
  destruct (conv_true (foundry_product_agent_id S)),
    (conv_true (foundry_order_agent_id S)),
    (conv_true (foundry_knowledge_agent_id S)); simpl;
    repeat constructor; simpl; intuition discriminate.
Qed.

Lemma assoc_agent_of (name : pystr) (l : list (pystr * pystr)) :
  assoc name (map agent_of l)
  = match assoc name l with
    | Some id => Some {| agent_name := name; agent_id := id |}
    | None => None
    end.
Proof.
  induction l as [|[n i] l IH]; simpl; [reflexivity|].
  destruct (pystr_eq_dec name n) as [->|]; [reflexivity|exact IH].
Qed.

Lemma built_until_failure_all (F : Foundry) (l : list (pystr * pystr)) :
  forallb (fun ni => builds F (snd ni)) l = true ->
  built_until_failure F l = l.
Proof.
  induction l as [|ni l IH]; simpl; [reflexivity|].
  intros H. apply andb_true_iff in H. destruct H as [H1 H2].
  rewrite H1, IH; auto.
Qed.

Lemma built_until_failure_in (F : Foundry) (l : list (pystr * pystr))
    (ni : pystr * pystr) :
  In ni (built_until_failure F l) -> In ni l /\ builds F (snd ni) = true.
Proof.
  induction l as [|a l IH]; simpl; [tauto|].
  destruct (builds F (snd a)) eqn:E; simpl; [|tauto].
  intros [->|H]; [auto|]. apply IH in H. tauto.
Qed.

Lemma builds_iff (F : Foundry) (id : pystr) :
  builds F id = true
  <-> get_foundry_client_raises F = None /\ get_agent_raises F id = None.
Proof.
  unfold builds.
  destruct (get_foundry_client_raises F), (get_agent_raises F id);
    split; intros H; try discriminate; try tauto; destruct H; discriminate.
Qed.

Lemma build_raises_from (F : Foundry) (l : list (pystr * pystr))
    (r : raised) :
  build_raises F (map snd l) = Some r ->
  get_foundry_client_raises F = Some r
  \/ exists name id, In (name, id) l /\ get_agent_raises F id = Some r.
Proof.
  induction l as [|[n i] l IH]; simpl; [discriminate|].
  destruct (get_foundry_client_raises F) as [r'|]; [now left|].
  destruct (get_agent_raises F i) as [r'|] eqn:E.
  - intros H. injection H as <-. right. exists n, i. auto.
  - intros H. destruct (IH H) as [H'|(name & id & Hin & Hr)];
      [discriminate|].
    right. exists name, id. auto.
Qed.

Lemma startup_raises_from (S : Settings) (F : Foundry) (r : raised) :
  startup_raises S F = Some r ->
  init_foundry_client_raises F = Some r
  \/ get_foundry_client_raises F = Some r
  \/ exists name id, In (name, id) (wanted S) /\ get_agent_raises F id = Some r.
Proof.
  unfold startup_raises. destruct (has_foundry_config F); [|discriminate].
  destruct (init_foundry_client_raises F) as [r'|]; [now left|].
  intros H. right. now apply build_raises_from.
Qed.

Lemma created_configured_iff (S : Settings) (F : Foundry) :
  is_configured (created S F) = true
  <-> has_foundry_config F = true
      /\ init_foundry_client_raises F = None
      /\ wanted S <> []
      /\ forall name id, In (name, id) (wanted S) ->
           get_foundry_client_raises F = None
           /\ get_agent_raises F id = None.
Proof.
  simpl. unfold starts, client_ready.
  rewrite !andb_true_iff, forallb_forall. split.
  - intros [[[Hc Hi] Hb] Hw]. repeat split; auto.
    + destruct (init_foundry_client_raises F); [discriminate|reflexivity].
    + destruct (wanted S); [discriminate|discriminate].
    + apply (builds_iff F id). apply (Hb (name, id)). assumption.
    + apply (builds_iff F id). apply (Hb (name, id)). assumption.
  - intros (Hc & Hi & Hw & Hb). rewrite Hi. repeat split; auto.
    + intros [name id] Hin. apply builds_iff. eapply Hb. exact Hin.
    + destruct (wanted S); [congruence|reflexivity].
Qed.

Lemma create_returned (S : Settings) (F : Foundry)
    (tr : list startup_event) (self : SimpleFoundryOrchestrator) :
  create S F = (tr, Returns self) -> self = created S F.
Proof.
  intros H. rewrite (proj1 (create_run S F)) in H.
  injection H as _ H. unfold create_outcome in H.
  destruct (startup_raises S F) as [[e|b]|]; congruence.
Qed.

(** X1: how [create] ends, [has_foundry_config()] and the constructors of
    the cache, the plugins and [AzureAIAgent] being taken to return.  It
    raises only an exception that is not an instance of [Exception],
    raised by [init_foundry_client], [get_foundry_client] or [get_agent]
    for an agent whose id is set: such an exception passes through the
    handler.  When none of these calls raises one, [create] returns.  The
    orchestrator it returns has a new, empty thread cache and is
    configured exactly when the configuration is present,
    [init_foundry_client] returned, at least one of the three agent ids is
    set, and [get_foundry_client] and [get_agent] returned for every agent
    whose id is set: one failing build leaves the whole orchestrator
    unconfigured. *)
Theorem create_configured_iff (S : Settings) (F : Foundry) :
  exists tr o,
    create S F = (tr, o)
    /\ ((exists self, o = Returns self)
        \/ (exists b,
              o = Escapes b
              /\ (init_foundry_client_raises F = Some (Base b)
                  \/ get_foundry_client_raises F = Some (Base b)
                  \/ exists name id,
                       In (name, id) (wanted S)
                       /\ get_agent_raises F id = Some (Base b))))
    /\ ((forall b, init_foundry_client_raises F <> Some (Base b)) ->
        (forall b, get_foundry_client_raises F <> Some (Base b)) ->
        (forall id b, get_agent_raises F id <> Some (Base b)) ->
        exists self, o = Returns self)
    /\ (forall self,
          o = Returns self ->
          thread_cache self = ThreadCache_init
          /\ (is_configured self = true
              <-> has_foundry_config F = true
                  /\ init_foundry_client_raises F = None
                  /\ wanted S <> []
                  /\ forall name id, In (name, id) (wanted S) ->
                       get_foundry_client_raises F = None
                       /\ get_agent_raises F id = None)).
Proof.
  exists (fst (create S F)), (create_outcome S F).
  split; [apply create_run|].
  assert (Hends : (exists self, create_outcome S F = Returns self)
    \/ (exists b,
          create_outcome S F = Escapes b
          /\ (init_foundry_client_raises F = Some (Base b)
              \/ get_foundry_client_raises F = Some (Base b)
              \/ exists name id,
                   In (name, id) (wanted S)
                   /\ get_agent_raises F id = Some (Base b)))).
  { unfold create_outcome.
    destruct (startup_raises S F) as [[e|b]|] eqn:E; [left; eauto| |left; eauto].
    right. exists b. split; [reflexivity|]. now apply startup_raises_from. }
  split; [exact Hends|]. split.
  - intros Hi Hg Ha.
    destruct Hends as [Hr|(b & _ & [H|[H|(name & id & _ & H)]])];
      [exact Hr| | |].
    + exfalso. exact (Hi b H).
    + exfalso. exact (Hg b H).
    + exfalso. exact (Ha id b H).
  - intros self Hself.
    assert (Hs : self = created S F).
    { unfold create_outcome in Hself.
      destruct (startup_raises S F) as [[e|b]|]; congruence. }
    subst self. split; [reflexivity|]. apply created_configured_iff.
Qed.

(** X2: the registry of the orchestrator [create] returns holds, under
    its own name, each agent whose id is set and that was built before the
    first failing build, and nothing else: every registered agent carries
    the name it is registered under and the non-empty id of the setting
    for that name, and was resolved; when the orchestrator is configured,
    every agent whose id is set is registered. *)
Theorem create_registry (S : Settings) (F : Foundry)
    (tr : list startup_event) (self : SimpleFoundryOrchestrator) :
  create S F = (tr, Returns self) ->
  (forall name agent,
     assoc name (agents self) = Some agent ->
     agent_name agent = name
     /\ In (name, Some (agent_id agent)) (agent_settings S)
     /\ truthy (agent_id agent) = true
     /\ get_agent_raises F (agent_id agent) = None)
  /\ (is_configured self = true ->
      forall name id,
        In (name, Some id) (agent_settings S) -> truthy id = true ->
        assoc name (agents self)
        = Some {| agent_name := name; agent_id := id |}).
Proof.
  intros Hcr. apply create_returned in Hcr. subst self.
  simpl. unfold registered. split.
  - intros name agent H.
    destruct (client_ready F); [|discriminate].
    rewrite assoc_agent_of in H.
    destruct (assoc name (built_until_failure F (wanted S))) as [id|] eqn:E;
      [|discriminate].
    injection H as <-. simpl.
    apply assoc_some_in in E. apply built_until_failure_in in E.
    destruct E as [Hin Hb]. apply wanted_names in Hin.
    apply builds_iff in Hb. simpl in Hb. tauto.
  - unfold starts. rewrite !andb_true_iff. intros [[Hc Hb] _] name id Hin Ht.
    rewrite Hc, assoc_agent_of, built_until_failure_all by exact Hb.
    rewrite (@in_assoc_nodup _ name id (wanted S)); [reflexivity| |].
    + apply wanted_nodup.
    + unfold wanted. apply in_flat_map. exists (name, Some id).
      split; [exact Hin|]. simpl. rewrite Ht. now left.
Qed.

Lemma create_registry_witness :
  assoc ProductLookupAgent
    (agents
       (created
          {| azure_foundry_endpoint := Some (cps "https://foundry");
             foundry_product_agent_id := Some (cps "asst_product");
             foundry_order_agent_id := Some [];
             foundry_knowledge_agent_id := None |}
          {| has_foundry_config := true;
             init_foundry_client_raises := None;
             get_foundry_client_raises := None;
             get_agent_raises := fun _ => None |}))
  = Some {| agent_name := ProductLookupAgent;
            agent_id := cps "asst_product" |}.
Proof.
  apply (proj2 (@create_registry
    {| azure_foundry_endpoint := Some (cps "https://foundry");
       foundry_product_agent_id := Some (cps "asst_product");
       foundry_order_agent_id := Some [];
       foundry_knowledge_agent_id := None |}
    {| has_foundry_config := true;
       init_foundry_client_raises := None;
       get_foundry_client_raises := None;
       get_agent_raises := fun _ => None |}
    _ _ eq_refl) eq_refl).
  - left. reflexivity.
  - reflexivity.
Defined.

(** X3: the calls [create] makes out of the module, in order: none when the
    configuration is absent; otherwise [init_foundry_client] once and, when
    it returned, for each agent whose id is set, product, order and
    knowledge in this order, [get_foundry_client], [get_agent] with that id
    and [get_foundry_client] again, up to the first call that raises.
    Nothing is called after a failure and no agent is resolved whose id is
    not set. *)
Theorem create_calls (S : Settings) (F : Foundry) :
  filter is_call (fst (create S F)) = startup_calls S F
  /\ (has_foundry_config F = false -> filter is_call (fst (create S F)) = [])
  /\ (forall id, In (GetAgent id) (fst (create S F)) ->
        exists name, In (name, id) (wanted S)).
Proof.
  pose proof (create_run S F) as [_ Hc]. split; [exact Hc|]. split.
  - intros Hf. rewrite Hc. unfold startup_calls. now rewrite Hf.
  - intros id Hin.
    assert (Hin' : In (GetAgent id) (filter is_call (fst (create S F)))).
    { apply filter_In. split; [exact Hin|reflexivity]. }
    rewrite Hc in Hin'. unfold startup_calls in Hin'.
    destruct (has_foundry_config F); [|destruct Hin'].
    destruct Hin' as [Hd|Hin']; [discriminate|].
    destruct (init_foundry_client_raises F); [destruct Hin'|].
    revert Hin'. generalize (wanted S). intros l.
    induction l as [|[n i] l IH]; simpl; [tauto|].
    destruct (get_foundry_client_raises F).
    + intros [Hd|[]]; discriminate.
    + intros [Hd|[Hd|Hr]]; [discriminate| |].
      * injection Hd as ->. exists n. now left.
      * destruct (get_agent_raises F i); [destruct Hr|].
        destruct Hr as [Hd|Hr]; [discriminate|].
        destruct (IH Hr) as [name Hn]. exists name. now right.
Qed.

(* ===================================================================== *)
(** ** Requests for an agent that is not registered *)
(* ===================================================================== *)

Lemma respond_unavailable_run (U : unicode)
    (hook_raises : pystr -> option exn)
    (invoke : AzureAIAgent -> pystr -> option pystr -> stream)
    (now : Q) (user_text : pystr) (conversation_id : option pystr)
    (s : SimpleFoundryOrchestrator) :
  is_configured s = true ->
  assoc (routed U user_text) (agents s) = None ->
  respond U hook_raises invoke now user_text conversation_id s
  = (s,
     [Info (fst (_determine_target_agent U user_text));
      Error (LogAgentUnavailable (routed U user_text))],
     Returns (unavailable_response (routed U user_text))).
Proof.
  intros Hc Ha. unfold respond, routed in *.
  unfold bind at 1, get at 1. rewrite Hc. cbn [negb].
  destruct (_determine_target_agent U user_text) as [line target].
  simpl in Ha |- *.
  unfold try_except, bind, emit, ret. rewrite Ha. reflexivity.
Qed.

(** X4: a configured orchestrator in which the agent the classifier picks
    is not registered answers with the error dict that names the agent.
    The call logs the routing line and the error line and nothing else: the
    agent is not invoked, the thread cache is neither read nor written, and
    the orchestrator is unchanged, whatever the conversation id. *)
Theorem respond_agent_unavailable (U : unicode)
    (hook_raises : pystr -> option exn)
    (invoke : AzureAIAgent -> pystr -> option pystr -> stream)
    (now : Q) (user_text : pystr) (conversation_id : option pystr)
    (s : SimpleFoundryOrchestrator) :
  is_configured s = true ->
  assoc (routed U user_text) (agents s) = None ->
  exists tr,
    respond U hook_raises invoke now user_text conversation_id s
    = (s, tr,
       Returns
         [("error"%string,
           VStr (cps "Agent " ++ routed U user_text ++ cps " not available"));
          ("text"%string,
           VStr (cps "I'm sorry, the " ++ routed U user_text
                   ++ cps " is not currently available."))])
    /\ tr = [Info (fst (_determine_target_agent U user_text));
             Error (LogAgentUnavailable (routed U user_text))]
    /\ invocations tr = []
    /\ filter is_cache_access tr = [].
Proof.
  intros Hc Ha. eexists. split.
  - apply respond_unavailable_run; assumption.
  - repeat split.
Qed.

Lemma respond_agent_unavailable_witness :
  exists tr,
    respond ascii_db (fun _ => None)
      (fun _ _ _ => ([{| content := Some (cps "never used");
                         thread := Some (cps "thread_9");
                         arrival := 1 |}], None))
      0 (cps "what is your return policy") (Some (cps "conv-1"))
      {| agents := [(ProductLookupAgent,
                     {| agent_name := ProductLookupAgent;
                        agent_id := cps "asst_product" |})];
         is_configured := true; thread_cache := ThreadCache_init |}
    = ({| agents := [(ProductLookupAgent,
                      {| agent_name := ProductLookupAgent;
                         agent_id := cps "asst_product" |})];
          is_configured := true; thread_cache := ThreadCache_init |},
       tr,
       Returns
         [("error"%string, VStr (cps "Agent KnowledgeAgent not available"));
          ("text"%string,
           VStr (cps "I'm sorry, the KnowledgeAgent is not currently available."))])
    /\ invocations tr = [].
Proof.
  destruct (@respond_agent_unavailable ascii_db (fun _ => None)
    (fun _ _ _ => ([{| content := Some (cps "never used");
                       thread := Some (cps "thread_9");
                       arrival := 1 |}], None))
    0 (cps "what is your return policy") (Some (cps "conv-1"))
    {| agents := [(ProductLookupAgent,
                   {| agent_name := ProductLookupAgent;
                      agent_id := cps "asst_product" |})];
       is_configured := true; thread_cache := ThreadCache_init |}
    eq_refl eq_refl) as (tr & Hr & _ & Hi & _).
  exists tr. split; [exact Hr|exact Hi].
Defined.

(* ===================================================================== *)
(** ** From start-up to the first requests *)
(* ===================================================================== *)

Lemma cached_thread_init (now : Q) (conversation_id : option pystr)
    (target : pystr) :
  cached_thread now conversation_id target ThreadCache_init = None.
Proof.
  unfold cached_thread. destruct (conv_true conversation_id); reflexivity.
Qed.

Lemma wf_init : wf ThreadCache_init.
Proof. apply (ThreadCache_inv_init 0). Qed.

(** X5: the first request after a start-up that succeeded.  When the id of
    the agent the classifier picks is set, that agent, with that id, is
    invoked once with the text and no thread, and the call returns a dict
    unless the stream ends in an exception that is not an instance of
    [Exception]; when the id is not set, the answer is the
    agent-unavailable error and nothing is invoked. *)
Theorem first_request_after_create (S : Settings) (F : Foundry)
    (U : unicode) (hook_raises : pystr -> option exn)
    (invoke : AzureAIAgent -> pystr -> option pystr -> stream)
    (now : Q) (user_text : pystr) (conversation_id : option pystr)
    (tr : list startup_event) (self : SimpleFoundryOrchestrator) :
  create S F = (tr, Returns self) ->
  is_configured self = true ->
  (forall id,
     In (routed U user_text, Some id) (agent_settings S) ->
     truthy id = true ->
     exists self' tr' o,
       respond U hook_raises invoke now user_text conversation_id self
       = (self', tr', o)
       /\ invocations tr'
          = [Invoke {| agent_name := routed U user_text; agent_id := id |}
               user_text None]
       /\ ((exists d, o = Returns d)
           \/ (exists b,
                 o = Escapes b
                 /\ snd (invoke {| agent_name := routed U user_text;
                                   agent_id := id |} user_text None)
                    = Some (Base b))))
  /\ ((forall id,
         In (routed U user_text, Some id) (agent_settings S) ->
         truthy id = false) ->
      exists tr',
        respond U hook_raises invoke now user_text conversation_id self
        = (self, tr', Returns (unavailable_response (routed U user_text)))
        /\ invocations tr' = []).
Proof.
  intros Hcr Hc. apply create_returned in Hcr. subst self. simpl in Hc.
  split.
  - intros id Hin Ht.
    assert (Ha : assoc (routed U user_text) (agents (created S F))
                 = Some {| agent_name := routed U user_text;
                           agent_id := id |}).
    { simpl. unfold registered. unfold starts in Hc.
      rewrite !andb_true_iff in Hc. destruct Hc as [[Hr Hb] _].
      rewrite Hr, assoc_agent_of, built_until_failure_all by exact Hb.
      rewrite (@in_assoc_nodup _ (routed U user_text) id (wanted S));
        [reflexivity|apply wanted_nodup|].
      unfold wanted. apply in_flat_map.
      exists (routed U user_text, Some id).
      split; [exact Hin|]. simpl. rewrite Ht. now left. }
    destruct (@respond_invokes U hook_raises invoke now user_text
                conversation_id (created S F) _ Hc wf_init Ha)
      as (s' & tr' & o & Hr & Hi & Ho).
    exists s', tr', o. split; [exact Hr|].
    simpl thread_cache in Hi, Ho. rewrite cached_thread_init in Hi, Ho.
    split; [exact Hi|exact Ho].
  - intros Hno. eexists. split.
    + apply respond_unavailable_run; [exact Hc|].
      simpl. unfold registered.
      destruct (client_ready F); [|reflexivity].
      rewrite assoc_agent_of.
      destruct (assoc (routed U user_text)
                  (built_until_failure F (wanted S))) as [id|] eqn:E;
        [|reflexivity].
      apply assoc_some_in in E. apply built_until_failure_in in E.
      destruct E as [Hin _]. apply wanted_names in Hin.
      destruct Hin as [Hin Ht]. apply Hno in Hin. congruence.
    + reflexivity.
Qed.

Lemma first_request_after_create_witness :
  (exists self' tr' o,
     respond ascii_db (fun _ => None)
       (fun _ _ _ => ([{| content := Some (cps "We sell paint.");
                          thread := Some (cps "thread_1");
                          arrival := 1 |}], None))
       0 (cps "show me products") (Some (cps "conv-1"))
       (created
          {| azure_foundry_endpoint := Some (cps "https://foundry");
             foundry_product_agent_id := Some (cps "asst_product");
             foundry_order_agent_id := None;
             foundry_knowledge_agent_id := Some [] |}
          {| has_foundry_config := true;
             init_foundry_client_raises := None;
             get_foundry_client_raises := None;
             get_agent_raises := fun _ => None |})
     = (self', tr', o)
     /\ invocations tr'
        = [Invoke {| agent_name := ProductLookupAgent;
                     agent_id := cps "asst_product" |}
             (cps "show me products") None])
  /\ exists tr',
       respond ascii_db (fun _ => None)
         (fun _ _ _ => ([{| content := Some (cps "We sell paint.");
                            thread := Some (cps "thread_1");
                            arrival := 1 |}], None))
         0 (cps "what is your return policy") (Some (cps "conv-1"))
         (created
            {| azure_foundry_endpoint := Some (cps "https://foundry");
               foundry_product_agent_id := Some (cps "asst_product");
               foundry_order_agent_id := None;
               foundry_knowledge_agent_id := Some [] |}
            {| has_foundry_config := true;
               init_foundry_client_raises := None;
               get_foundry_client_raises := None;
               get_agent_raises := fun _ => None |})
       = (created
            {| azure_foundry_endpoint := Some (cps "https://foundry");
               foundry_product_agent_id := Some (cps "asst_product");
               foundry_order_agent_id := None;
               foundry_knowledge_agent_id := Some [] |}
            {| has_foundry_config := true;
               init_foundry_client_raises := None;
               get_foundry_client_raises := None;
               get_agent_raises := fun _ => None |},
          tr', Returns (unavailable_response KnowledgeAgent))
       /\ invocations tr' = [].
Proof.
  split.
  - destruct (proj1 (@first_request_after_create
      {| azure_foundry_endpoint := Some (cps "https://foundry");
         foundry_product_agent_id := Some (cps "asst_product");
         foundry_order_agent_id := None;
         foundry_knowledge_agent_id := Some [] |}
      {| has_foundry_config := true;
         init_foundry_client_raises := None;
         get_foundry_client_raises := None;
         get_agent_raises := fun _ => None |}
      ascii_db (fun _ => None)
      (fun _ _ _ => ([{| content := Some (cps "We sell paint.");
                         thread := Some (cps "thread_1");
                         arrival := 1 |}], None))
      0 (cps "show me products") (Some (cps "conv-1")) _ _
      eq_refl eq_refl) (cps "asst_product") (or_introl eq_refl) eq_refl)
      as (self' & tr' & o & Hr & Hi & _).
    exists self', tr', o. split; [exact Hr|exact Hi].
  - apply (proj2 (@first_request_after_create
      {| azure_foundry_endpoint := Some (cps "https://foundry");
         foundry_product_agent_id := Some (cps "asst_product");
         foundry_order_agent_id := None;
         foundry_knowledge_agent_id := Some [] |}
      {| has_foundry_config := true;
         init_foundry_client_raises := None;
         get_foundry_client_raises := None;
         get_agent_raises := fun _ => None |}
      ascii_db (fun _ => None)
      (fun _ _ _ => ([{| content := Some (cps "We sell paint.");
                         thread := Some (cps "thread_1");
                         arrival := 1 |}], None))
      0 (cps "what is your return policy") (Some (cps "conv-1")) _ _
      eq_refl eq_refl)).
    intros id [H|[H|[H|[]]]]; try discriminate H.
    injection H as <-. reflexivity.
Defined.

(** X6: a start-up in which only the order agent id is set succeeds, with
    OrderStatusAgent as the only registered agent, and the orchestrator it
    returns serves no request: the classifier never picks that agent, so
    every call, in every later state, returns the agent-unavailable error
    without invoking anything and leaves the orchestrator as it was. *)
Theorem order_agent_alone_serves_nothing (S : Settings) (F : Foundry)
    (order_id : pystr) :
  has_foundry_config F = true ->
  init_foundry_client_raises F = None ->
  get_foundry_client_raises F = None ->
  get_agent_raises F order_id = None ->
  conv_true (foundry_product_agent_id S) = None ->
  conv_true (foundry_order_agent_id S) = Some order_id ->
  conv_true (foundry_knowledge_agent_id S) = None ->
  exists tr self,
    create S F = (tr, Returns self)
    /\ is_configured self = true
    /\ agents self
       = [(OrderStatusAgent,
           {| agent_name := OrderStatusAgent; agent_id := order_id |})]
    /\ forall U hook_raises invoke now user_text conversation_id,
         respond U hook_raises invoke now user_text conversation_id self
         = (self,
            [Info (fst (_determine_target_agent U user_text));
             Error (LogAgentUnavailable (routed U user_text))],
            Returns (unavailable_response (routed U user_text))).
Proof.
  intros Hc Hi Hg Ha Hp Ho Hk.
  assert (Hcr : created S F
                = {| agents := [(OrderStatusAgent,
                                 {| agent_name := OrderStatusAgent;
                                    agent_id := order_id |})];
                     is_configured := true;
                     thread_cache := ThreadCache_init |}).
  { unfold created, registered, starts, client_ready, wanted, agent_settings.
    cbn [flat_map fst snd]. rewrite Hc, Hi, Hp, Ho, Hk.
    cbn [app forallb built_until_failure snd andb].
    unfold builds. rewrite Hg, Ha. reflexivity. }
  assert (Hout : create_outcome S F = Returns (created S F)).
  { unfold create_outcome, startup_raises. rewrite Hc, Hi.
    unfold wanted, agent_settings. cbn [flat_map fst snd].
    rewrite Hp, Ho, Hk. cbn [app map snd build_raises].
    rewrite Hg, Ha. reflexivity. }
  exists (fst (create S F)), (created S F).
  split; [rewrite <- Hout; apply create_run|]. rewrite Hcr.
  split; [reflexivity|]. split; [reflexivity|].
  intros U hook_raises invoke now user_text conversation_id.
  apply respond_unavailable_run; [reflexivity|].
  destruct (routed_cases U user_text) as [-> | ->]; reflexivity.
Qed.

Lemma order_agent_alone_serves_nothing_witness :
  exists tr self,
    create
      {| azure_foundry_endpoint := Some (cps "https://foundry");
         foundry_product_agent_id := None;
         foundry_order_agent_id := Some (cps "asst_order");
         foundry_knowledge_agent_id := Some [] |}
      {| has_foundry_config := true;
         init_foundry_client_raises := None;
         get_foundry_client_raises := None;
         get_agent_raises := fun _ => None |}
    = (tr, Returns self)
    /\ is_configured self = true
    /\ respond ascii_db (fun _ => None) (fun _ _ _ => ([], None)) 0
         (cps "Where is my order?") (Some (cps "conv-1")) self
       = (self,
          [Info LogRouteDefault; Error (LogAgentUnavailable ProductLookupAgent)],
          Returns (unavailable_response ProductLookupAgent)).
Proof.
  destruct (@order_agent_alone_serves_nothing
    {| azure_foundry_endpoint := Some (cps "https://foundry");
       foundry_product_agent_id := None;
       foundry_order_agent_id := Some (cps "asst_order");
       foundry_knowledge_agent_id := Some [] |}
    {| has_foundry_config := true;
       init_foundry_client_raises := None;
       get_foundry_client_raises := None;
       get_agent_raises := fun _ => None |}
    (cps "asst_order") eq_refl eq_refl eq_refl eq_refl eq_refl eq_refl eq_refl)
    as (tr & self & Hcr & Hc & _ & Hr).
  exists tr, self. split; [exact Hcr|]. split; [exact Hc|].
  exact (Hr ascii_db (fun _ => None) (fun _ _ _ => ([], None)) 0%Q
           (cps "Where is my order?") (Some (cps "conv-1"))).
Defined.

(* ===================================================================== *)
(** ** The module-level instance *)
(* ===================================================================== *)

Lemma get_instances_kept (self : SimpleFoundryOrchestrator)
    (worlds : list (Settings * Foundry)) :
  get_instances worlds (Some self)
  = (Some self, [], repeat (Returns self) (List.length worlds)).
Proof.
  induction worlds as [|[S F] worlds IH]; [reflexivity|].
  cbn [get_instances]. unfold get_simple_foundry_orchestrator, kbind, kget.
  cbn. rewrite IH. reflexivity.
Qed.

(** X7: [get_simple_foundry_orchestrator] and the module variable.
    Among calls that do not overlap, the start-up runs once: the first
    call stores and returns what [create] returns, and every later call
    returns that same instance without any call or log line, whatever the
    settings and the service have become.  An instance whose start-up
    failed with an exception is kept as it is, unconfigured: the start-up
    is not tried again.  A start-up that a cancellation interrupted leaves
    the variable empty, and the next call starts over.  When two calls
    overlap, the second testing the variable while the first is suspended
    in a start-up that awaits, both run the start-up, each returns its
    own instance, and the variable ends up holding the one assigned
    last. *)
Theorem instance_is_created_once (S : Settings) (F : Foundry)
    (tr : list startup_event) :
  (forall self worlds,
     create S F = (tr, Returns self) ->
     get_instances ((S, F) :: worlds) None
     = (Some self, tr, repeat (Returns self) (1 + List.length worlds)))
  /\ (forall b,
        create S F = (tr, Escapes b) ->
        get_simple_foundry_orchestrator S F None = (None, tr, Escapes b))
  /\ (forall self S2 F2 tr2 self2,
        has_foundry_config F = true ->
        create S F = (tr, Returns self) ->
        create S2 F2 = (tr2, Returns self2) ->
        overlapping_calls S F S2 F2 None
        = (Some self2, tr ++ tr2, Returns (self, self2))).
Proof.
  split; [|split].
  - intros self worlds Hcr. cbn [get_instances].
    unfold get_simple_foundry_orchestrator, await_create, assign_instance,
      kbind, kget, kmodify, kret.
    rewrite Hcr. cbn. rewrite get_instances_kept, !app_nil_r. reflexivity.
  - intros b Hcr.
    unfold get_simple_foundry_orchestrator, await_create, kbind, kget.
    rewrite Hcr. cbn. reflexivity.
  - intros self S2 F2 tr2 self2 _ Hcr1 Hcr2.
    unfold overlapping_calls, await_create, assign_instance,
      kbind, kget, kmodify, kret.
    rewrite Hcr1, Hcr2. cbn. rewrite !app_nil_r. reflexivity.
Qed.

Lemma instance_is_created_once_witness :
  get_instances
    [({| azure_foundry_endpoint := Some (cps "https://foundry");
         foundry_product_agent_id := Some (cps "asst_product");
         foundry_order_agent_id := None;
         foundry_knowledge_agent_id := None |},
      {| has_foundry_config := true;
         init_foundry_client_raises := None;
         get_foundry_client_raises := None;
         get_agent_raises := fun _ => Some (Exc (Exception (cps "no agent"))) |});
     ({| azure_foundry_endpoint := Some (cps "https://foundry");
         foundry_product_agent_id := Some (cps "asst_product");
         foundry_order_agent_id := None;
         foundry_knowledge_agent_id := None |},
      {| has_foundry_config := true;
         init_foundry_client_raises := None;
         get_foundry_client_raises := None;
         get_agent_raises := fun _ => None |})]
    None
  = (Some {| agents := []; is_configured := false;
             thread_cache := ThreadCache_init |},
     fst (create
            {| azure_foundry_endpoint := Some (cps "https://foundry");
               foundry_product_agent_id := Some (cps "asst_product");
               foundry_order_agent_id := None;
               foundry_knowledge_agent_id := None |}
            {| has_foundry_config := true;
               init_foundry_client_raises := None;
               get_foundry_client_raises := None;
               get_agent_raises :=
                 fun _ => Some (Exc (Exception (cps "no agent"))) |}),
     [Returns {| agents := []; is_configured := false;
                 thread_cache := ThreadCache_init |};
      Returns {| agents := []; is_configured := false;
                 thread_cache := ThreadCache_init |}]).
Proof.
  apply (proj1 (@instance_is_created_once
    {| azure_foundry_endpoint := Some (cps "https://foundry");
       foundry_product_agent_id := Some (cps "asst_product");
       foundry_order_agent_id := None;
       foundry_knowledge_agent_id := None |}
    {| has_foundry_config := true;
       init_foundry_client_raises := None;
       get_foundry_client_raises := None;
       get_agent_raises := fun _ => Some (Exc (Exception (cps "no agent"))) |}
    _)
    {| agents := []; is_configured := false;
       thread_cache := ThreadCache_init |}
    [({| azure_foundry_endpoint := Some (cps "https://foundry");
         foundry_product_agent_id := Some (cps "asst_product");
         foundry_order_agent_id := None;
         foundry_knowledge_agent_id := None |},
      {| has_foundry_config := true;
         init_foundry_client_raises := None;
         get_foundry_client_raises := None;
         get_agent_raises := fun _ => None |})]).
  reflexivity.
Defined.

(* ===================================================================== *)
(** ** Calls without a conversation id, and what no call changes *)
(* ===================================================================== *)

Lemma drain_no_conversation (hook_raises : pystr -> option exn)
    (conversation_id : option pystr) (target : pystr)
    (items : list message) :
  conv_true conversation_id = None ->
  forall acc s,
    drain hook_raises conversation_id target items acc s
    = (s, [], Returns (acc ++ response_text items)).
Proof.
  intros Hc. induction items as [|m items IH]; intros acc s.
  - simpl. unfold ret, response_text. simpl. now rewrite app_nil_r.
  - cbn [drain]. rewrite drain_fragment, Hc.
    unfold bind, ret. rewrite IH. unfold response_text. simpl.
    now rewrite app_assoc.
Qed.

Lemma no_invoke_invocations (tr : list event) :
  forallb (fun ev => negb (is_invoke ev)) tr = true -> invocations tr = [].
Proof.
  unfold invocations. induction tr as [|ev tr IH]; simpl; [reflexivity|].
  rewrite andb_true_iff. intros [H1 H2].
  destruct (is_invoke ev); [discriminate|auto].
Qed.

(** X8: a call without a conversation id ([None] or the empty string) that
    reaches the agent invokes it once with no thread and does not touch the
    thread cache: no read, no write, even when the stream yields thread
    handles, and the orchestrator is left as it was.  This holds on every
    state of the cache and for every stream, also one that is cut short
    by an exception, which ends the call in the error dict or, when it is
    not an instance of [Exception], passes through the call. *)
Theorem respond_without_conversation (U : unicode)
    (hook_raises : pystr -> option exn)
    (invoke : AzureAIAgent -> pystr -> option pystr -> stream)
    (now : Q) (user_text : pystr) (conversation_id : option pystr)
    (s : SimpleFoundryOrchestrator) (agent : AzureAIAgent) :
  is_configured s = true ->
  assoc (routed U user_text) (agents s) = Some agent ->
  conversation_id = None \/ conversation_id = Some [] ->
  exists tr,
    respond U hook_raises invoke now user_text conversation_id s
    = (s, tr,
       match snd (invoke agent user_text None) with
       | Some (Exc e) =>
           Returns
             (error_response
                (cps "Failed to generate response: " ++ exn_str U e)
                (cps "I'm sorry, I encountered an error trying to process your request."))
       | Some (Base b) => Escapes b
       | None =>
           Returns
             (if truthy (response_text (fst (invoke agent user_text None)))
              then success_response U
                     (response_text (fst (invoke agent user_text None)))
              else error_response (cps "No response from agent")
                     (cps "I'm sorry, I couldn't get a response from the agent."))
       end)
    /\ invocations tr = [Invoke agent user_text None]
    /\ filter is_cache_access tr = [].
Proof.
  intros Hc Hagent Hconv.
  assert (Hn : conv_true conversation_id = None).
  { destruct Hconv as [-> | ->]; reflexivity. }
  unfold routed in *.
  destruct (_determine_target_agent U user_text) as [line target] eqn:Ed.
  cbn [snd] in *.
  unfold respond. unfold bind at 1, get at 1. rewrite Hc. cbn [negb].
  rewrite Ed. unfold try_except.
  unfold bind at 1, emit at 1. rewrite Hagent.
  unfold bind at 1, emit at 1. unfold bind at 1.
  unfold lookup_thread. rewrite Hn. unfold ret at 1.
  unfold bind at 1, emit at 1. unfold bind at 1.
  rewrite (@drain_no_conversation hook_raises conversation_id target
             (fst (invoke agent user_text None)) Hn).
  cbn [app].
  destruct (snd (invoke agent user_text None)) as [[e|b]|].
  - unfold raise, bind, emit, ret. cbn [app].
    eexists. split; [reflexivity|]. split; reflexivity.
  - unfold escape. cbn [app].
    eexists. split; [reflexivity|]. split; reflexivity.
  - destruct (truthy (response_text (fst (invoke agent user_text None))));
      unfold bind, emit, ret; cbn [app];
      (eexists; split; [reflexivity|]; split; reflexivity).
Qed.

Lemma respond_without_conversation_witness :
  exists tr,
    respond ascii_db (fun _ => None)
      (fun _ _ _ => ([{| content := Some (cps "We sell paint.");
                         thread := Some (cps "thread_1");
                         arrival := 1 |}], None))
      0 (cps "show me products") (Some [])
      {| agents := [(ProductLookupAgent,
                     {| agent_name := ProductLookupAgent;
                        agent_id := cps "asst_product" |})];
         is_configured := true; thread_cache := ThreadCache_init |}
    = ({| agents := [(ProductLookupAgent,
                      {| agent_name := ProductLookupAgent;
                         agent_id := cps "asst_product" |})];
          is_configured := true; thread_cache := ThreadCache_init |},
       tr,
       Returns (success_response ascii_db (cps "We sell paint.")))
    /\ filter is_cache_access tr = [].
Proof.
  destruct (@respond_without_conversation ascii_db (fun _ => None)
    (fun _ _ _ => ([{| content := Some (cps "We sell paint.");
                       thread := Some (cps "thread_1");
                       arrival := 1 |}], None))
    0 (cps "show me products") (Some [])
    {| agents := [(ProductLookupAgent,
                   {| agent_name := ProductLookupAgent;
                      agent_id := cps "asst_product" |})];
       is_configured := true; thread_cache := ThreadCache_init |}
    {| agent_name := ProductLookupAgent; agent_id := cps "asst_product" |}
    eq_refl eq_refl (or_intror eq_refl)) as (tr & Hr & _ & Ha).
  exists tr. split; [exact Hr|exact Ha].
Defined.

Ltac count_invocations Hn1 Hn2 :=
  unfold invocations in *;
  repeat (cbn [filter is_invoke app]; rewrite ?filter_app, ?Hn1, ?Hn2);
  simpl; lia.

(** X9: no call of [respond] changes the registry of agents or the
    configured flag, and no call invokes an agent more than once; on every
    state, for every stream and release hook, also when the call ends in
    the handler of an exception.  The call returns a dict, unless the
    stream of the agent it invoked ends in an exception that is not an
    instance of [Exception], which it propagates. *)
Theorem respond_never_reconfigures (U : unicode)
    (hook_raises : pystr -> option exn)
    (invoke : AzureAIAgent -> pystr -> option pystr -> stream)
    (now : Q) (user_text : pystr) (conversation_id : option pystr)
    (s : SimpleFoundryOrchestrator) :
  exists s' tr o,
    respond U hook_raises invoke now user_text conversation_id s
    = (s', tr, o)
    /\ ((exists d, o = Returns d)
        \/ (exists b agent th,
              o = Escapes b
              /\ snd (invoke agent user_text th) = Some (Base b)))
    /\ agents s' = agents s
    /\ is_configured s' = is_configured s
    /\ List.length (invocations tr) <= 1.
Proof.
  unfold respond. unfold bind at 1, get at 1.
  destruct (is_configured s) eqn:Hcfg; cbn [negb].
  2: { unfold bind, emit, ret. simpl. do 3 eexists.
       split; [reflexivity|]. simpl. split; [left; eauto|]. auto. }
  destruct (_determine_target_agent U user_text) as [line target].
  unfold try_except. unfold bind at 1, emit at 1.
  destruct (assoc target (agents s)) as [agent|].
  2: { unfold bind, emit, ret. simpl. do 3 eexists.
       split; [reflexivity|]. simpl. split; [left; eauto|]. auto. }
  unfold bind at 1, emit at 1. unfold bind at 1.
  pose proof (lookup_thread_tame now conversation_id target s) as Hl.
  destruct (lookup_thread now conversation_id target s)
    as [[s1 tr1] o1].
  destruct Hl as (Hn1 & Ho1 & Ha1 & Hc1). simpl in Hn1, Ho1, Ha1, Hc1.
  apply no_invoke_invocations in Hn1.
  destruct o1 as [th|e| |]; [| |contradiction|contradiction].
  2: { unfold bind, emit, ret. simpl. do 3 eexists.
       split; [reflexivity|]. simpl. split; [left; eauto|].
       repeat split; [congruence..|].
       rewrite invocations_app, Hn1. simpl. lia. }
  unfold bind at 1, emit at 1. unfold bind at 1.
  pose proof (drain_tame hook_raises conversation_id target
                (fst (invoke agent user_text th)) [] s1) as Hd.
  destruct (drain hook_raises conversation_id target
              (fst (invoke agent user_text th)) [] s1) as [[s2 tr2] o2].
  destruct Hd as (Hn2 & Ho2 & Ha2 & Hc2). simpl in Hn2, Ho2, Ha2, Hc2.
  apply no_invoke_invocations in Hn2.
  destruct o2 as [text|e| |]; [| |contradiction|contradiction].
  2: { unfold bind, emit, ret. cbn [app]. do 3 eexists.
       split; [reflexivity|]. split; [left; eauto|].
       repeat split; [congruence..|].
       count_invocations Hn1 Hn2. }
  destruct (snd (invoke agent user_text th)) as [[e|b]|] eqn:Efin.
  { unfold raise, bind, emit, ret. cbn [app]. do 3 eexists.
    split; [reflexivity|]. split; [left; eauto|].
    repeat split; [congruence..|].
    count_invocations Hn1 Hn2. }
  { unfold escape. cbn [app]. do 3 eexists.
    split; [reflexivity|]. split; [right; eauto|].
    repeat split; [congruence..|].
    count_invocations Hn1 Hn2. }
  destruct (truthy text) eqn:Et.
  - unfold bind, emit, ret. cbn [app]. do 3 eexists.
    split; [reflexivity|]. split; [left; eauto|].
    repeat split; [congruence..|].
    count_invocations Hn1 Hn2.
  - unfold bind, emit, ret. cbn [app]. do 3 eexists.
    split; [reflexivity|]. split; [left; eauto|].
    repeat split; [congruence..|].
    count_invocations Hn1 Hn2.
Qed.

(* ===================================================================== *)
(** ** Conversations that share the cache *)
(* ===================================================================== *)

Lemma cache_key_names (c1 c2 n1 n2 : pystr) :
  In n1 agent_names -> In n2 agent_names ->
  cache_key c1 n1 = cache_key c2 n2 ->
  c1 = c2 /\ n1 = n2.
Proof.
  unfold cache_key. intros H1 H2 H.
  assert (Hn : n1 = n2).
  { apply (f_equal (@rev N)) in H. rewrite !rev_app_distr in H.
    simpl in H1, H2.
    destruct H1 as [<-|[<-|[<-|[]]]]; destruct H2 as [<-|[<-|[<-|[]]]];
      try reflexivity; exfalso; cbn in H; discriminate H. }
  subst n2. split; [|reflexivity].
  apply app_inv_tail in H. exact H.
Qed.

(** X10: the cache key determines the conversation and the agent: two
    keys built from agent names of the registry are equal exactly when
    both the conversation ids and the names are, although a conversation
    id may itself contain underscores. *)
Theorem cache_key_injective (c1 c2 n1 n2 : pystr) :
  In n1 agent_names -> In n2 agent_names ->
  (cache_key c1 n1 = cache_key c2 n2 <-> c1 = c2 /\ n1 = n2).
Proof.
  intros H1 H2. split.
  - now apply cache_key_names.
  - intros [-> ->]. reflexivity.
Qed.

Lemma cache_key_injective_witness :
  cache_key (cps "a_b") KnowledgeAgent = cache_key (cps "a") ProductLookupAgent
  <-> cps "a_b" = cps "a" /\ KnowledgeAgent = ProductLookupAgent.
Proof.
  apply (@cache_key_injective (cps "a_b") (cps "a")
           KnowledgeAgent ProductLookupAgent).
  - right. right. left. reflexivity.
  - left. reflexivity.
Defined.

Lemma kept_or_dropped_refl (k : pystr) (c : TTLCache) : kept_or_dropped k c c.
Proof. split; left; reflexivity. Qed.

Lemma kept_or_dropped_trans (k : pystr) (c1 c2 c3 : TTLCache) :
  kept_or_dropped k c1 c2 -> kept_or_dropped k c2 c3 ->
  kept_or_dropped k c1 c3.
Proof.
  intros [[R1|R1] [D1|D1]] [[R2|R2] [D2|D2]]; split;
    try (left; congruence); right; congruence.
Qed.

Lemma put_result_other (t : Q) (key value k : pystr) (c : TTLCache) :
  wf c -> k <> key -> kept_or_dropped k c (put_result t key value c).
Proof.
  intros Hwf Hne. split.
  - unfold put_result. cbn [ring].
    rewrite assoc_app, assoc_remove_key_other by congruence.
    assert (Hk : assoc k [(key, Float.add t (ttl c))] = None).
    { simpl. destruct (pystr_eq_dec k key); [contradiction|reflexivity]. }
    rewrite Hk.
    assert (Hp : assoc k (ring (purged t c)) = assoc k (ring c)
                 \/ assoc k (ring (purged t c)) = None).
    { unfold purged. cbn [ring].
      rewrite assoc_filter by apply (wf_ring Hwf).
      destruct (assoc k (ring c)) as [e|]; [|now left].
      destruct (is_live t (k, e)); [now left|now right]. }
    assert (Hw : assoc k (ring (without (evicted key (purged t c))
                                  (purged t c)))
                 = assoc k (ring (purged t c))
                 \/ assoc k (ring (without (evicted key (purged t c))
                                     (purged t c))) = None).
    { destruct (evicted key (purged t c)) as [|[k0 v0] ?]; [now left|].
      cbn [without ring].
      destruct (pystr_eq_dec k0 k) as [->|Hk0].
      - right. apply assoc_remove_key_same.
      - left. now apply assoc_remove_key_other. }
    destruct (assoc k (ring (without (evicted key (purged t c))
                               (purged t c)))) as [e|]; [|now right].
    destruct Hw as [Hw|Hw]; [|discriminate].
    destruct Hp as [Hp|Hp]; [left|]; congruence.
  - rewrite put_result_assoc_other by exact Hne.
    assert (Hp : assoc k (data (purged t c)) = assoc k (data c)
                 \/ assoc k (data (purged t c)) = None).
    { rewrite purged_assoc by exact Hwf.
      destruct (live_key t (ring c) k); [now left|now right]. }
    assert (Hw : assoc k (data (without (evicted key (purged t c))
                                  (purged t c)))
                 = assoc k (data (purged t c))
                 \/ assoc k (data (without (evicted key (purged t c))
                                     (purged t c))) = None).
    { destruct (evicted key (purged t c)) as [|[k0 v0] ?]; [now left|].
      cbn [without data].
      destruct (pystr_eq_dec k0 k) as [->|Hk0].
      - right. apply assoc_remove_key_same.
      - left. now apply assoc_remove_key_other. }
    destruct (assoc k (data (without (evicted key (purged t c))
                               (purged t c)))) as [v|]; [|now right].
    destruct Hw as [Hw|Hw]; [|discriminate].
    destruct Hp as [Hp|Hp]; [left|]; congruence.
Qed.

Lemma drained_cache_other (key k : pystr) (items : list message) :
  k <> key ->
  forall c t0,
    ThreadCache_inv t0 c -> clock_ok t0 items ->
    kept_or_dropped k c (drained_cache key items c).
Proof.
  intros Hne. induction items as [|m items IH]; intros c t0 Hinv Hclock.
  - apply kept_or_dropped_refl.
  - destruct (clock_ok_step Hclock) as [Hle Hclock'].
    pose proof (ThreadCache_inv_later Hinv Hle) as Hinv1.
    cbn [drained_cache]. destruct (thread m) as [tid|].
    + apply kept_or_dropped_trans
        with (c2 := put_result (arrival m) key tid c).
      * apply put_result_other; [apply Hinv1|exact Hne].
      * apply IH with (t0 := arrival m); [|exact Hclock'].
        apply ThreadCache_inv_put. exact Hinv1.
    + apply IH with (t0 := arrival m); assumption.
Qed.

Lemma get_state_other (t : Q) (key k : pystr) (c : TTLCache) :
  wf c -> kept_or_dropped k c (get_state t key c).
Proof.
  intros Hwf. split; left.
  - now rewrite (proj1 (get_state_ring t key c)).
  - now apply get_state_assoc.
Qed.

Lemma cached_thread_other (t : Q) (conversation_id : option pystr)
    (target : pystr) (c c' : TTLCache) :
  (forall cid, conv_true conversation_id = Some cid ->
               kept_or_dropped (cache_key cid target) c c') ->
  cached_thread t conversation_id target c'
  = cached_thread t conversation_id target c
  \/ cached_thread t conversation_id target c' = None.
Proof.
  intros H. unfold cached_thread.
  destruct (conv_true conversation_id) as [cid|]; [|now left].
  destruct (H cid eq_refl) as [[R|R] [D|D]]; unfold live_key;
    rewrite ?R, ?D; auto;
    destruct (assoc (cache_key cid target) (ring c)) as [e|]; auto;
    destruct (Qltb t e); auto.
Qed.

Lemma respond_other_keys (U : unicode)
    (hook_raises : pystr -> option exn)
    (invoke : AzureAIAgent -> pystr -> option pystr -> stream)
    (now : Q) (user_text : pystr) (conversation_id : option pystr)
    (s : SimpleFoundryOrchestrator) (k : pystr) :
  ThreadCache_inv now (thread_cache s) ->
  (forall agent th, clock_ok now (fst (invoke agent user_text th))) ->
  (forall cid, conv_true conversation_id = Some cid ->
               k <> cache_key cid (routed U user_text)) ->
  kept_or_dropped k (thread_cache s)
    (thread_cache
       (fst (fst (respond U hook_raises invoke now user_text
                    conversation_id s)))).
Proof.
  intros Hinv Hclock Hk.
  destruct (is_configured s) eqn:Hc.
  - destruct (assoc (routed U user_text) (agents s)) as [agent|] eqn:Ha.
    + destruct (@respond_run U hook_raises invoke now user_text
                  conversation_id s agent Hc Hinv Ha (Hclock _ _))
        as (tr & Hr & _).
      rewrite Hr. cbn [fst thread_cache set_thread_cache].
      unfold after_drain, looked_up.
      destruct (conv_true conversation_id) as [cid|];
        [|apply kept_or_dropped_refl].
      eapply kept_or_dropped_trans.
      * apply get_state_other. apply Hinv.
      * apply drained_cache_other with (t0 := now);
          [exact (Hk cid eq_refl)| |apply Hclock].
        apply ThreadCache_inv_get. exact Hinv.
    + rewrite (@respond_unavailable_run U hook_raises invoke now user_text
                 conversation_id s Hc Ha).
      apply kept_or_dropped_refl.
  - unfold respond. unfold bind, get, emit, ret. rewrite Hc. cbn.
    apply kept_or_dropped_refl.
Qed.

(** X11: a call for one conversation and agent never gives another
    conversation, or the same conversation with another agent, a thread it
    did not have.  After the call, however it ends, the thread that a
    request for the other pair would resume, at any time, is the one it
    would have resumed before the call, or none when the call expired or
    evicted it. *)
Theorem conversations_do_not_mix (U : unicode)
    (hook_raises : pystr -> option exn)
    (invoke : AzureAIAgent -> pystr -> option pystr -> stream)
    (now : Q) (user_text : pystr) (conversation_id : pystr)
    (s : SimpleFoundryOrchestrator) (agent : AzureAIAgent)
    (other_conversation other_agent : pystr) :
  is_configured s = true ->
  ThreadCache_inv now (thread_cache s) ->
  assoc (routed U user_text) (agents s) = Some agent ->
  clock_ok now
    (fst (invoke agent user_text
            (cached_thread now (Some conversation_id) (routed U user_text)
               (thread_cache s)))) ->
  In other_agent agent_names ->
  (other_conversation, other_agent)
  <> (conversation_id, routed U user_text) ->
  exists s' tr o,
    respond U hook_raises invoke now user_text (Some conversation_id) s
    = (s', tr, o)
    /\ o = answer U
             (invoke agent user_text
                (cached_thread now (Some conversation_id)
                   (routed U user_text) (thread_cache s)))
    /\ forall t,
         cached_thread t (Some other_conversation) other_agent
           (thread_cache s')
         = cached_thread t (Some other_conversation) other_agent
             (thread_cache s)
         \/ cached_thread t (Some other_conversation) other_agent
              (thread_cache s') = None.
Proof.
  intros Hc Hinv Hagent Hclock Hin Hne.
  destruct (@respond_run U hook_raises invoke now user_text
              (Some conversation_id) s agent Hc Hinv Hagent Hclock)
    as (tr & Hr & _).
  do 3 eexists. split; [exact Hr|]. split; [reflexivity|].
  intros t. apply cached_thread_other. intros cid Hcid.
  cbn [thread_cache set_thread_cache].
  unfold after_drain, looked_up.
  destruct (conv_true (Some conversation_id)) as [mine|] eqn:Em;
    [|apply kept_or_dropped_refl].
  assert (Hk : cache_key cid other_agent
               <> cache_key mine (routed U user_text)).
  { intros Heq. apply cache_key_names in Heq.
    - destruct Heq as [-> ->]. apply Hne.
      simpl in Hcid, Em.
      destruct (truthy other_conversation); [|discriminate].
      destruct (truthy conversation_id); [|discriminate].
      congruence.
    - exact Hin.
    - destruct (routed_cases U user_text) as [-> | ->]; simpl; auto. }
  eapply kept_or_dropped_trans.
  - apply get_state_other. apply Hinv.
  - apply drained_cache_other with (t0 := now); [exact Hk| |exact Hclock].
    apply ThreadCache_inv_get. exact Hinv.
Qed.

Lemma conversations_do_not_mix_witness :
  exists s' tr o,
    respond ascii_db (fun _ => None)
      (fun _ _ _ => ([{| content := Some (cps "We sell paint.");
                         thread := Some (cps "thread_1");
                         arrival := 1 |}], None))
      0 (cps "show me products") (Some (cps "conv-1"))
      {| agents := [(ProductLookupAgent,
                     {| agent_name := ProductLookupAgent;
                        agent_id := cps "asst_product" |})];
         is_configured := true;
         thread_cache :=
           put_result 0 (cache_key (cps "conv-2") ProductLookupAgent)
             (cps "thread_7") ThreadCache_init |}
    = (s', tr, o)
    /\ (cached_thread 10 (Some (cps "conv-2")) ProductLookupAgent
          (thread_cache s')
        = Some (cps "thread_7")
        \/ cached_thread 10 (Some (cps "conv-2")) ProductLookupAgent
             (thread_cache s') = None).
Proof.
  destruct (@conversations_do_not_mix ascii_db (fun _ => None)
    (fun _ _ _ => ([{| content := Some (cps "We sell paint.");
                       thread := Some (cps "thread_1");
                       arrival := 1 |}], None))
    0 (cps "show me products") (cps "conv-1")
    {| agents := [(ProductLookupAgent,
                   {| agent_name := ProductLookupAgent;
                      agent_id := cps "asst_product" |})];
       is_configured := true;
       thread_cache :=
         put_result 0 (cache_key (cps "conv-2") ProductLookupAgent)
           (cps "thread_7") ThreadCache_init |}
    {| agent_name := ProductLookupAgent; agent_id := cps "asst_product" |}
    (cps "conv-2") ProductLookupAgent eq_refl
    (ThreadCache_inv_put (cache_key (cps "conv-2") ProductLookupAgent)
       (cps "thread_7") (ThreadCache_inv_init 0))
    eq_refl) as (s' & tr & o & Hr & _ & Hk).
  - unfold clock_ok. simpl. repeat constructor; unfold Qle; simpl; lia.
  - left. reflexivity.
  - discriminate.
  - exists s', tr, o. split; [exact Hr|]. exact (Hk 10%Q).
Defined.

(* ===================================================================== *)
(** ** The cache accesses of a call *)
(* ===================================================================== *)

Lemma logs_no_accesses (tr : list event) :
  forallb is_log tr = true -> filter is_cache_access tr = [].
Proof.
  induction tr as [|ev tr IH]; simpl; [reflexivity|].
  rewrite andb_true_iff. intros [H1 H2].
  destruct ev; simpl in *; try discriminate; auto.
Qed.

Lemma lookup_thread_accesses (now : Q) (cid target : pystr)
    (s : SimpleFoundryOrchestrator) :
  wf (thread_cache s) -> cid <> [] ->
  filter is_cache_access (snd (fst (lookup_thread now (Some cid) target s)))
  = [CacheGet (cache_key cid target)].
Proof.
  intros Hwf Hne. unfold lookup_thread.
  assert (Ht : conv_true (Some cid) = Some cid).
  { simpl. destruct cid; [congruence|reflexivity]. }
  rewrite Ht. unfold bind, emit, on_cache, zoom.
  rewrite (TTLCache_get_run now (cache_key cid target) Hwf).
  destruct (live_key now (ring (thread_cache s)) (cache_key cid target));
    [|reflexivity].
  destruct (assoc (cache_key cid target) (data (thread_cache s))) as [tid|];
    [|reflexivity].
  destruct (truthy tid); reflexivity.
Qed.

Lemma drain_accesses (hook_raises : pystr -> option exn)
    (cid target : pystr) (items : list message) :
  cid <> [] ->
  forall acc s t0,
    ThreadCache_inv t0 (thread_cache s) -> clock_ok t0 items ->
    filter is_cache_access
      (snd (fst (drain hook_raises (Some cid) target items acc s)))
    = map (CacheSet (cache_key cid target)) (yielded_threads items).
Proof.
  intros Hne.
  assert (Ht : conv_true (Some cid) = Some cid).
  { simpl. destruct cid; [congruence|reflexivity]. }
  induction items as [|m items IH]; intros acc s t0 Hinv Hclock.
  - reflexivity.
  - destruct (clock_ok_step Hclock) as [Hle Hclock'].
    pose proof (ThreadCache_inv_later Hinv Hle) as Hinv1.
    cbn [drain]. rewrite drain_fragment, Ht.
    unfold yielded_threads. cbn [flat_map].
    destruct (thread m) as [tid|] eqn:Et.
    + pose proof Hinv1 as (Hwf1 & _).
      unfold bind at 1. unfold bind at 1, emit at 1.
      unfold on_cache, zoom.
      pose proof (TTLCache_setitem_run hook_raises (arrival m)
                    (cache_key cid target) tid Hwf1) as Hrun.
      pose proof (TTLCache_setitem_logs hook_raises (arrival m)
                    (cache_key cid target) tid (thread_cache s)) as Hcalm.
      rewrite Hrun in Hcalm |- *.
      destruct (Hcalm _ _ _ eq_refl) as [Hlog _].
      pose proof (ThreadCache_inv_put (cache_key cid target) tid Hinv1)
        as Hinv2.
      specialize (IH (acc ++ fragment m)
                    (set_thread_cache
                       (put_result (arrival m) (cache_key cid target) tid
                          (thread_cache s)) s)
                    (arrival m) Hinv2 Hclock').
      destruct (drain hook_raises (Some cid) target items
                  (acc ++ fragment m)
                  (set_thread_cache
                     (put_result (arrival m) (cache_key cid target) tid
                        (thread_cache s)) s)) as [[s2 tr2] o2].
      cbn [fst snd] in IH |- *.
      rewrite filter_app, IH. cbn [app filter is_cache_access].
      rewrite (logs_no_accesses _ Hlog). reflexivity.
    + specialize (IH (acc ++ fragment m) s (arrival m) Hinv1 Hclock').
      unfold bind, ret.
      destruct (drain hook_raises (Some cid) target items
                  (acc ++ fragment m) s) as [[s2 tr2] o2].
      cbn [fst snd] in IH |- *. destruct o2; cbn [fst snd app]; exact IH.
Qed.

(** X12: the cache accesses of a call with a conversation id that reaches
    the agent, however the stream ends: one read, then one write for each
    thread handle the stream yields, in the order of the stream, all under
    the key of this conversation and the agent the text is routed to.  The
    call reads and writes no other key, and does not read again after the
    stream started. *)
Theorem respond_cache_accesses (U : unicode)
    (hook_raises : pystr -> option exn)
    (invoke : AzureAIAgent -> pystr -> option pystr -> stream)
    (now : Q) (user_text : pystr) (conversation_id : pystr)
    (s : SimpleFoundryOrchestrator) (agent : AzureAIAgent) :
  is_configured s = true ->
  ThreadCache_inv now (thread_cache s) ->
  assoc (routed U user_text) (agents s) = Some agent ->
  clock_ok now
    (fst (invoke agent user_text
            (cached_thread now (Some conversation_id) (routed U user_text)
               (thread_cache s)))) ->
  conversation_id <> [] ->
  exists s' tr o,
    respond U hook_raises invoke now user_text (Some conversation_id) s
    = (s', tr, o)
    /\ o = answer U
             (invoke agent user_text
                (cached_thread now (Some conversation_id)
                   (routed U user_text) (thread_cache s)))
    /\ filter is_cache_access tr
       = CacheGet (cache_key conversation_id (routed U user_text))
         :: map (CacheSet (cache_key conversation_id (routed U user_text)))
              (yielded_threads
                 (fst (invoke agent user_text
                         (cached_thread now (Some conversation_id)
                            (routed U user_text) (thread_cache s))))).
Proof.
  intros Hc Hinv Hagent Hclock Hne.
  unfold routed in *.
  destruct (_determine_target_agent U user_text) as [line target] eqn:Ed.
  cbn [snd] in *.
  set (th := cached_thread now (Some conversation_id) target
               (thread_cache s)) in *.
  pose proof Hinv as (Hwf & _).
  pose proof (lookup_thread_accesses now target s Hwf Hne) as Hacc1.
  destruct (lookup_thread_run now (Some conversation_id) target s Hwf)
    as (tr1 & Hl & _).
  fold th in Hl. rewrite Hl in Hacc1. cbn [fst snd] in Hacc1.
  set (s1 := set_thread_cache
               (looked_up now (Some conversation_id) target
                  (thread_cache s)) s) in *.
  assert (Hinv1 : ThreadCache_inv now (thread_cache s1)).
  { apply looked_up_inv. exact Hinv. }
  pose proof (@drain_accesses hook_raises conversation_id target
                (fst (invoke agent user_text th)) Hne [] s1 now Hinv1 Hclock)
    as Hacc2.
  destruct (@drain_run hook_raises (Some conversation_id) target
              (fst (invoke agent user_text th)) [] s1 now Hinv1 Hclock)
    as (tr2 & Hd & _).
  rewrite Hd in Hacc2. cbn [fst snd] in Hacc2.
  unfold respond. unfold bind at 1, get at 1. rewrite Hc. cbn [negb].
  rewrite Ed. unfold try_except.
  unfold bind at 1, emit at 1. rewrite Hagent.
  unfold bind at 1, emit at 1. unfold bind at 1. rewrite Hl.
  unfold bind at 1, emit at 1. unfold bind at 1. rewrite Hd.
  cbn [app].
  unfold answer.
  destruct (snd (invoke agent user_text th)) as [[e|b]|].
  - unfold raise, bind, emit, ret. cbn [app].
    do 3 eexists. split; [reflexivity|]. split; [reflexivity|].
    repeat (cbn [filter is_cache_access app];
            rewrite ?filter_app, ?Hacc1, ?Hacc2).
    cbn [app]. rewrite ?app_nil_r. reflexivity.
  - unfold escape. cbn [app].
    do 3 eexists. split; [reflexivity|]. split; [reflexivity|].
    repeat (cbn [filter is_cache_access app];
            rewrite ?filter_app, ?Hacc1, ?Hacc2).
    cbn [app]. rewrite ?app_nil_r. reflexivity.
  - destruct (truthy (response_text (fst (invoke agent user_text th))));
      unfold bind, emit, ret; cbn [app];
      (do 3 eexists; split; [reflexivity|]; split; [reflexivity|]);
      repeat (cbn [filter is_cache_access app];
              rewrite ?filter_app, ?Hacc1, ?Hacc2);
      cbn [app]; rewrite ?app_nil_r; reflexivity.
Qed.

Lemma respond_cache_accesses_witness :
  exists s' tr o,
    respond ascii_db (fun _ => None)
      (fun _ _ _ =>
         ([{| content := Some (cps "I found ");
              thread := Some (cps "thread_0"); arrival := 5 |};
           {| content := Some (cps "two paints.");
              thread := None; arrival := 6 |};
           {| content := None;
              thread := Some (cps "thread_1"); arrival := 7 |}],
          Some (Base CancelledError)))
      4 (cps "Show me blue paint") (Some (cps "conv-7"))
      {| agents := [(ProductLookupAgent,
                     {| agent_name := ProductLookupAgent;
                        agent_id := cps "asst_1" |})];
         is_configured := true; thread_cache := ThreadCache_init |}
    = (s', tr, o)
    /\ filter is_cache_access tr
       = [CacheGet (cps "conv-7_ProductLookupAgent");
          CacheSet (cps "conv-7_ProductLookupAgent") (cps "thread_0");
          CacheSet (cps "conv-7_ProductLookupAgent") (cps "thread_1")].
Proof.
  destruct (@respond_cache_accesses ascii_db (fun _ => None)
    (fun _ _ _ =>
       ([{| content := Some (cps "I found ");
            thread := Some (cps "thread_0"); arrival := 5 |};
         {| content := Some (cps "two paints.");
            thread := None; arrival := 6 |};
         {| content := None;
            thread := Some (cps "thread_1"); arrival := 7 |}],
        Some (Base CancelledError)))
    4 (cps "Show me blue paint") (cps "conv-7")
    {| agents := [(ProductLookupAgent,
                   {| agent_name := ProductLookupAgent;
                      agent_id := cps "asst_1" |})];
       is_configured := true; thread_cache := ThreadCache_init |}
    {| agent_name := ProductLookupAgent; agent_id := cps "asst_1" |}
    eq_refl (ThreadCache_inv_init 4) eq_refl)
    as (s' & tr & o & Hr & _ & Ha).
  - unfold clock_ok. simpl. repeat constructor; unfold Qle; simpl; lia.
  - discriminate.
  - exists s', tr, o. split; [exact Hr|exact Ha].
Defined.

(* ===================================================================== *)
(** ** Removal from a cache with no live item *)
(* ===================================================================== *)

Lemma dead_links_no_data (t : Q) (c : TTLCache) :
  wf c -> Forall (fun ke => is_live t ke = false) (ring c) ->
  data (purged t c) = [].
Proof.
  intros Hwf Hdead. unfold purged. cbn [data].
  assert (H : forall kv, In kv (data c) ->
                         live_key t (ring c) (fst kv) = false).
  { intros [k v] Hin. unfold live_key. cbn [fst].
    destruct (assoc k (ring c)) as [e|] eqn:E; [|reflexivity].
    apply assoc_some_in in E.
    rewrite Forall_forall in Hdead. exact (Hdead _ E). }
  induction (data c) as [|kv l IH]; [reflexivity|].
  simpl. rewrite (H kv (or_introl eq_refl)). apply IH.
  intros kv' Hin. apply H. now right.
Qed.

(** X14: [ThreadCache.popitem] on a cache with no live item.  The expired
    items are removed and the release hook runs for each of them; then the
    call raises the [KeyError] of the library, since [super().popitem()]
    stands outside the [try]: nothing is evicted and no eviction is
    logged. *)
Theorem popitem_on_empty_cache (hook_raises : pystr -> option exn)
    (t : Q) (c : TTLCache) :
  wf c -> Forall (fun ke => is_live t ke = false) (ring c) ->
  ThreadCache_popitem hook_raises t c
  = (purged t c,
     map (expire_event hook_raises) (map snd (expired_items t c)),
     Raises (KeyError (cps "ThreadCache is empty")))
  /\ data (purged t c) = [].
Proof.
  intros Hwf Hdead.
  pose proof (@dead_links_no_data t c Hwf Hdead) as He.
  split; [|exact He].
  unfold ThreadCache_popitem. unfold bind at 1.
  unfold TTLCache_popitem. unfold bind at 1.
  rewrite (ThreadCache_expire_run hook_raises t Hwf).
  unfold bind, get. rewrite He. unfold raise.
  rewrite app_nil_r. reflexivity.
Qed.

Lemma popitem_on_empty_cache_witness :
  ThreadCache_popitem (fun _ => None) 0 ThreadCache_init
  = (ThreadCache_init, [], Raises (KeyError (cps "ThreadCache is empty"))).
Proof.
  apply (proj1 (@popitem_on_empty_cache (fun _ => None) 0 ThreadCache_init
                  (proj1 (ThreadCache_inv_init 0)) (Forall_nil _))).
Defined.

(* ===================================================================== *)
(** ** Calls one after the other *)
(* ===================================================================== *)

Lemma serve_run (U : unicode) (hook_raises : pystr -> option exn)
    (reqs : list request) :
  forall (t0 : Q) (s : SimpleFoundryOrchestrator),
    ThreadCache_inv t0 (thread_cache s) ->
    timeline_ok t0 reqs ->
    Forall2
      (fun r o =>
         (exists d, o = Returns d)
         \/ (exists b agent th,
               o = Escapes b
               /\ snd (req_invoke r agent (req_text r) th) = Some (Base b)))
      reqs (snd (serve U hook_raises reqs s))
    /\ agents (fst (serve U hook_raises reqs s)) = agents s
    /\ is_configured (fst (serve U hook_raises reqs s)) = is_configured s
    /\ ThreadCache_inv (last (map req_end reqs) t0)
         (thread_cache (fst (serve U hook_raises reqs s)))
    /\ forall k,
         Forall (fun r => forall cid,
                   conv_true (req_conversation r) = Some cid ->
                   k <> cache_key cid (routed U (req_text r))) reqs ->
         kept_or_dropped k (thread_cache s)
           (thread_cache (fst (serve U hook_raises reqs s))).
Proof.
  induction reqs as [|r reqs IH]; intros t0 s Hinv Hline.
  - simpl. split; [constructor|]. split; [reflexivity|].
    split; [reflexivity|]. split; [exact Hinv|].
    intros k _. apply kept_or_dropped_refl.
  - destruct Hline as (Hstart & Hend & Hstream & Hrest).
    pose proof (ThreadCache_inv_later Hinv Hstart) as Hinv0.
    pose proof (fun k => @respond_other_keys U hook_raises (req_invoke r)
                  (req_now r) (req_text r) (req_conversation r) s k Hinv0
                  (fun agent th => proj1 (Hstream agent th))) as Hkeep.
    destruct (@respond_keeps_cache_invariant U hook_raises (req_invoke r)
                (req_now r) (req_text r) (req_conversation r) s Hinv0
                (fun agent th => proj1 (Hstream agent th)))
      as (s' & tr & o & Hr & Ho & Ha & Hc & Hlater).
    specialize (Hlater (req_end r) Hend
                  (fun agent th => proj2 (Hstream agent th))).
    destruct (IH (req_end r) s' Hlater Hrest)
      as (Hn & Ha' & Hc' & Hi & Hk).
    rewrite Hr in Hkeep. cbn [fst] in Hkeep.
    cbn [serve]. rewrite Hr. cbn [fst snd map].
    rewrite last_cons_default.
    split; [constructor; [exact Ho|exact Hn]|].
    split; [congruence|]. split; [congruence|]. split; [exact Hi|].
    intros k Hall. inversion Hall as [|? ? Hk1 Hk2]; subst.
    eapply kept_or_dropped_trans; [apply Hkeep; exact Hk1|].
    apply Hk. exact Hk2.
Qed.

(** X15: the capacity bound holds along every run.  When calls of
    [respond] follow one another, none overlapping another, on an
    orchestrator whose cache is in a state reachable from
    [ThreadCache(maxsize=1000, ttl=3600.0)], and the timer does not run
    backwards, every call returns a dict, unless the stream of the agent
    it invoked ends in an exception that is not an instance of
    [Exception], which the call propagates; the cache never holds more
    than 1000 threads and stays in such a state, and the registry and the
    configured flag are those of the start. *)
Theorem serve_keeps_capacity (U : unicode)
    (hook_raises : pystr -> option exn) (reqs : list request)
    (t0 : Q) (s : SimpleFoundryOrchestrator) :
  ThreadCache_inv t0 (thread_cache s) ->
  timeline_ok t0 reqs ->
  Forall2
    (fun r o =>
       (exists d, o = Returns d)
       \/ (exists b agent th,
             o = Escapes b
             /\ snd (req_invoke r agent (req_text r) th) = Some (Base b)))
    reqs (snd (serve U hook_raises reqs s))
  /\ agents (fst (serve U hook_raises reqs s)) = agents s
  /\ is_configured (fst (serve U hook_raises reqs s)) = is_configured s
  /\ currsize (thread_cache (fst (serve U hook_raises reqs s))) <= 1000
  /\ ThreadCache_inv (last (map req_end reqs) t0)
       (thread_cache (fst (serve U hook_raises reqs s))).
Proof.
  intros Hinv Hline.
  destruct (@serve_run U hook_raises reqs t0 s Hinv Hline)
    as (Hn & Ha & Hc & Hi & _).
  split; [exact Hn|]. split; [exact Ha|]. split; [exact Hc|].
  split; [|exact Hi].
  destruct Hi as (Hwf & _ & Hm & _). rewrite <- Hm. apply (wf_size Hwf).
Qed.

Lemma serve_keeps_capacity_witness :
  snd (serve ascii_db (fun _ => None)
         [{| req_text := cps "show me products";
             req_conversation := Some (cps "conv-1");
             req_invoke := fun _ _ _ =>
               ([{| content := Some (cps "We sell paint.");
                    thread := Some (cps "thread_1");
                    arrival := 2 |}], Some (Base CancelledError));
             req_now := 1; req_end := 3 |};
          {| req_text := cps "what is your return policy";
             req_conversation := Some (cps "conv-1");
             req_invoke := fun _ _ _ =>
               ([], Some (Exc (Exception (cps "timeout"))));
             req_now := 4; req_end := 5 |}]
         {| agents := [(ProductLookupAgent,
                        {| agent_name := ProductLookupAgent;
                           agent_id := cps "asst_product" |})];
            is_configured := true; thread_cache := ThreadCache_init |})
  = [Escapes CancelledError;
     Returns (unavailable_response KnowledgeAgent)]
  /\ currsize
       (thread_cache
          (fst (serve ascii_db (fun _ => None)
                  [{| req_text := cps "show me products";
                      req_conversation := Some (cps "conv-1");
                      req_invoke := fun _ _ _ =>
                        ([{| content := Some (cps "We sell paint.");
                             thread := Some (cps "thread_1");
                             arrival := 2 |}], Some (Base CancelledError));
                      req_now := 1; req_end := 3 |};
                   {| req_text := cps "what is your return policy";
                      req_conversation := Some (cps "conv-1");
                      req_invoke := fun _ _ _ =>
                        ([], Some (Exc (Exception (cps "timeout"))));
                      req_now := 4; req_end := 5 |}]
                  {| agents := [(ProductLookupAgent,
                                 {| agent_name := ProductLookupAgent;
                                    agent_id := cps "asst_product" |})];
                     is_configured := true;
                     thread_cache := ThreadCache_init |})))
     <= 1000.
Proof.
  destruct (@serve_keeps_capacity ascii_db (fun _ => None)
    [{| req_text := cps "show me products";
        req_conversation := Some (cps "conv-1");
        req_invoke := fun _ _ _ =>
          ([{| content := Some (cps "We sell paint.");
               thread := Some (cps "thread_1");
               arrival := 2 |}], Some (Base CancelledError));
        req_now := 1; req_end := 3 |};
     {| req_text := cps "what is your return policy";
        req_conversation := Some (cps "conv-1");
        req_invoke := fun _ _ _ =>
          ([], Some (Exc (Exception (cps "timeout"))));
        req_now := 4; req_end := 5 |}]
    0%Q
    {| agents := [(ProductLookupAgent,
                   {| agent_name := ProductLookupAgent;
                      agent_id := cps "asst_product" |})];
       is_configured := true; thread_cache := ThreadCache_init |}
    (ThreadCache_inv_init 0)) as (_ & _ & _ & Hsz & _).
  - cbn [timeline_ok req_now req_end req_invoke req_text fst].
    split; [unfold Qle; simpl; lia|].
    split; [unfold Qle; simpl; lia|].
    split.
    { intros _ _. split.
      - unfold clock_ok. simpl. repeat constructor; unfold Qle; simpl; lia.
      - intros m [<-|[]]. unfold Qle; simpl; lia. }
    split; [unfold Qle; simpl; lia|].
    split; [unfold Qle; simpl; lia|].
    split; [|exact I].
    intros _ _. split.
    + unfold clock_ok. simpl. repeat constructor.
    + intros m [].
  - split; [vm_compute; reflexivity|exact Hsz].
Defined.

(* ===================================================================== *)
(** ** The thread of a conversation from one call to a later one *)
(* ===================================================================== *)

Lemma other_pair_other_key (U : unicode) (cid text1 : pystr) (r : request) :
  req_conversation r <> Some cid
  \/ routed U (req_text r) <> routed U text1 ->
  forall cid',
    conv_true (req_conversation r) = Some cid' ->
    cache_key cid (routed U text1)
    <> cache_key cid' (routed U (req_text r)).
Proof.
  intros Hother cid' Hc Heq.
  apply cache_key_names in Heq.
  - destruct Heq as [<- Hr]. destruct Hother as [H|H]; [|congruence].
    apply H. destruct (req_conversation r) as [c|]; [|discriminate].
    simpl in Hc. destruct (truthy c); [congruence|discriminate].
  - destruct (routed_cases U text1) as [-> | ->]; simpl; auto.
  - destruct (routed_cases U (req_text r)) as [-> | ->]; simpl; auto.
Qed.

(** C9 (amended): two calls of [respond] on a configured orchestrator
    with the same non-empty conversation id, routed to the same registered
    agent, with calls for other conversations or agents in between, none
    overlapping another.  The last thread the first stream yields has the
    non-empty handle [h]; however the first call ends, the cache then
    holds [h] under the conversation key.  If at the second call the entry
    is neither expired nor evicted, that is, the key is still in the cache
    and the timer is below the expiry time stored with it, then the lookup
    of the second call returns [h] and the second call invokes the agent
    exactly once, with the thread [h]. *)
Theorem thread_round_trip (U : unicode)
    (hook_raises : pystr -> option exn)
    (invoke1 invoke2 : AzureAIAgent -> pystr -> option pystr -> stream)
    (now1 now2 : Q) (text1 text2 cid : pystr)
    (self : SimpleFoundryOrchestrator) (agent : AzureAIAgent)
    (before after : list message) (m : message) (fin : option raised)
    (h : pystr) (between : list request) :
  is_configured self = true ->
  ThreadCache_inv now1 (thread_cache self) ->
  cid <> [] ->
  routed U text2 = routed U text1 ->
  assoc (routed U text1) (agents self) = Some agent ->
  invoke1 agent text1
    (cached_thread now1 (Some cid) (routed U text1) (thread_cache self))
  = (before ++ m :: after, fin) ->
  thread m = Some h ->
  Forall (fun x => thread x = None) after ->
  clock_ok now1 (before ++ m :: after) ->
  h <> [] ->
  timeline_ok (last (map arrival (before ++ m :: after)) now1) between ->
  Forall (fun r => req_conversation r <> Some cid
                   \/ routed U (req_text r) <> routed U text1) between ->
  exists self1 tr1 o1 self2 self3 tr2 o2,
    respond U hook_raises invoke1 now1 text1 (Some cid) self
    = (self1, tr1, o1)
    /\ assoc (cache_key cid (routed U text1)) (data (thread_cache self1))
       = Some h
    /\ self2 = fst (serve U hook_raises between self1)
    /\ respond U hook_raises invoke2 now2 text2 (Some cid) self2
       = (self3, tr2, o2)
    /\ (live_key now2 (ring (thread_cache self2))
          (cache_key cid (routed U text1)) = true ->
        TTLCache_get now2 (cache_key cid (routed U text2))
          (thread_cache self2)
        = (get_state now2 (cache_key cid (routed U text2))
             (thread_cache self2), [], Returns (Some h))
        /\ invocations tr2 = [Invoke agent text2 (Some h)]).
Proof.
  intros Hc Hinv Hcid Hroute Hagent Hstream Hm Hafter Hclock Hh Hline
    Hother.
  apply truthy_nonempty in Hcid. apply truthy_nonempty in Hh.
  assert (Hclock' : clock_ok now1
    (fst (invoke1 agent text1
            (cached_thread now1 (Some cid) (routed U text1)
               (thread_cache self))))).
  { rewrite Hstream. exact Hclock. }
  destruct (@respond_run U hook_raises invoke1 now1 text1 (Some cid)
              self agent Hc Hinv Hagent Hclock')
    as (tr1 & Hrun1 & _ & Hinv1).
  rewrite Hstream in Hrun1, Hinv1. cbn [fst snd] in Hrun1, Hinv1.
  set (key := cache_key cid (routed U text1)) in *.
  set (c0 := looked_up now1 (Some cid) (routed U text1) (thread_cache self))
    in *.
  assert (Hc1 : after_drain (Some cid) (routed U text1)
                  (before ++ m :: after) c0
                = put_result (arrival m) key h (drained_cache key before c0)).
  { unfold after_drain. cbn [conv_true]. rewrite Hcid. fold key.
    rewrite drained_cache_app. cbn [drained_cache]. rewrite Hm.
    now apply drained_cache_no_thread. }
  rewrite Hc1 in Hrun1, Hinv1.
  set (c1 := put_result (arrival m) key h (drained_cache key before c0)) in *.
  destruct (put_result_assoc_key (arrival m) key h
              (drained_cache key before c0)) as [Hdata _].
  fold c1 in Hdata.
  set (self1 := set_thread_cache c1 self) in *.
  assert (Hkeys : Forall (fun r => forall cid',
                    conv_true (req_conversation r) = Some cid' ->
                    key <> cache_key cid' (routed U (req_text r))) between).
  { eapply Forall_impl; [|exact Hother].
    intros r Hr. apply other_pair_other_key. exact Hr. }
  destruct (@serve_run U hook_raises between _ self1 Hinv1 Hline)
    as (_ & Ha2 & Hc2 & Hinv2 & Hkept).
  specialize (Hkept key Hkeys).
  set (self2 := fst (serve U hook_raises between self1)) in *.
  pose proof Hinv2 as (Hwf2 & _).
  assert (Hagent2 : assoc (routed U text2) (agents self2) = Some agent).
  { rewrite Hroute, Ha2. exact Hagent. }
  assert (Hconf2 : is_configured self2 = true).
  { rewrite Hc2. exact Hc. }
  destruct (@respond_invokes U hook_raises invoke2 now2 text2 (Some cid)
              self2 agent Hconf2 Hwf2 Hagent2)
    as (self3 & tr2 & o2 & Hrun2 & Hn2 & _).
  exists self1, tr1, (answer U (before ++ m :: after, fin)), self2, self3,
    tr2, o2.
  split; [exact Hrun1|]. split; [exact Hdata|]. split; [reflexivity|].
  split; [exact Hrun2|].
  intros Hlive.
  assert (Hdata2 : assoc key (data (thread_cache self2)) = Some h).
  { destruct Hkept as [_ [Hd|Hd]]; [rewrite Hd; exact Hdata|].
    exfalso. apply assoc_none_iff in Hd. apply Hd.
    apply (wf_keys Hwf2). unfold live_key in Hlive.
    destruct (assoc key (ring (thread_cache self2))) as [e|] eqn:Er;
      [|discriminate].
    apply assoc_keys in Er. exact Er. }
  assert (Hth : cached_thread now2 (Some cid) (routed U text2)
                  (thread_cache self2) = Some h).
  { unfold cached_thread. cbn [conv_true]. rewrite Hcid, Hroute.
    fold key. now rewrite Hlive, Hdata2, Hh. }
  rewrite Hth in Hn2. split; [|exact Hn2].
  rewrite Hroute. fold key.
  rewrite (TTLCache_get_run now2 key Hwf2).
  now rewrite Hlive, Hdata2.
Qed.

Lemma thread_round_trip_witness :
  exists self1 tr1 o1 self2 self3 tr2 o2,
    respond ascii_db (fun _ => None)
      (fun _ _ _ =>
         ([{| content := Some (cps "I found ");
              thread := Some (cps "thread_0"); arrival := 5 |};
           {| content := Some (cps "two paints.");
              thread := Some (cps "thread_1"); arrival := 6 |}], None))
      4 (cps "Show me blue paint") (Some (cps "conv-7"))
      {| agents := [(ProductLookupAgent,
                     {| agent_name := ProductLookupAgent;
                        agent_id := cps "asst_1" |})];
         is_configured := true; thread_cache := ThreadCache_init |}
    = (self1, tr1, o1)
    /\ self2
       = fst (serve ascii_db (fun _ => None)
                [{| req_text := cps "Show me red paint";
                    req_conversation := Some (cps "conv-8");
                    req_invoke := fun _ _ _ =>
                      ([{| content := Some (cps "Here it is.");
                           thread := Some (cps "thread_9");
                           arrival := 11 |}], None);
                    req_now := 10; req_end := 12 |}]
                self1)
    /\ respond ascii_db (fun _ => None)
         (fun _ _ _ => ([], Some (Exc (Exception (cps "timeout")))))
         3605 (cps "Which paint is cheaper?") (Some (cps "conv-7")) self2
       = (self3, tr2, o2)
    /\ invocations tr2
       = [Invoke {| agent_name := ProductLookupAgent;
                    agent_id := cps "asst_1" |}
            (cps "Which paint is cheaper?") (Some (cps "thread_1"))].
Proof.
  destruct (@thread_round_trip ascii_db (fun _ => None)
    (fun _ _ _ =>
       ([{| content := Some (cps "I found ");
            thread := Some (cps "thread_0"); arrival := 5 |};
         {| content := Some (cps "two paints.");
            thread := Some (cps "thread_1"); arrival := 6 |}], None))
    (fun _ _ _ => ([], Some (Exc (Exception (cps "timeout")))))
    4 3605 (cps "Show me blue paint") (cps "Which paint is cheaper?")
    (cps "conv-7")
    {| agents := [(ProductLookupAgent,
                   {| agent_name := ProductLookupAgent;
                      agent_id := cps "asst_1" |})];
       is_configured := true; thread_cache := ThreadCache_init |}
    {| agent_name := ProductLookupAgent; agent_id := cps "asst_1" |}
    [{| content := Some (cps "I found ");
        thread := Some (cps "thread_0"); arrival := 5 |}]
    []
    {| content := Some (cps "two paints.");
       thread := Some (cps "thread_1"); arrival := 6 |}
    None (cps "thread_1")
    [{| req_text := cps "Show me red paint";
        req_conversation := Some (cps "conv-8");
        req_invoke := fun _ _ _ =>
          ([{| content := Some (cps "Here it is.");
               thread := Some (cps "thread_9");
               arrival := 11 |}], None);
        req_now := 10; req_end := 12 |}]
    eq_refl (ThreadCache_inv_init 4))
    as (self1 & tr1 & o1 & self2 & self3 & tr2 & o2
        & H1 & _ & H2 & H3 & H4).
  - discriminate.
  - vm_compute. reflexivity.
  - vm_compute. reflexivity.
  - reflexivity.
  - reflexivity.
  - constructor.
  - unfold clock_ok. simpl. repeat constructor; unfold Qle; simpl; lia.
  - discriminate.
  - cbn [timeline_ok req_now req_end req_invoke req_text fst].
    split; [vm_compute; discriminate|].
    split; [unfold Qle; simpl; lia|].
    split; [|exact I].
    intros _ _. split.
    + unfold clock_ok. simpl. repeat constructor; unfold Qle; simpl; lia.
    + intros x [<-|[]]. unfold Qle; simpl; lia.
  - constructor; [|constructor]. left. discriminate.
  - exists self1, tr1, o1, self2, self3, tr2, o2.
    split; [exact H1|]. split; [exact H2|]. split; [exact H3|].
    apply H4. rewrite H2.
    pose proof (f_equal (fun x => fst (fst x)) H1) as E.
    cbn beta in E. cbn [fst] in E. rewrite <- E.
    vm_compute. reflexivity.
Defined.

(* ===================================================================== *)
(** ** The release hook and the answer *)
(* ===================================================================== *)

(** X16: a release hook that raises never changes the answer.  The way a
    call ends, with the dict it returns, the state it leaves and the
    invocation it makes are the same whatever the release hook does for
    the threads that expire or are evicted during the call; only log lines
    differ. *)
Theorem release_hook_never_changes_answer (U : unicode)
    (hook1 hook2 : pystr -> option exn)
    (invoke : AzureAIAgent -> pystr -> option pystr -> stream)
    (now : Q) (user_text : pystr) (conversation_id : option pystr)
    (s : SimpleFoundryOrchestrator) :
  ThreadCache_inv now (thread_cache s) ->
  (forall agent th, clock_ok now (fst (invoke agent user_text th))) ->
  exists s' tr1 tr2 o,
    respond U hook1 invoke now user_text conversation_id s
    = (s', tr1, o)
    /\ respond U hook2 invoke now user_text conversation_id s
       = (s', tr2, o)
    /\ invocations tr1 = invocations tr2
    /\ ((exists d, o = Returns d)
        \/ (exists b agent th,
              o = Escapes b
              /\ snd (invoke agent user_text th) = Some (Base b))).
Proof.
  intros Hinv Hclock.
  destruct (is_configured s) eqn:Hc.
  - destruct (assoc (routed U user_text) (agents s)) as [agent|] eqn:Ha.
    + destruct (@respond_run U hook1 invoke now user_text
                  conversation_id s agent Hc Hinv Ha (Hclock _ _))
        as (tr1 & Hrun1 & Hi1 & _).
      destruct (@respond_run U hook2 invoke now user_text
                  conversation_id s agent Hc Hinv Ha (Hclock _ _))
        as (tr2 & Hrun2 & Hi2 & _).
      do 4 eexists. split; [exact Hrun1|]. split; [exact Hrun2|].
      split; [congruence|].
      unfold answer.
      destruct (snd (invoke agent user_text
                       (cached_thread now conversation_id
                          (routed U user_text) (thread_cache s))))
        as [[e|b]|] eqn:Efin; [left; eauto| |left; eauto].
      right. exists b, agent. eauto.
    + rewrite (@respond_unavailable_run U hook1 invoke now user_text
                 conversation_id s Hc Ha).
      rewrite (@respond_unavailable_run U hook2 invoke now user_text
                 conversation_id s Hc Ha).
      do 4 eexists. split; [reflexivity|]. split; [reflexivity|].
      split; [reflexivity|]. left. eauto.
  - unfold respond. unfold bind, get, emit, ret. rewrite Hc. cbn [negb].
    do 4 eexists. split; [reflexivity|]. split; [reflexivity|].
    split; [reflexivity|]. left. eauto.
Qed.

Lemma release_hook_never_changes_answer_witness :
  exists s' tr1 tr2 d,
    respond ascii_db (fun _ => None)
      (fun _ _ _ => ([{| content := Some (cps "We sell paint.");
                         thread := Some (cps "thread_1");
                         arrival := 4000 |}], None))
      3999 (cps "show me products") (Some (cps "conv-1"))
      {| agents := [(ProductLookupAgent,
                     {| agent_name := ProductLookupAgent;
                        agent_id := cps "asst_product" |})];
         is_configured := true;
         thread_cache :=
           put_result 0 (cache_key (cps "conv-2") ProductLookupAgent)
             (cps "thread_7") ThreadCache_init |}
    = (s', tr1, Returns d)
    /\ respond ascii_db (fun tid => Some (Exception tid))
         (fun _ _ _ => ([{| content := Some (cps "We sell paint.");
                            thread := Some (cps "thread_1");
                            arrival := 4000 |}], None))
         3999 (cps "show me products") (Some (cps "conv-1"))
         {| agents := [(ProductLookupAgent,
                        {| agent_name := ProductLookupAgent;
                           agent_id := cps "asst_product" |})];
            is_configured := true;
            thread_cache :=
              put_result 0 (cache_key (cps "conv-2") ProductLookupAgent)
                (cps "thread_7") ThreadCache_init |}
       = (s', tr2, Returns d).
Proof.
  destruct (@release_hook_never_changes_answer ascii_db
    (fun _ => None) (fun tid => Some (Exception tid))
    (fun _ _ _ => ([{| content := Some (cps "We sell paint.");
                       thread := Some (cps "thread_1");
                       arrival := 4000 |}], None))
    3999 (cps "show me products") (Some (cps "conv-1"))
    {| agents := [(ProductLookupAgent,
                   {| agent_name := ProductLookupAgent;
                      agent_id := cps "asst_product" |})];
       is_configured := true;
       thread_cache :=
         put_result 0 (cache_key (cps "conv-2") ProductLookupAgent)
           (cps "thread_7") ThreadCache_init |})
    as (s' & tr1 & tr2 & o & H1 & H2 & _ & [[d ->]|(b & ? & ? & _ & Hb)]).
  - apply ThreadCache_inv_later with (t := 0%Q).
    + apply ThreadCache_inv_put. apply ThreadCache_inv_init.
    + unfold Qle; simpl; lia.
  - intros _ _. unfold clock_ok. simpl.
    repeat constructor; unfold Qle; simpl; lia.
  - exists s', tr1, tr2, d. split; [exact H1|exact H2].
  - discriminate Hb.
Defined.
